(** * The job scheduler of the-void-jobs (src/the-void-jobs/src/scheduler.ts)

    A shallow embedding of the [JobScheduler] class: the registry of jobs,
    the dependency validator (depth-first cycle search), the topological
    scheduler (Kahn's algorithm), the execution engine (one round over all
    registered jobs) and the cron trigger layer (one timer per distinct
    cron expression). The methods embedded are [registerJob],
    [validateJobDependencies], [detectCircularDependencies],
    [resolveDependencies], [executeJobsWithDependencies], [executeJob],
    [removeJob], [start], [startWithImmediateExecution], [stop],
    [getJobs], [hasJob], [validateAllDependencies] and
    [getExecutionOrder].

    The caller of the scheduler, [main] of index.ts, is embedded with the
    [execute()] of its four jobs (jobs/): what a job does inside its [try]
    block, and the construction of the clients and services, are
    parameters.

    JavaScript's [Map] and [Set] iterate in insertion order, and that order
    decides the execution order of equally ready jobs and the root order of
    the cycle search; they are therefore association lists and lists here,
    with the insertion-order behaviour of [Map.prototype.set] written out.

    A method is a function from the state of the machine to a completion
    (a value, or the value thrown) and the next state. A job's [execute()]
    acts on a world the scheduler knows nothing of. *)

From Stdlib Require Import String ZArith Bool Lia Arith Relations List.
Import ListNotations.
Open Scope string_scope.
Open Scope list_scope.

Set Implicit Arguments.
Set Default Proof Using "Type".

(** ** JavaScript containers *)

Module JsMap.

Definition t (V : Type) := list (string * V).

Fixpoint get {V} (m : t V) (k : string) : option V :=
  match m with
  | [] => None
  | (k', v) :: m' => if String.eqb k' k then Some v else get m' k
  end.

Definition has {V} (m : t V) (k : string) : bool :=
  match get m k with Some _ => true | None => false end.

(** [set] keeps the position of a key that is already present and
    appends a new key at the end. *)
Fixpoint set {V} (m : t V) (k : string) (v : V) : t V :=
  match m with
  | [] => [(k, v)]
  | (k', v') :: m' =>
      if String.eqb k' k then (k', v) :: m' else (k', v') :: set m' k v
  end.

Fixpoint delete {V} (m : t V) (k : string) : t V :=
  match m with
  | [] => []
  | (k', v') :: m' =>
      if String.eqb k' k then m' else (k', v') :: delete m' k
  end.

Definition keys {V} (m : t V) : list string := map fst m.

Definition values {V} (m : t V) : list V := map snd m.

End JsMap.

Module JsSet.

Definition t := list string.

Definition has (s : t) (x : string) : bool :=
  existsb (String.eqb x) s.

Definition add (s : t) (x : string) : t :=
  if has s x then s else s ++ [x].

Fixpoint delete (s : t) (x : string) : t :=
  match s with
  | [] => []
  | y :: s' => if String.eqb y x then s' else y :: delete s' x
  end.

Definition size (s : t) : nat := length s.

End JsSet.

(** ** Thrown values and completions *)

(** A JavaScript [Error] object, as far as the scheduler looks at it. *)
Record JsError := mkError { errorMessage : string }.

(** What a [throw] (or a rejected promise) carries: an [Error], or any other
    value, of which only [String(value)] is ever used. *)
Inductive Thrown :=
| ThrownError (e : JsError)
| ThrownValue (text : string).

(** [error instanceof Error ? error : new Error(String(error))] *)
Definition toError (v : Thrown) : JsError :=
  match v with
  | ThrownError e => e
  | ThrownValue text => mkError text
  end.

Inductive Completion (A : Type) :=
| Normal (a : A)
| Throw (v : Thrown).

Arguments Normal {A} a.
Arguments Throw {A} v.

(** The three registration errors; the code throws plain [Error]s that
    differ in their message. *)
Definition InvalidSchedule (cronExpression : string) : Thrown :=
  ThrownError (mkError ("Invalid cron expression: " ++ cronExpression)%string).

Definition DependencyNotFound (depName jobName : string) : Thrown :=
  ThrownError
    (mkError ("Job dependency not found: " ++ depName
              ++ " (required by " ++ jobName ++ ")")%string).

Definition CircularDependency (jobName : string) : Thrown :=
  ThrownError
    (mkError ("Circular dependency detected involving job: " ++ jobName)%string).

(** ** Results of a round (types/job.ts) *)

Record JobResult := mkJobResult {
  success : bool;
  message : option string;
  error : option JsError;
  executionTime : Z;
  jobName : option string;
  dependenciesMet : option bool;
  skippedReason : option string
}.

(** ** The dependency graph of a registry

    The validator and the topological sort read only the keys of the
    registry and the [dependencies] of its jobs; they are stated over a
    registry of dependency lists, which [jobDependencies] extracts below. *)

Definition Graph := JsMap.t (list string).

(** ** Topological scheduler: [resolveDependencies] *)

Definition getOrZero (inDegree : JsMap.t Z) (k : string) : Z :=
  match JsMap.get inDegree k with Some d => d | None => 0%Z end.

(** The first loop: every job starts with in-degree 0 and no dependents. *)
Definition initDegrees (g : Graph) : JsMap.t Z :=
  fold_left (fun m k => JsMap.set m k 0%Z) (JsMap.keys g) [].

Definition initAdjacency (g : Graph) : JsMap.t (list string) :=
  fold_left (fun m k => JsMap.set m k []) (JsMap.keys g) [].

(** [adjList.get(depName)?.push(jobName)]: nothing happens when the
    dependency is not a key. *)
Definition pushDependent (adjList : JsMap.t (list string))
    (depName jobName : string) : JsMap.t (list string) :=
  match JsMap.get adjList depName with
  | Some l => JsMap.set adjList depName (l ++ [jobName])
  | None => adjList
  end.

Definition addEdge (jobName : string)
    (st : JsMap.t (list string) * JsMap.t Z) (depName : string)
    : JsMap.t (list string) * JsMap.t Z :=
  (pushDependent (fst st) depName jobName,
   JsMap.set (snd st) jobName (getOrZero (snd st) jobName + 1)%Z).

Definition addJobEdges (st : JsMap.t (list string) * JsMap.t Z)
    (entry : string * list string) : JsMap.t (list string) * JsMap.t Z :=
  fold_left (addEdge (fst entry)) (snd entry) st.

Definition buildGraph (g : Graph) : JsMap.t (list string) * JsMap.t Z :=
  fold_left addJobEdges g (initAdjacency g, initDegrees g).

(** The queue is seeded with the jobs of in-degree 0, in map order. *)
Definition seedQueue (inDegree : JsMap.t Z) : list string :=
  map fst (filter (fun kv => Z.eqb (snd kv) 0) inDegree).

(** The inner [for] loop over the dependents of the job just dequeued. *)
Fixpoint relax (dependents : list string) (inDegree : JsMap.t Z)
    (queue : list string) : JsMap.t Z * list string :=
  match dependents with
  | [] => (inDegree, queue)
  | dependent :: rest =>
      let newDegree := (getOrZero inDegree dependent - 1)%Z in
      let inDegree' := JsMap.set inDegree dependent newDegree in
      relax rest inDegree'
        (if Z.eqb newDegree 0 then queue ++ [dependent] else queue)
  end.

Record KahnState := mkKahn {
  k_inDegree : JsMap.t Z;
  k_queue : list string;
  k_result : list string
}.

(** One iteration of [while (queue.length > 0)]. *)
Definition kahnStep (adjList : JsMap.t (list string)) (cur : string)
    (rest : list string) (st : KahnState) : KahnState :=
  let dependents :=
    match JsMap.get adjList cur with Some l => l | None => [] end in
  let '(inDegree', queue') := relax dependents (k_inDegree st) rest in
  mkKahn inDegree' queue' (k_result st ++ [cur]).

(** The [while] loop; [fuel] bounds the number of iterations, and the state
    is returned as it is when the loop stops. *)
Fixpoint kahnLoop (fuel : nat) (adjList : JsMap.t (list string))
    (st : KahnState) : KahnState :=
  match fuel with
  | O => st
  | S fuel' =>
      match k_queue st with
      | [] => st
      | cur :: rest => kahnLoop fuel' adjList (kahnStep adjList cur rest st)
      end
  end.

Definition kahnRun (g : Graph) : KahnState :=
  let '(adjList, inDegree) := buildGraph g in
  kahnLoop (length g) adjList (mkKahn inDegree (seedQueue inDegree) []).

(** [resolveDependencies()]. Every job is dequeued at most once, so
    [length g] iterations empty the queue ([kahnRun_queue_empty] below). *)
Definition resolveDependencies (g : Graph) : list string :=
  k_result (kahnRun g).

(** ** Dependency graph validator: [detectCircularDependencies] *)

Record DfsState := mkDfs {
  visited : JsSet.t;
  recursionStack : JsSet.t
}.

(** The [for] loop over the dependencies of one job, stopping at the first
    recursive call that reports a cycle. [None] is "out of fuel". *)
Fixpoint forEachDependency
    (call : string -> DfsState -> option (bool * DfsState))
    (deps : list string) (st : DfsState) : option (bool * DfsState) :=
  match deps with
  | [] => Some (false, st)
  | depName :: rest =>
      match call depName st with
      | None => None
      | Some (true, st') => Some (true, st')
      | Some (false, st') => forEachDependency call rest st'
      end
  end.

(** The closure [hasCycle]; [fuel] bounds the depth of the recursion. *)
Fixpoint hasCycle (fuel : nat) (g : Graph) (jobName : string)
    (st : DfsState) : option (bool * DfsState) :=
  match fuel with
  | O => None
  | S fuel' =>
      if JsSet.has (recursionStack st) jobName then Some (true, st)
      else if JsSet.has (visited st) jobName then Some (false, st)
      else
        let st1 := mkDfs (JsSet.add (visited st) jobName)
                         (JsSet.add (recursionStack st) jobName) in
        let deps :=
          match JsMap.get g jobName with Some ds => ds | None => [] end in
        match forEachDependency (hasCycle fuel' g) deps st1 with
        | None => None
        | Some (true, st') => Some (true, st')
        | Some (false, st') =>
            Some (false,
                  mkDfs (visited st')
                        (JsSet.delete (recursionStack st') jobName))
        end
  end.

(** The loop over all registered jobs as roots: [Some (Some j)] when the
    search from root [j] reports a cycle, [Some None] when no root does. *)
Fixpoint detectFromRoots (fuel : nat) (g : Graph) (roots : list string)
    (st : DfsState) : option (option string) :=
  match roots with
  | [] => Some None
  | jobName :: rest =>
      match hasCycle fuel g jobName st with
      | None => None
      | Some (true, _) => Some (Some jobName)
      | Some (false, st') => detectFromRoots fuel g rest st'
      end
  end.

(** Every name the search can meet: the keys and all dependency names. *)
Definition graphNames (g : Graph) : list string :=
  JsMap.keys g ++ concat (JsMap.values g).

(** Each nested call marks a name that was not visited before, so the
    depth never exceeds the number of names by more than one
    ([detectFromRoots_total] below). *)
Definition dfsFuel (g : Graph) : nat := S (length (graphNames g)).

(** [detectCircularDependencies()]: [Some j] stands for
    [throw new Error("Circular dependency detected involving job: j")]. *)
Definition detectCycle (g : Graph) : option string :=
  match detectFromRoots (dfsFuel g) g (JsMap.keys g) (mkDfs [] []) with
  | Some r => r
  | None => None
  end.

(** ** The scheduler *)

Inductive LogLevel := Info | Warn | Error.

(** What a call leaves behind besides the scheduler's own state: the
    [Logger] lines and the invocations of a job's [execute()]. *)
Inductive Event :=
| Logged (level : LogLevel) (text : string)
| Executed (jobName : string).

(** A [cron.ScheduledTask] object: the expression it was created for and
    whether it has been started. *)
Record ScheduledTask := mkTask {
  taskExpression : string;
  taskRunning : bool
}.

Section Scheduler.

(** Everything outside the scheduler that a job's [execute()] may read
    and change, [Date.now()] and [cron.validate]. *)
Variable World : Type.
Variable now : World -> Z.
Variable cronValidate : string -> bool.

Record Job := mkJob {
  name : string;
  description : option string;
  dependencies : option (list string);
  execute : World -> Completion unit * World
}.

(** [job.dependencies] where the code tests it for being present and
    iterates over it. *)
Definition jobDependencies (job : Job) : list string :=
  match dependencies job with Some ds => ds | None => [] end.

Definition jobGraph (jobs : JsMap.t Job) : Graph :=
  map (fun kv => (fst kv, jobDependencies (snd kv))) jobs.

(** The fields of [JobScheduler]. [scheduledTasks] holds references
    (indices) into the heap of task objects kept in [Machine]. *)
Record JobScheduler := mkScheduler {
  jobs : JsMap.t Job;
  scheduledTasks : JsMap.t nat;
  scheduleToJobs : JsMap.t JsSet.t;
  isExecuting : bool
}.

Record Machine := mkMachine {
  sched : JobScheduler;
  taskHeap : list ScheduledTask;
  world : World;
  trace : list Event
}.

Definition newScheduler : JobScheduler := mkScheduler [] [] [] false.

(** *** State and exception monad of the methods *)

Definition M (A : Type) := Machine -> Completion A * Machine.

Definition ret {A} (a : A) : M A := fun m => (Normal a, m).

Definition bind {A B} (c : M A) (k : A -> M B) : M B :=
  fun m =>
    match c m with
    | (Normal a, m') => k a m'
    | (Throw v, m') => (Throw v, m')
    end.

Definition throw {A} (v : Thrown) : M A := fun m => (Throw v, m).

Definition tryCatch {A} (body : M A) (handler : Thrown -> M A) : M A :=
  fun m =>
    match body m with
    | (Normal a, m') => (Normal a, m')
    | (Throw v, m') => handler v m'
    end.

Definition tryFinally {A} (body : M A) (finalizer : M unit) : M A :=
  fun m =>
    match body m with
    | (c, m') =>
        match finalizer m' with
        | (Normal _, m'') => (c, m'')
        | (Throw v, m'') => (Throw v, m'')
        end
    end.

Definition gets {A} (f : Machine -> A) : M A := fun m => (Normal (f m), m).

Definition modify (f : JobScheduler -> JobScheduler) : M unit :=
  fun m =>
    (Normal tt, mkMachine (f (sched m)) (taskHeap m) (world m) (trace m)).

Definition emit (e : Event) : M unit :=
  fun m =>
    (Normal tt, mkMachine (sched m) (taskHeap m) (world m) (trace m ++ [e])).

Definition log (level : LogLevel) (text : string) : M unit :=
  emit (Logged level text).

Notation "x <- c ;; k" := (bind c (fun x => k))
  (at level 61, c at next level, right associativity).
Notation "c ;; k" := (bind c (fun _ => k))
  (at level 61, right associativity).

Definition setJobs (js : JsMap.t Job) (s : JobScheduler) : JobScheduler :=
  mkScheduler js (scheduledTasks s) (scheduleToJobs s) (isExecuting s).

Definition setScheduledTasks (ts : JsMap.t nat) (s : JobScheduler)
    : JobScheduler :=
  mkScheduler (jobs s) ts (scheduleToJobs s) (isExecuting s).

Definition setScheduleToJobs (gs : JsMap.t JsSet.t) (s : JobScheduler)
    : JobScheduler :=
  mkScheduler (jobs s) (scheduledTasks s) gs (isExecuting s).

Definition setIsExecuting (b : bool) (s : JobScheduler) : JobScheduler :=
  mkScheduler (jobs s) (scheduledTasks s) (scheduleToJobs s) b.

(** *** The cron library *)

(** [cron.schedule(expression, callback, { scheduled: false })]: a new
    task object, not started; the reference to it is returned. *)
Definition cronSchedule (cronExpression : string) : M nat :=
  fun m =>
    (Normal (length (taskHeap m)),
     mkMachine (sched m) (taskHeap m ++ [mkTask cronExpression false])
               (world m) (trace m)).

Fixpoint heapUpdate (h : list ScheduledTask) (ref : nat)
    (f : ScheduledTask -> ScheduledTask) : list ScheduledTask :=
  match h, ref with
  | [], _ => []
  | t :: h', O => f t :: h'
  | t :: h', S ref' => t :: heapUpdate h' ref' f
  end.

Definition setRunning (b : bool) (t : ScheduledTask) : ScheduledTask :=
  mkTask (taskExpression t) b.

(** [task.start()] and [task.stop()] *)
Definition taskStart (ref : nat) : M unit :=
  fun m =>
    (Normal tt,
     mkMachine (sched m) (heapUpdate (taskHeap m) ref (setRunning true))
               (world m) (trace m)).

Definition taskStop (ref : nat) : M unit :=
  fun m =>
    (Normal tt,
     mkMachine (sched m) (heapUpdate (taskHeap m) ref (setRunning false))
               (world m) (trace m)).

(** *** Registration *)

(** The first dependency name that is not a key of the registry. *)
Fixpoint firstUnregistered (js : JsMap.t Job) (deps : list string)
    : option string :=
  match deps with
  | [] => None
  | depName :: rest =>
      if negb (JsMap.has js depName) then Some depName
      else firstUnregistered js rest
  end.

Definition detectCircularDependencies : M unit :=
  js <- gets (fun m => jobs (sched m)) ;;
  match detectCycle (jobGraph js) with
  | Some jobName => throw (CircularDependency jobName)
  | None => ret tt
  end.

Definition validateJobDependencies (job : Job) : M unit :=
  match jobDependencies job with
  | [] => ret tt
  | deps =>
      js <- gets (fun m => jobs (sched m)) ;;
      match firstUnregistered js deps with
      | Some depName => throw (DependencyNotFound depName (name job))
      | None => detectCircularDependencies
      end
  end.

Definition registerJob (job : Job) (cronExpression : string)
    (validateDependencies : bool) : M unit :=
  log Info ("Registering job: " ++ name job)%string ;;
  modify (fun s => setJobs (JsMap.set (jobs s) (name job) job) s) ;;
  (if negb (cronValidate cronExpression)
   then throw (InvalidSchedule cronExpression)
   else ret tt) ;;
  (if validateDependencies then validateJobDependencies job else ret tt) ;;
  groups <- gets (fun m => scheduleToJobs (sched m)) ;;
  (if negb (JsMap.has groups cronExpression)
   then
     modify (fun s =>
       setScheduleToJobs (JsMap.set (scheduleToJobs s) cronExpression []) s) ;;
     task <- cronSchedule cronExpression ;;
     modify (fun s =>
       setScheduledTasks (JsMap.set (scheduledTasks s) cronExpression task) s)
   else ret tt) ;;
  groups <- gets (fun m => scheduleToJobs (sched m)) ;;
  match JsMap.get groups cronExpression with
  | Some jobSet =>
      modify (setScheduleToJobs
                (JsMap.set groups cronExpression (JsSet.add jobSet (name job))))
  | None =>
      throw (ThrownError
               (mkError "Cannot read properties of undefined (reading 'add')"))
  end.

(** *** Removal *)

(** The first schedule group, in map order, that holds the job. *)
Fixpoint findGroup (groups : JsMap.t JsSet.t) (jobName : string)
    : option (string * JsSet.t) :=
  match groups with
  | [] => None
  | (cronExpression, jobSet) :: rest =>
      if JsSet.has jobSet jobName then Some (cronExpression, jobSet)
      else findGroup rest jobName
  end.

Definition removeJob (jobName : string) : M bool :=
  groups <- gets (fun m => scheduleToJobs (sched m)) ;;
  match findGroup groups jobName with
  | Some (cronExpression, jobSet) =>
      let jobSet' := JsSet.delete jobSet jobName in
      modify (setScheduleToJobs (JsMap.set groups cronExpression jobSet')) ;;
      if Nat.eqb (JsSet.size jobSet') 0
      then
        tasks <- gets (fun m => scheduledTasks (sched m)) ;;
        match JsMap.get tasks cronExpression with
        | Some task =>
            taskStop task ;;
            modify (fun s =>
              setScheduledTasks (JsMap.delete (scheduledTasks s) cronExpression) s)
        | None => ret tt
        end ;;
        modify (fun s =>
          setScheduleToJobs (JsMap.delete (scheduleToJobs s) cronExpression) s)
      else ret tt
  | None => ret tt
  end ;;
  js <- gets (fun m => jobs (sched m)) ;;
  modify (setJobs (JsMap.delete js jobName)) ;;
  ret (JsMap.has js jobName).

(** *** Starting and stopping the timers *)

Fixpoint forEachTask (text : string) (act : nat -> M unit)
    (entries : list (string * nat)) : M unit :=
  match entries with
  | [] => ret tt
  | (cronExpression, task) :: rest =>
      log Info (text ++ cronExpression)%string ;;
      act task ;;
      forEachTask text act rest
  end.

Definition start : M unit :=
  log Info "Starting job scheduler" ;;
  tasks <- gets (fun m => scheduledTasks (sched m)) ;;
  forEachTask "Starting scheduled task for cron: " taskStart tasks.

Definition stop : M unit :=
  log Info "Stopping job scheduler" ;;
  tasks <- gets (fun m => scheduledTasks (sched m)) ;;
  forEachTask "Stopping scheduled task for cron: " taskStop tasks.

Definition getJobs : M (list string) :=
  gets (fun m => JsMap.keys (jobs (sched m))).

Definition hasJob (jobName : string) : M bool :=
  gets (fun m => JsMap.has (jobs (sched m)) jobName).

Definition getExecutionOrder : M (list string) :=
  gets (fun m => resolveDependencies (jobGraph (jobs (sched m)))).

(** *** Execution engine *)

Definition notFoundResult (jobName : string) : JobResult :=
  mkJobResult false None
    (Some (mkError ("Job not found: " ++ jobName)%string)) 0 None None None.

Definition successResult (jobName : string) (executionTime : Z)
    : JobResult :=
  mkJobResult true
    (Some ("Job " ++ jobName ++ " completed successfully")%string)
    None executionTime None None None.

Definition failureResult (jobError : JsError) (executionTime : Z)
    : JobResult :=
  mkJobResult false None (Some jobError) executionTime None None None.

Definition skipReason (depName : string) : string :=
  ("Dependency failed or was skipped: " ++ depName)%string.

Definition skippedResult (jobName skippedReason : string) : JobResult :=
  mkJobResult false None None 0 (Some jobName) (Some false)
    (Some skippedReason).

(** [result.jobName = jobName; result.dependenciesMet = true] *)
Definition tagResult (jobName : string) (r : JobResult) : JobResult :=
  mkJobResult (success r) (message r) (error r) (executionTime r)
    (Some jobName) (Some true) (skippedReason r).

(** [await job.execute()], run to its end: the job acts on the world and
    resolves or rejects. *)
Definition callExecute (jobName : string) (job : Job) : M unit :=
  fun m =>
    let '(outcome, w) := execute job (world m) in
    (outcome,
     mkMachine (sched m) (taskHeap m) w (trace m ++ [Executed jobName])).

(** The [try { await ...; } catch (error) { ... }] of [executeJob], after
    [startTime] was read; [awaited] is the awaited call. *)
Definition executeJobBody (jobName : string) (startTime : Z)
    (awaited : M unit) : M JobResult :=
  tryCatch
    (awaited ;;
     endTime <- gets (fun m => now (world m)) ;;
     log Info ("Job completed successfully: " ++ jobName)%string ;;
     ret (successResult jobName (endTime - startTime)))
    (fun error =>
       endTime <- gets (fun m => now (world m)) ;;
       log Error ("Job failed: " ++ jobName)%string ;;
       ret (failureResult (toError error) (endTime - startTime))).

Definition executeJob (jobName : string) : M JobResult :=
  js <- gets (fun m => jobs (sched m)) ;;
  match JsMap.get js jobName with
  | None =>
      log Error "Job execution failed" ;;
      ret (notFoundResult jobName)
  | Some job =>
      log Info ("Executing job: " ++ jobName)%string ;;
      startTime <- gets (fun m => now (world m)) ;;
      executeJobBody jobName startTime (callExecute jobName job)
  end.

(** The loop that looks for the first dependency missing from
    [completedJobs]: the values of [dependenciesMet] and [skippedReason]
    after it. *)
Fixpoint checkDependencies (deps : list string) (completedJobs : JsSet.t)
    : bool * string :=
  match deps with
  | [] => (true, "")
  | depName :: rest =>
      if negb (JsSet.has completedJobs depName)
      then (false, skipReason depName)
      else checkDependencies rest completedJobs
  end.

(** [completedJobs] after a job's result is known. *)
Definition markCompleted (completedJobs : JsSet.t) (jobName : string)
    (r : JobResult) : JsSet.t :=
  if success r then JsSet.add completedJobs jobName else completedJobs.

(** The [for] loop of a round, with every job run to its end before the
    next one starts; it carries [results] and [completedJobs]. *)
Fixpoint roundLoop (executionOrder : list string)
    (results : list JobResult) (completedJobs : JsSet.t)
    : M (list JobResult * JsSet.t) :=
  match executionOrder with
  | [] => ret (results, completedJobs)
  | jobName :: rest =>
      js <- gets (fun m => jobs (sched m)) ;;
      match JsMap.get js jobName with
      | None => roundLoop rest results completedJobs
      | Some job =>
          let '(dependenciesMet, skippedReason) :=
            checkDependencies (jobDependencies job) completedJobs in
          if negb dependenciesMet
          then
            log Warn ("Skipping job " ++ jobName ++ ": " ++ skippedReason)%string ;;
            roundLoop rest
              (results ++ [skippedResult jobName skippedReason])
              completedJobs
          else
            result <- executeJob jobName ;;
            let result := tagResult jobName result in
            roundLoop rest (results ++ [result])
              (markCompleted completedJobs jobName result)
      end
  end.

Definition busyWarning : string :=
  "Job execution already in progress, skipping concurrent execution".

(** [executeJobsWithDependencies()], the spec's [executeRound()], when
    nothing else runs while a job is awaited. *)
Definition executeJobsWithDependencies : M (list JobResult) :=
  busy <- gets (fun m => isExecuting (sched m)) ;;
  if busy
  then log Warn busyWarning ;; ret []
  else
    modify (setIsExecuting true) ;;
    log Info "Executing jobs with dependency resolution" ;;
    tryFinally
      (executionOrder <-
         gets (fun m => resolveDependencies (jobGraph (jobs (sched m)))) ;;
       final <- roundLoop executionOrder [] [] ;;
       ret (fst final))
      (modify (setIsExecuting false)).

(** *** Interleaved rounds

    A round is suspended while it awaits a job; timers may fire and
    methods may be called in the meantime. A [Frame] holds the locals of
    a suspended [executeJobsWithDependencies] and of the [executeJob] it
    awaits. *)

Record Frame := mkFrame {
  f_jobName : string;
  f_job : Job;
  f_startTime : Z;
  f_rest : list string;
  f_results : list JobResult;
  f_completed : JsSet.t
}.

(** The [for] loop up to the next [await job.execute()] ([inl]) or to its
    end ([inr]). *)
Fixpoint advance (executionOrder : list string)
    (results : list JobResult) (completedJobs : JsSet.t)
    : M (Frame + list JobResult) :=
  match executionOrder with
  | [] => ret (inr results)
  | jobName :: rest =>
      js <- gets (fun m => jobs (sched m)) ;;
      match JsMap.get js jobName with
      | None => advance rest results completedJobs
      | Some job =>
          let '(dependenciesMet, skippedReason) :=
            checkDependencies (jobDependencies job) completedJobs in
          if negb dependenciesMet
          then
            log Warn ("Skipping job " ++ jobName ++ ": " ++ skippedReason)%string ;;
            advance rest
              (results ++ [skippedResult jobName skippedReason])
              completedJobs
          else
            log Info ("Executing job: " ++ jobName)%string ;;
            startTime <- gets (fun m => now (world m)) ;;
            emit (Executed jobName) ;;
            ret (inl (mkFrame jobName job startTime rest results
                              completedJobs))
      end
  end.

(** Leaving [executeJobsWithDependencies]: the [finally] block runs when
    the loop has ended, not when it is suspended. *)
Definition leaveRound (r : Frame + list JobResult)
    : M (Frame + list JobResult) :=
  match r with
  | inl f => ret (inl f)
  | inr results => modify (setIsExecuting false) ;; ret (inr results)
  end.

(** A call of [executeJobsWithDependencies()], up to its first
    suspension or its return. *)
Definition invokeRound : M (Frame + list JobResult) :=
  busy <- gets (fun m => isExecuting (sched m)) ;;
  if busy
  then log Warn busyWarning ;; ret (inr [])
  else
    modify (setIsExecuting true) ;;
    log Info "Executing jobs with dependency resolution" ;;
    executionOrder <-
      gets (fun m => resolveDependencies (jobGraph (jobs (sched m)))) ;;
    r <- advance executionOrder [] [] ;;
    leaveRound r.

Definition setWorld (w : World) : M unit :=
  fun m => (Normal tt, mkMachine (sched m) (taskHeap m) w (trace m)).

(** The awaited [execute()] settles, having left the world as [w]: the
    suspended round goes on to its next suspension or its return. *)
Definition resumeRound (f : Frame) (w : World) (outcome : Completion unit)
    : M (Frame + list JobResult) :=
  setWorld w ;;
  result <- executeJobBody (f_jobName f) (f_startTime f)
              (fun m => (outcome, m)) ;;
  let result := tagResult (f_jobName f) result in
  r <- advance (f_rest f) (f_results f ++ [result])
         (markCompleted (f_completed f) (f_jobName f) result) ;;
  leaveRound r.

(** What can happen to a scheduler between two suspensions. *)
Inductive Action :=
| CallRegisterJob (job : Job) (cronExpression : string)
    (validateDependencies : bool)
| CallRemoveJob (jobName : string)
| CallStart
| CallStop
| CallExecuteRound
| Settle (index : nat) (w : World) (outcome : Completion unit).

(** The machine and the rounds in flight. *)
Record System := mkSystem {
  machine : Machine;
  inFlight : list Frame
}.

Fixpoint removeNth {A} (l : list A) (n : nat) : list A :=
  match l, n with
  | [], _ => []
  | _ :: l', O => l'
  | x :: l', S n' => x :: removeNth l' n'
  end.

Definition afterRound (rest : list Frame)
    (r : Completion (Frame + list JobResult) * Machine) : System :=
  match r with
  | (Normal (inl f), m) => mkSystem m (rest ++ [f])
  | (_, m) => mkSystem m rest
  end.

Definition act (a : Action) (s : System) : System :=
  match a with
  | CallRegisterJob job cronExpression validateDependencies =>
      mkSystem
        (snd (registerJob job cronExpression validateDependencies (machine s)))
        (inFlight s)
  | CallRemoveJob jobName =>
      mkSystem (snd (removeJob jobName (machine s))) (inFlight s)
  | CallStart => mkSystem (snd (start (machine s))) (inFlight s)
  | CallStop => mkSystem (snd (stop (machine s))) (inFlight s)
  | CallExecuteRound => afterRound (inFlight s) (invokeRound (machine s))
  | Settle index w outcome =>
      match nth_error (inFlight s) index with
      | Some f =>
          afterRound (removeNth (inFlight s) index)
                     (resumeRound f w outcome (machine s))
      | None => s
      end
  end.

Definition runActions (actions : list Action) (s : System) : System :=
  fold_left (fun s a => act a s) actions s.

Definition initialSystem (w : World) : System :=
  mkSystem (mkMachine newScheduler [] w []) [].

(** *** A job for examples: it leaves the world alone *)

Definition sampleJob (jobName : string) (deps : option (list string))
    (outcome : Completion unit) : Job :=
  mkJob jobName None deps (fun w => (outcome, w)).

(** ** Vocabulary of the statements *)

(** [dependsOn g j d]: the registered job [j] lists [d] as a dependency. *)
Definition dependsOn (g : Graph) (j d : string) : Prop :=
  exists ds, JsMap.get g j = Some ds /\ In d ds.

(** A directed cycle: some job reaches itself along dependency edges. *)
Definition cyclic (g : Graph) : Prop :=
  exists j, clos_trans string (dependsOn g) j j.

Definition acyclic (g : Graph) : Prop :=
  forall j, ~ clos_trans string (dependsOn g) j j.

(** Every declared dependency is a registered job. *)
Definition dependenciesRegistered (g : Graph) : Prop :=
  forall j d, dependsOn g j d -> In d (JsMap.keys g).

(** A [Map] holds a key once. *)
Definition uniqueKeys {V} (m : JsMap.t V) : Prop := NoDup (JsMap.keys m).

(** Every dependency of every job of the sequence stands at a smaller
    index than the job. *)
Definition dependenciesFirst (g : Graph) (order : list string) : Prop :=
  forall i j ds d,
    nth_error order i = Some j -> JsMap.get g j = Some ds -> In d ds ->
    exists k, k < i /\ nth_error order k = Some d.

(** The job completed successfully according to a list of results. *)
Definition succeededIn (results : list JobResult) (j : string) : Prop :=
  exists r, In r results /\ jobName r = Some j /\ success r = true.


(** The timers the scheduler holds for an expression, and the timers of
    the cron library that are started for it. *)
Definition timersFor (m : Machine) (cronExpression : string) : list nat :=
  map snd
    (filter (fun kv => String.eqb (fst kv) cronExpression)
            (scheduledTasks (sched m))).

Fixpoint armedFrom (h : list ScheduledTask) (ref : nat)
    (cronExpression : string) : list nat :=
  match h with
  | [] => []
  | t :: h' =>
      if String.eqb (taskExpression t) cronExpression && taskRunning t
      then ref :: armedFrom h' (S ref) cronExpression
      else armedFrom h' (S ref) cronExpression
  end.

Definition armedTimers (m : Machine) (cronExpression : string) : list nat :=
  armedFrom (taskHeap m) 0 cronExpression.

Definition groupMembers (m : Machine) (cronExpression : string) : JsSet.t :=
  match JsMap.get (scheduleToJobs (sched m)) cronExpression with
  | Some jobSet => jobSet
  | None => []
  end.

End Scheduler.

Arguments newScheduler {World}.
Arguments ret {World A} a.
Arguments throw {World A} v.
Arguments gets {World A} f.
Arguments modify {World} f.
Arguments emit {World} e.
Arguments log {World} level text.
Arguments removeJob {World} jobName.
Arguments start {World}.
Arguments stop {World}.
Arguments getJobs {World}.
Arguments hasJob {World} jobName.
Arguments getExecutionOrder {World}.
Arguments detectCircularDependencies {World}.
Arguments taskStart {World} ref.
Arguments taskStop {World} ref.
Arguments cronSchedule {World} cronExpression.
Arguments setWorld {World} w.
Arguments CallRemoveJob {World} jobName.
Arguments CallStart {World}.
Arguments CallStop {World}.
Arguments CallExecuteRound {World}.
Arguments sampleJob {World} jobName deps outcome.

(** ** Further methods of the scheduler *)

Section Lifecycle.

Context {World : Type}.
Variable now : World -> Z.

Local Notation "x <- c ;; k" := (bind c (fun x => k))
  (at level 61, c at next level, right associativity).
Local Notation "c ;; k" := (bind c (fun _ => k))
  (at level 61, right associativity).

(** A [for ... of] loop, or a [forEach], whose body is a method call. *)
Fixpoint forEach {A} (body : A -> M World unit) (l : list A)
    : M World unit :=
  match l with
  | [] => ret tt
  | x :: rest => body x ;; forEach body rest
  end.

Definition validateAllDependencies : M World unit :=
  log Info "Validating all job dependencies" ;;
  js <- gets (fun m => JsMap.values (jobs (sched m))) ;;
  forEach (fun job => validateJobDependencies job) js ;;
  log Info "All job dependencies validated successfully".

(** [result.jobName] inside a template literal. *)
Definition jobNameText (result : JobResult) : string :=
  match jobName result with
  | Some text => text
  | None => "undefined"
  end.

(** The callback of [results.forEach] in [startWithImmediateExecution]. *)
Definition reportResult (result : JobResult) : M World unit :=
  if success result
  then
    log Info
      ("Initial execution completed for job: " ++ jobNameText result)%string
  else
    match dependenciesMet result with
    | Some false =>
        log Warn
          ("Initial execution skipped for job: " ++ jobNameText result)%string
    | _ =>
        log Error
          ("Initial execution failed for job: " ++ jobNameText result)%string
    end.

Definition startWithImmediateExecution : M World unit :=
  log Info "Starting job scheduler with immediate execution" ;;
  tryCatch
    (results <- executeJobsWithDependencies now ;;
     forEach reportResult results)
    (fun error =>
       log Error "Failed to execute jobs with dependencies on startup") ;;
  tasks <- gets (fun m => scheduledTasks (sched m)) ;;
  forEachTask "Starting scheduled task for cron: " taskStart tasks.

End Lifecycle.

(** ** The entry point and its jobs (index.ts, jobs/)

    [process.env] is a map from names to strings. *)

Definition Env := JsMap.t string.

Module EnvConfig.

(** [process.env[key] || defaultValue] *)
Definition get (env : Env) (key defaultValue : string) : string :=
  match JsMap.get env key with
  | Some value => if String.eqb value "" then defaultValue else value
  | None => defaultValue
  end.

End EnvConfig.

(** Whether the process goes on after a handler, or has called
    [process.exit(code)]. *)
Inductive ProcessState :=
| Alive
| Exited (code : Z).

Section EntryPoint.

Context {World : Type}.
Variable now : World -> Z.
Variable cronValidate : string -> bool.

(** Inside a job, [Logger] and [console.error] act on the world of the
    job. *)
Variable jobLog : LogLevel -> string -> World -> World.
Variable consoleError : Thrown -> World -> World.

Local Notation "x <- c ;; k" := (bind c (fun x => k))
  (at level 61, c at next level, right associativity).
Local Notation "c ;; k" := (bind c (fun _ => k))
  (at level 61, right associativity).

(** What stands inside the [try] block of an [execute()]. *)
Definition Body := World -> Completion unit * World.

(** [RssParsingJob]: the error of the [try] block is logged and thrown
    again. *)
Definition rssParsingExecute (body : Body) : World -> Completion unit * World :=
  fun w =>
    match body (jobLog Info "Starting parse feeds job" w) with
    | (Normal _, w') => (Normal tt, jobLog Info "Completed parse feeds job" w')
    | (Throw error, w') =>
        (Throw error, jobLog Error "Parse feeds job failed" w')
    end.

Definition RssParsingJob (body : Body) : Job World :=
  mkJob "parse-feeds-job" (Some "Parse rss feeds") None
        (rssParsingExecute body).

(** [AiAnalysisJob]: the error of the [try] block is logged, and
    [execute()] resolves. *)
Definition aiAnalysisExecute (body : Body) : World -> Completion unit * World :=
  fun w =>
    match body (jobLog Info "Starting AI analysis job" w) with
    | (Normal _, w') => (Normal tt, w')
    | (Throw error, w') =>
        (Normal tt,
         consoleError error (jobLog Error "Ai Analysis Job Failed" w'))
    end.

Definition AiAnalysisJob (body : Body) : Job World :=
  mkJob "ai-analysis-job" (Some "Analyze RSS feeds")
        (Some ["parse-feeds-job"]) (aiAnalysisExecute body).

(** [SocialMediaSearchJob]: as [AiAnalysisJob]. *)
Definition socialMediaSearchExecute (body : Body)
    : World -> Completion unit * World :=
  fun w =>
    match body (jobLog Info "Starting social media search job" w) with
    | (Normal _, w') =>
        (Normal tt,
         jobLog Info "Successfully completed social media search job" w')
    | (Throw error, w') =>
        (Normal tt, jobLog Error "Social media search job failed" w')
    end.

Definition SocialMediaSearchJob (body : Body) : Job World :=
  mkJob "social-media-search-job"
        (Some "Search for social media posts related to the article")
        (Some ["ai-analysis-job"]) (socialMediaSearchExecute body).

(** [SocialMediaUpdatesJob]: as [RssParsingJob]; the last line of the log
    is written inside the [try] block. *)
Definition socialMediaUpdatesExecute (body : Body)
    : World -> Completion unit * World :=
  fun w =>
    match body (jobLog Info "Starting social media updates job" w) with
    | (Normal _, w') => (Normal tt, w')
    | (Throw error, w') =>
        (Throw error, jobLog Error "Social media updates job failed" w')
    end.

Definition SocialMediaUpdatesJob (body : Body) : Job World :=
  mkJob "social-media-updates-job"
        (Some "Update social media posts or delete if no longer exist")
        None (socialMediaUpdatesExecute body).

(** The bodies of the four jobs of [main]. *)
Record Bodies := mkBodies {
  rssParsingBody : Body;
  aiAnalysisBody : Body;
  socialMediaSearchBody : Body;
  socialMediaUpdatesBody : Body
}.

(** The lines of [main] that build the clients, the services and the
    jobs: they read the environment and act on the world, and they may
    throw. *)
Variable construct : Env -> World -> Completion Bodies * World.

Definition constructJobs (env : Env) : M World Bodies :=
  fun m =>
    let '(outcome, w) := construct env (world m) in
    (outcome, mkMachine (sched m) (taskHeap m) w (trace m)).

(** [main()], up to the point where it has installed the handlers of the
    signals, or has called [process.exit(1)]. *)
Definition main (env : Env) : M World ProcessState :=
  log Info "Starting The Void Jobs Scheduler" ;;
  tryCatch
    (bodies <- constructJobs env ;;
     modify (fun _ => newScheduler) ;;
     let hourlySchedule := EnvConfig.get env "JOB_SCHEDULE" "0 * * * *" in
     registerJob cronValidate (RssParsingJob (rssParsingBody bodies))
       hourlySchedule true ;;
     registerJob cronValidate (AiAnalysisJob (aiAnalysisBody bodies))
       hourlySchedule true ;;
     registerJob cronValidate
       (SocialMediaSearchJob (socialMediaSearchBody bodies))
       hourlySchedule true ;;
     let dailyUpdatesSchedule :=
       EnvConfig.get env "UPDATES_JOB_SCHEDULE" "0 2 * * *" in
     registerJob cronValidate
       (SocialMediaUpdatesJob (socialMediaUpdatesBody bodies))
       dailyUpdatesSchedule true ;;
     startWithImmediateExecution now ;;
     registeredJobs <- getJobs ;;
     log Info "Job scheduler started successfully" ;;
     ret Alive)
    (fun error =>
       log Error "Failed to start job scheduler" ;;
       ret (Exited 1)).

(** The handlers [main] installs for [SIGINT] and [SIGTERM]. *)
Definition onSignal (signal : string) : M World ProcessState :=
  log Info ("Received " ++ signal ++ ", shutting down gracefully")%string ;;
  stop ;;
  ret (Exited 0).

End EntryPoint.

(** ** Definitions used in the statements and proofs *)

Unset Implicit Arguments.

(** How often [j] is pushed onto the dependents of [d], and how often
    the in-degree of [j] is incremented. *)
Fixpoint edgeCount (entries : Graph) (j d : string) : nat :=
  match entries with
  | [] => 0
  | (j', ds) :: rest =>
      (if string_dec j' j then count_occ string_dec ds d else 0)
      + edgeCount rest j d
  end.

Fixpoint depCount (entries : Graph) (j : string) : nat :=
  match entries with
  | [] => 0
  | (j', ds) :: rest =>
      (if string_dec j' j then length ds else 0) + depCount rest j
  end.

(** The entries of [ds] that are not in [result] yet. *)
Definition pending (ds result : list string) : nat :=
  length (filter (fun d => negb (JsSet.has result d)) ds).

(** What the [while] loop keeps true. *)
Record KahnInv (g : Graph) (st : KahnState) : Prop := {
  ki_nodup : NoDup (k_result st ++ k_queue st);
  ki_keys : forall x, In x (k_result st ++ k_queue st) -> In x (JsMap.keys g);
  ki_degree : forall j ds,
    JsMap.get g j = Some ds ->
    getOrZero (k_inDegree st) j = Z.of_nat (pending ds (k_result st));
  ki_ready : forall j ds,
    JsMap.get g j = Some ds ->
    (In j (k_result st ++ k_queue st) <-> pending ds (k_result st) = 0);
  ki_order : dependenciesFirst g (k_result st)
}.

(** What the loop needs of [adjList]. *)
Definition adjacencyOk (g : Graph) (adjList : JsMap.t (list string)) : Prop :=
  forall d, In d (JsMap.keys g) ->
    exists l, JsMap.get adjList d = Some l
              /\ forall j, count_occ string_dec l j = edgeCount g j d.

(** A walk from [x] through the nodes of [l], along edges of [R]. *)
Fixpoint walk (R : string -> string -> Prop) (x : string) (l : list string)
    : Prop :=
  match l with
  | [] => True
  | y :: l' => R x y /\ walk R y l'
  end.

(** The names not visited yet; the recursion depth left is at most that. *)
Definition unvisited (g : Graph) (st : DfsState) : nat :=
  length (filter (fun n => negb (JsSet.has (visited st) n)) (graphNames g)).

(** Finished by the search: visited and no longer on the stack. *)
Definition finished (st : DfsState) (u : string) : Prop :=
  In u (visited st) /\ ~ In u (recursionStack st).

Record DfsInv (g : Graph) (st : DfsState) : Prop := {
  di_stack : NoDup (recursionStack st);
  di_closed : forall u v, finished st u -> dependsOn g u v -> finished st v;
  di_acyclic : forall u,
    finished st u -> ~ clos_trans string (dependsOn g) u u
}.

(** What a call of the search on one name guarantees, with depth [bound]
    available. *)
Definition searchOk (g : Graph) (bound : nat)
    (call : string -> DfsState -> option (bool * DfsState)) : Prop :=
  forall x st,
    unvisited g st < bound -> In x (graphNames g) -> DfsInv g st ->
    (forall s, In s (recursionStack st) ->
               clos_trans string (dependsOn g) s x) ->
    exists b st',
      call x st = Some (b, st')
      /\ (b = true -> cyclic g)
      /\ (b = false ->
          DfsInv g st'
          /\ recursionStack st' = recursionStack st
          /\ (forall u, In u (visited st) -> In u (visited st'))
          /\ finished st' x).

(** The results of the jobs named [j]. *)
Definition resultsFor (results : list JobResult) (j : string)
    : list JobResult :=
  filter (fun r => match jobName r with
                   | Some x => String.eqb x j
                   | None => false
                   end) results.

(** The task objects after [start()] ([b = true]) or [stop()]: every task
    the scheduler holds is started, or stopped. *)
Definition armAll (b : bool) (entries : list (string * nat))
    (h : list ScheduledTask) : list ScheduledTask :=
  fold_left (fun h kv => heapUpdate h (snd kv) (setRunning b)) entries h.

Section Auxiliary.

Context {World : Type}.
Variable now : World -> Z.

(** The machine after one job was run to its end. *)
Definition afterJob (jobName : string) (job : Job World) (m : Machine World)
    : Machine World :=
  let '(outcome, w) := execute job (world m) in
  mkMachine (sched m) (taskHeap m) w
    (trace m
     ++ [Logged Info ("Executing job: " ++ jobName)%string;
         Executed jobName;
         match outcome with
         | Normal _ =>
             Logged Info ("Job completed successfully: " ++ jobName)%string
         | Throw _ => Logged Error ("Job failed: " ++ jobName)%string
         end]).

(** The result [executeJob] returns for it. *)
Definition jobOutcome (jobName : string) (job : Job World) (m : Machine World)
    : JobResult :=
  let '(outcome, w) := execute job (world m) in
  match outcome with
  | Normal _ => successResult jobName (now w - now (world m))
  | Throw v => failureResult (toError v) (now w - now (world m))
  end.

(** What a run of the loop over [order] amounts to. *)
Record LoopRun (order : list string) (rs : list JobResult) (cs : JsSet.t)
    (m : Machine World) (rs' : list JobResult) (cs' : JsSet.t)
    (m' : Machine World) (events : list Event) : Prop := {
  lr_sched : sched m' = sched m;
  lr_heap : taskHeap m' = taskHeap m;
  lr_trace : trace m' = trace m ++ events;
  lr_executed : forall x, In (Executed x) events -> In x order;
  lr_names : forall r, In r rs' ->
    exists x, jobName r = Some x /\ In x order;
  lr_completed : forall x, In x cs' <-> In x cs \/ succeededIn rs' x;
  lr_aligned :
    (forall x, In x order -> In x (JsMap.keys (jobs (sched m)))) ->
    map jobName rs' = map Some order
}.

(** The machine when the loop of a round starts, and when the round is
    left through its [finally] block. *)
Definition roundStart (m : Machine World) : Machine World :=
  mkMachine (setIsExecuting true (sched m)) (taskHeap m) (world m)
    (trace m ++ [Logged Info "Executing jobs with dependency resolution"]).

Definition roundEnd (m : Machine World) : Machine World :=
  mkMachine (setIsExecuting false (sched m)) (taskHeap m) (world m) (trace m).

Definition warned (m : Machine World) : Machine World :=
  mkMachine (sched m) (taskHeap m) (world m)
    (trace m ++ [Logged Warn busyWarning]).

(** The machine after [this.jobs.set(job.name, job)]. *)
Definition afterSet (job : Job World) (m : Machine World) : Machine World :=
  mkMachine
    (setJobs (JsMap.set (jobs (sched m)) (name job) job) (sched m))
    (taskHeap m) (world m)
    (trace m ++ [Logged Info ("Registering job: " ++ name job)%string]).

(** What [validateJobDependencies] does on a registry. *)
Definition validationResult (job : Job World) (js : JsMap.t (Job World))
    : Completion unit :=
  match jobDependencies job with
  | [] => Normal tt
  | _ :: _ =>
      match firstUnregistered js (jobDependencies job) with
      | Some depName => Throw (DependencyNotFound depName (name job))
      | None =>
          match detectCycle (jobGraph js) with
          | Some j => Throw (CircularDependency j)
          | None => Normal tt
          end
      end
  end.

(** The machine after the job joined the group of its expression. *)
Definition afterSchedule (cronExpression jobName : string)
    (m : Machine World) : Machine World :=
  match JsMap.get (scheduleToJobs (sched m)) cronExpression with
  | Some jobSet =>
      mkMachine
        (setScheduleToJobs
           (JsMap.set (scheduleToJobs (sched m)) cronExpression
                      (JsSet.add jobSet jobName))
           (sched m))
        (taskHeap m) (world m) (trace m)
  | None =>
      mkMachine
        (mkScheduler (jobs (sched m))
           (JsMap.set (scheduledTasks (sched m)) cronExpression
                      (length (taskHeap m)))
           (JsMap.set (JsMap.set (scheduleToJobs (sched m)) cronExpression [])
                      cronExpression (JsSet.add [] jobName))
           (isExecuting (sched m)))
        (taskHeap m ++ [mkTask cronExpression false]) (world m) (trace m)
  end.

(** The machine after the loop of [removeJob] over the schedule groups. *)
Definition afterUngroup (jobName : string) (m : Machine World)
    : Machine World :=
  match findGroup (scheduleToJobs (sched m)) jobName with
  | Some (cronExpression, jobSet) =>
      let groups :=
        JsMap.set (scheduleToJobs (sched m)) cronExpression
                  (JsSet.delete jobSet jobName) in
      if Nat.eqb (JsSet.size (JsSet.delete jobSet jobName)) 0
      then
        match JsMap.get (scheduledTasks (sched m)) cronExpression with
        | Some task =>
            mkMachine
              (mkScheduler (jobs (sched m))
                 (JsMap.delete (scheduledTasks (sched m)) cronExpression)
                 (JsMap.delete groups cronExpression)
                 (isExecuting (sched m)))
              (heapUpdate (taskHeap m) task (setRunning false))
              (world m) (trace m)
        | None =>
            mkMachine
              (mkScheduler (jobs (sched m)) (scheduledTasks (sched m))
                 (JsMap.delete groups cronExpression)
                 (isExecuting (sched m)))
              (taskHeap m) (world m) (trace m)
        end
      else
        mkMachine (setScheduleToJobs groups (sched m))
                  (taskHeap m) (world m) (trace m)
  | None => m
  end.

Definition afterRemove (jobName : string) (m : Machine World)
    : Machine World :=
  mkMachine
    (setJobs (JsMap.delete (jobs (sched (afterUngroup jobName m))) jobName)
             (sched (afterUngroup jobName m)))
    (taskHeap (afterUngroup jobName m))
    (world (afterUngroup jobName m))
    (trace (afterUngroup jobName m)).

(** At most one round is in flight, and the flag is set exactly while one
    is. *)
Definition FlightInv (s : System World) : Prop :=
  match inFlight s with
  | [] => isExecuting (sched (machine s)) = false
  | [_] => isExecuting (sched (machine s)) = true
  | _ => False
  end.

(** What holds of the schedule groups, the timers the scheduler holds and
    the task objects of the cron library. *)
Record TimerInv (m : Machine World) : Prop := {
  ti_tasks : uniqueKeys (scheduledTasks (sched m));
  ti_groups : uniqueKeys (scheduleToJobs (sched m));
  ti_keys : forall e,
    In e (JsMap.keys (scheduledTasks (sched m)))
    <-> In e (JsMap.keys (scheduleToJobs (sched m)));
  ti_members : forall e jobSet,
    JsMap.get (scheduleToJobs (sched m)) e = Some jobSet -> jobSet <> [];
  ti_refs : forall e ref,
    JsMap.get (scheduledTasks (sched m)) e = Some ref ->
    exists t, nth_error (taskHeap m) ref = Some t /\ taskExpression t = e;
  ti_armed : forall ref t,
    nth_error (taskHeap m) ref = Some t -> taskRunning t = true ->
    JsMap.get (scheduledTasks (sched m)) (taskExpression t) = Some ref
}.

End Auxiliary.

(** ** Examples

    The world of the examples is the clock: [Date.now()] reads it, and a
    job may advance it. [sampleCron] accepts the two expressions of the
    entry point of the-void-jobs. *)

Definition sampleNow (w : Z) : Z := w.

Definition sampleCron (cronExpression : string) : bool :=
  String.eqb cronExpression "0 * * * *"
  || String.eqb cronExpression "0 2 * * *".

Definition emptyMachine : Machine Z := mkMachine newScheduler [] 0%Z [].

(** [parse] fails, [analyze] depends on [parse], [social] on [analyze]. *)
Definition parseJob : Job Z :=
  mkJob "parse" None None (fun w => (Throw (ThrownValue "boom"), (w + 7)%Z)).

Definition analyzeJob : Job Z :=
  sampleJob "analyze" (Some ["parse"]) (Normal tt).

Definition socialJob : Job Z :=
  sampleJob "social" (Some ["analyze"]) (Normal tt).

Definition pipelineMachine : Machine Z :=
  snd (registerJob sampleCron socialJob "0 * * * *" true
    (snd (registerJob sampleCron analyzeJob "0 * * * *" true
      (snd (registerJob sampleCron parseJob "0 * * * *" true
              emptyMachine))))).

(** A job whose only dependency was registered, and then removed. *)
Definition ghostJob : Job Z := sampleJob "ghost" None (Normal tt).

Definition orphanJob : Job Z := sampleJob "X" (Some ["ghost"]) (Normal tt).

Definition orphanMachine : Machine Z :=
  snd (removeJob "ghost"
    (snd (registerJob sampleCron orphanJob "0 * * * *" true
      (snd (registerJob sampleCron ghostJob "0 * * * *" true
              emptyMachine))))).

(** A job that depends on itself, registered without validation, and an
    independent job. *)
Definition selfJob : Job Z := sampleJob "A" (Some ["A"]) (Normal tt).

Definition plainJob : Job Z := sampleJob "B" None (Normal tt).

Definition selfMachine : Machine Z :=
  snd (registerJob sampleCron selfJob "0 * * * *" false emptyMachine).

(** A check of [dependenciesRegistered] by evaluation. *)
Definition allRegistered (g : Graph) : bool :=
  forallb (fun kv => forallb (fun d => JsMap.has g d) (snd kv)) g.

Fixpoint distinct (l : list string) : bool :=
  match l with
  | [] => true
  | x :: l' => negb (JsSet.has l' x) && distinct l'
  end.

(** ** Further vocabulary *)

(** [x] is [j] itself or one of its dependencies, direct or not. *)
Definition reaches (g : Graph) (j x : string) : Prop :=
  clos_refl_trans string (dependsOn g) j x.

(** Everything [j] needs is registered and free of cycles. *)
Definition runnable (g : Graph) (j : string) : Prop :=
  forall x, reaches g j x ->
    In x (JsMap.keys g) /\ ~ clos_trans string (dependsOn g) x x.

(** What the loop of [validateAllDependencies] comes to on a registry:
    the error of the first job that is rejected. *)
Fixpoint firstRejection {World} (js : JsMap.t (Job World))
    (l : list (Job World)) : option Thrown :=
  match l with
  | [] => None
  | job :: rest =>
      match validationResult job js with
      | Throw v => Some v
      | Normal _ => firstRejection js rest
      end
  end.

(** How often [execute()] of the job [j] was invoked, by the events. *)
Definition isExecution (j : string) (e : Event) : bool :=
  match e with
  | Executed x => String.eqb x j
  | Logged _ _ => false
  end.

Definition executions (events : list Event) (j : string) : nat :=
  length (filter (isExecution j) events).

(** The machine with other schedule groups, timers and task objects. *)
Definition withTimers {World} (ts : JsMap.t nat) (gs : JsMap.t JsSet.t)
    (h : list ScheduledTask) (m : Machine World) : Machine World :=
  mkMachine (mkScheduler (jobs (sched m)) ts gs (isExecuting (sched m)))
            h (world m) (trace m).

Section Reached.

Context {World : Type}.
Variable now : World -> Z.
Variable cronValidate : string -> bool.

(** The machine of a new scheduler after a sequence of calls and of
    settlements of awaited jobs. *)
Definition stateAfter (actions : list (Action World)) (w : World)
    : Machine World :=
  machine (runActions now cronValidate actions (initialSystem w)).

End Reached.

(** [CallStart], as a test. *)
Definition isCallStart {World} (a : Action World) : bool :=
  match a with
  | CallStart => true
  | _ => false
  end.

(** The line [reportResult] writes for a result. *)
Definition reportLine (result : JobResult) : Event :=
  if success result
  then
    Logged Info
      ("Initial execution completed for job: " ++ jobNameText result)%string
  else
    match dependenciesMet result with
    | Some false =>
        Logged Warn
          ("Initial execution skipped for job: " ++ jobNameText result)%string
    | _ =>
        Logged Error
          ("Initial execution failed for job: " ++ jobNameText result)%string
    end.

(** The machine after [Logger.info(text)]. *)
Definition logged {World} (text : string) (m : Machine World)
    : Machine World :=
  mkMachine (sched m) (taskHeap m) (world m) (trace m ++ [Logged Info text]).

(** The machine when the process starts. *)
Definition processStart {World} (w : World) : Machine World :=
  mkMachine newScheduler [] w [].

Section EntryAuxiliary.

Context {World : Type}.
Variable jobLog : LogLevel -> string -> World -> World.
Variable consoleError : Thrown -> World -> World.

(** The registry [main] builds. *)
Definition mainRegistry (bodies : @Bodies World) : JsMap.t (Job World) :=
  [("parse-feeds-job", RssParsingJob jobLog (rssParsingBody bodies));
   ("ai-analysis-job",
    AiAnalysisJob jobLog consoleError (aiAnalysisBody bodies));
   ("social-media-search-job",
    SocialMediaSearchJob jobLog (socialMediaSearchBody bodies));
   ("social-media-updates-job",
    SocialMediaUpdatesJob jobLog (socialMediaUpdatesBody bodies))].


End EntryAuxiliary.

(** ** Further examples *)

(** A registry built without validation: [A] depends on itself, [B] on
    nothing, [C] on [B], [D] on [A], and [E] on a name that is not
    registered. *)
Definition tangledMachine : Machine Z :=
  fold_left
    (fun m job => snd (registerJob sampleCron job "0 * * * *" false m))
    [sampleJob "A" (Some ["A"]) (Normal tt);
     sampleJob "B" None (Normal tt);
     sampleJob "C" (Some ["B"]) (Normal tt);
     sampleJob "D" (Some ["A"]) (Normal tt);
     sampleJob "E" (Some ["nowhere"]) (Normal tt)]
    emptyMachine.

(** Three jobs in a chain, each of which resolves. *)
Definition fetchJob : Job Z := sampleJob "fetch" None (Normal tt).

Definition indexJob : Job Z := sampleJob "index" (Some ["fetch"]) (Normal tt).

Definition publishJob : Job Z :=
  sampleJob "publish" (Some ["index"; "fetch"]) (Normal tt).

Definition chainMachine : Machine Z :=
  snd (registerJob sampleCron publishJob "0 2 * * *" true
    (snd (registerJob sampleCron indexJob "0 * * * *" true
      (snd (registerJob sampleCron fetchJob "0 * * * *" true
              emptyMachine))))).

(** A job registered under two expressions. *)
Definition twiceMachine : Machine Z :=
  snd (registerJob sampleCron plainJob "0 2 * * *" true
    (snd (registerJob sampleCron plainJob "0 * * * *" true emptyMachine))).

(** The entry point on examples: the jobs write no log, the feed parser
    resolves and advances the clock, the AI analysis fails. *)
Definition quietLog (level : LogLevel) (text : string) (w : Z) : Z := w.

Definition quietError (v : Thrown) (w : Z) : Z := w.

Definition sampleBodies : @Bodies Z :=
  mkBodies (fun w => (Normal tt, (w + 5)%Z))
           (fun w => (Throw (ThrownValue "no model"), w))
           (fun w => (Normal tt, w))
           (fun w => (Normal tt, w)).

Definition sampleConstruct (env : Env) (w : Z) : Completion (@Bodies Z) * Z :=
  (Normal sampleBodies, w).

(** The registry of [main] in a machine of its own. *)
Definition mainMachine : Machine Z :=
  mkMachine
    (mkScheduler (mainRegistry quietLog quietError sampleBodies) [] [] false)
    [] 0%Z [].

(** ** Facts about the containers *)

Lemma map_get_set_same {V} (m : JsMap.t V) k v :
  JsMap.get (JsMap.set m k v) k = Some v.
Proof.
  induction m as [|[k' v'] m IH]; simpl.
  - now rewrite String.eqb_refl.
  - destruct (String.eqb k' k) eqn:E; simpl; rewrite E; auto.
Qed.

Lemma map_get_set_other {V} (m : JsMap.t V) k k' v :
  k <> k' -> JsMap.get (JsMap.set m k v) k' = JsMap.get m k'.
Proof.
  intros Hne. induction m as [|[k0 v0] m IH]; simpl.
  - destruct (String.eqb k k') eqn:E; auto.
    apply String.eqb_eq in E. contradiction.
  - destruct (String.eqb k0 k) eqn:E; simpl.
    + apply String.eqb_eq in E. subst k0.
      destruct (String.eqb k k') eqn:E'; auto.
      apply String.eqb_eq in E'. contradiction.
    + now rewrite IH.
Qed.

Lemma map_get_in_keys {V} (m : JsMap.t V) k v :
  JsMap.get m k = Some v -> In k (JsMap.keys m).
Proof.
  induction m as [|[k' v'] m IH]; simpl; [discriminate|].
  destruct (String.eqb k' k) eqn:E.
  - apply String.eqb_eq in E. auto.
  - auto.
Qed.

Lemma map_get_in {V} (m : JsMap.t V) k v :
  JsMap.get m k = Some v -> In (k, v) m.
Proof.
  induction m as [|[k' v'] m IH]; simpl; [discriminate|].
  destruct (String.eqb k' k) eqn:E.
  - apply String.eqb_eq in E. intros [= ->]. subst. auto.
  - auto.
Qed.

Lemma map_in_keys_get {V} (m : JsMap.t V) k :
  In k (JsMap.keys m) -> exists v, JsMap.get m k = Some v.
Proof.
  induction m as [|[k' v'] m IH]; simpl; [tauto|].
  intros [->|H].
  - rewrite String.eqb_refl. eauto.
  - destruct (String.eqb k' k); eauto.
Qed.

Lemma map_get_none {V} (m : JsMap.t V) k :
  JsMap.get m k = None <-> ~ In k (JsMap.keys m).
Proof.
  split.
  - intros H Hin. apply map_in_keys_get in Hin as [v Hv]. congruence.
  - intros H. destruct (JsMap.get m k) eqn:E; auto.
    apply map_get_in_keys in E. contradiction.
Qed.

Lemma map_has_true {V} (m : JsMap.t V) k :
  JsMap.has m k = true <-> In k (JsMap.keys m).
Proof.
  unfold JsMap.has. split.
  - destruct (JsMap.get m k) eqn:E; [|discriminate].
    intros _. eapply map_get_in_keys; eauto.
  - intros H. apply map_in_keys_get in H as [v ->]. reflexivity.
Qed.

Lemma map_has_false {V} (m : JsMap.t V) k :
  JsMap.has m k = false <-> ~ In k (JsMap.keys m).
Proof.
  rewrite <- map_has_true. destruct (JsMap.has m k); intuition congruence.
Qed.

Lemma map_in_get {V} (m : JsMap.t V) k v :
  uniqueKeys m -> In (k, v) m -> JsMap.get m k = Some v.
Proof.
  unfold uniqueKeys.
  induction m as [|[k' v'] m IH]; simpl; [tauto|].
  intros Hnd [H|H].
  - inversion H; subst. now rewrite String.eqb_refl.
  - inversion Hnd; subst.
    destruct (String.eqb k' k) eqn:E; auto.
    apply String.eqb_eq in E. subst k'.
    exfalso. apply H2. change k with (fst (k, v)). now apply in_map.
Qed.

Lemma map_keys_set_in {V} (m : JsMap.t V) k v :
  In k (JsMap.keys m) -> JsMap.keys (JsMap.set m k v) = JsMap.keys m.
Proof.
  induction m as [|[k' v'] m IH]; simpl; [tauto|].
  intros H. destruct (String.eqb k' k) eqn:E; simpl; auto.
  f_equal. apply IH. destruct H as [H|H]; auto.
  subst. rewrite String.eqb_refl in E. discriminate.
Qed.

Lemma map_keys_set_new {V} (m : JsMap.t V) k v :
  ~ In k (JsMap.keys m) -> JsMap.keys (JsMap.set m k v) = JsMap.keys m ++ [k].
Proof.
  induction m as [|[k' v'] m IH]; simpl; auto.
  intros H. destruct (String.eqb k' k) eqn:E; simpl.
  - apply String.eqb_eq in E. tauto.
  - f_equal. apply IH. tauto.
Qed.

Lemma map_keys_set_iff {V} (m : JsMap.t V) k v x :
  In x (JsMap.keys (JsMap.set m k v)) <-> x = k \/ In x (JsMap.keys m).
Proof.
  destruct (in_dec string_dec k (JsMap.keys m)) as [H|H].
  - rewrite map_keys_set_in by auto. split; auto. intros [->|]; auto.
  - rewrite map_keys_set_new by auto. rewrite in_app_iff. simpl.
    split; intros; intuition.
Qed.

Lemma map_set_unique {V} (m : JsMap.t V) k v :
  uniqueKeys m -> uniqueKeys (JsMap.set m k v).
Proof.
  unfold uniqueKeys. intros Hnd.
  destruct (in_dec string_dec k (JsMap.keys m)) as [H|H].
  - now rewrite map_keys_set_in.
  - rewrite map_keys_set_new by auto.
    apply NoDup_app; auto.
    + constructor; auto. constructor.
    + intros x Hx [<-|Hf]; [contradiction|destruct Hf].
Qed.

Lemma map_keys_delete_incl {V} (m : JsMap.t V) k x :
  In x (JsMap.keys (JsMap.delete m k)) -> In x (JsMap.keys m).
Proof.
  induction m as [|[k' v'] m IH]; simpl; auto.
  destruct (String.eqb k' k); simpl; intuition.
Qed.

Lemma map_delete_unique {V} (m : JsMap.t V) k :
  uniqueKeys m -> uniqueKeys (JsMap.delete m k).
Proof.
  unfold uniqueKeys.
  induction m as [|[k' v'] m IH]; simpl; auto.
  intros Hnd. inversion Hnd; subst.
  destruct (String.eqb k' k); simpl; auto.
  constructor; auto. intros Hin. apply H1.
  eapply map_keys_delete_incl; eauto.
Qed.

Lemma map_get_delete_same {V} (m : JsMap.t V) k :
  uniqueKeys m -> JsMap.get (JsMap.delete m k) k = None.
Proof.
  unfold uniqueKeys.
  induction m as [|[k' v'] m IH]; simpl; auto.
  intros Hnd. inversion Hnd; subst.
  destruct (String.eqb k' k) eqn:E; simpl.
  - apply String.eqb_eq in E. subst. now apply map_get_none.
  - rewrite E. auto.
Qed.

Lemma map_get_delete_other {V} (m : JsMap.t V) k k' :
  k <> k' -> JsMap.get (JsMap.delete m k) k' = JsMap.get m k'.
Proof.
  intros Hne. induction m as [|[k0 v0] m IH]; simpl; auto.
  destruct (String.eqb k0 k) eqn:E; simpl.
  - apply String.eqb_eq in E. subst k0.
    destruct (String.eqb k k') eqn:E'; auto.
    apply String.eqb_eq in E'. contradiction.
  - now rewrite IH.
Qed.

Lemma set_has_true (s : JsSet.t) x : JsSet.has s x = true <-> In x s.
Proof.
  unfold JsSet.has. rewrite existsb_exists. split.
  - intros [y [Hy E]]. apply String.eqb_eq in E. now subst.
  - intros H. exists x. split; auto. apply String.eqb_refl.
Qed.

Lemma set_has_false (s : JsSet.t) x : JsSet.has s x = false <-> ~ In x s.
Proof.
  rewrite <- set_has_true. destruct (JsSet.has s x); intuition congruence.
Qed.

Lemma set_add_iff (s : JsSet.t) x y :
  In y (JsSet.add s x) <-> In y s \/ y = x.
Proof.
  unfold JsSet.add. destruct (JsSet.has s x) eqn:E.
  - apply set_has_true in E. split; auto. intros [H| ->]; auto.
  - rewrite in_app_iff. simpl. intuition.
Qed.

Lemma set_add_nodup (s : JsSet.t) x : NoDup s -> NoDup (JsSet.add s x).
Proof.
  unfold JsSet.add. intros H. destruct (JsSet.has s x) eqn:E; auto.
  apply set_has_false in E. apply NoDup_app; auto.
  - constructor; auto. constructor.
  - intros y Hy [<-|Hf]; [contradiction|destruct Hf].
Qed.

Lemma set_delete_add_new (s : JsSet.t) x :
  ~ In x s -> JsSet.delete (JsSet.add s x) x = s.
Proof.
  intros H. unfold JsSet.add.
  apply set_has_false in H as E. rewrite E.
  induction s as [|y s IH]; simpl.
  - now rewrite String.eqb_refl.
  - destruct (String.eqb y x) eqn:E'.
    + apply String.eqb_eq in E'. subst. simpl in H. tauto.
    + f_equal. apply IH; simpl in H; [tauto|].
      apply set_has_false. tauto.
Qed.

Lemma set_delete_incl (s : JsSet.t) x y :
  In y (JsSet.delete s x) -> In y s.
Proof.
  induction s as [|z s IH]; simpl; auto.
  destruct (String.eqb z x); simpl; intuition.
Qed.

Lemma set_delete_nodup (s : JsSet.t) x : NoDup s -> NoDup (JsSet.delete s x).
Proof.
  induction s as [|z s IH]; simpl; auto.
  intros H. inversion H; subst.
  destruct (String.eqb z x); auto.
  constructor; auto. intros Hin. apply H2. eapply set_delete_incl; eauto.
Qed.

(** ** The topological scheduler *)

Lemma getOrZero_set deg k v x :
  getOrZero (JsMap.set deg k v) x
  = if string_dec k x then v else getOrZero deg x.
Proof.
  unfold getOrZero. destruct (string_dec k x) as [->|Hne].
  - now rewrite map_get_set_same.
  - now rewrite map_get_set_other.
Qed.

Lemma edgeCount_notin g j d :
  ~ In j (JsMap.keys g) -> edgeCount g j d = 0.
Proof.
  induction g as [|[j' ds] g IH]; simpl; auto.
  intros H. destruct (string_dec j' j); [tauto|]. apply IH. tauto.
Qed.

Lemma edgeCount_get g j d ds :
  uniqueKeys g -> JsMap.get g j = Some ds ->
  edgeCount g j d = count_occ string_dec ds d.
Proof.
  unfold uniqueKeys. induction g as [|[j' ds'] g IH]; simpl; [discriminate|].
  intros Hnd. inversion Hnd; subst.
  destruct (string_dec j' j) as [->|Hne].
  - rewrite String.eqb_refl. intros [= ->].
    rewrite edgeCount_notin; auto.
  - destruct (String.eqb j' j) eqn:E.
    + apply String.eqb_eq in E. contradiction.
    + intros. simpl. auto.
Qed.

Lemma depCount_notin g j : ~ In j (JsMap.keys g) -> depCount g j = 0.
Proof.
  induction g as [|[j' ds] g IH]; simpl; auto.
  intros H. destruct (string_dec j' j); [tauto|]. apply IH. tauto.
Qed.

Lemma depCount_get g j ds :
  uniqueKeys g -> JsMap.get g j = Some ds -> depCount g j = length ds.
Proof.
  unfold uniqueKeys. induction g as [|[j' ds'] g IH]; simpl; [discriminate|].
  intros Hnd. inversion Hnd; subst.
  destruct (string_dec j' j) as [->|Hne].
  - rewrite String.eqb_refl. intros [= ->].
    rewrite depCount_notin; auto.
  - destruct (String.eqb j' j) eqn:E.
    + apply String.eqb_eq in E. contradiction.
    + intros. simpl. auto.
Qed.

Lemma pushDependent_get adj d j x :
  JsMap.get (pushDependent adj d j) x
  = if string_dec d x
    then option_map (fun l => l ++ [j]) (JsMap.get adj x)
    else JsMap.get adj x.
Proof.
  unfold pushDependent. destruct (string_dec d x) as [->|Hne].
  - destruct (JsMap.get adj x) eqn:E; simpl.
    + now rewrite map_get_set_same.
    + exact E.
  - destruct (JsMap.get adj d); auto. now apply map_get_set_other.
Qed.

Lemma addEdges_adjacency j ds : forall adj deg d l,
  JsMap.get adj d = Some l ->
  exists l',
    JsMap.get (fst (fold_left (addEdge j) ds (adj, deg))) d = Some l'
    /\ forall x, count_occ string_dec l' x
                 = count_occ string_dec l x
                   + (if string_dec j x then count_occ string_dec ds d else 0).
Proof.
  induction ds as [|d0 ds IH]; intros adj deg d l Hl; simpl.
  - exists l. split; auto. intros x. destruct (string_dec j x); lia.
  - unfold addEdge at 2. simpl.
    destruct (string_dec d0 d) as [->|Hne].
    + destruct (IH (pushDependent adj d j)
                   (JsMap.set deg j (getOrZero deg j + 1)%Z) d (l ++ [j]))
        as [l' [Hl' Hc]].
      { rewrite pushDependent_get. destruct (string_dec d d); [|tauto].
        now rewrite Hl. }
      exists l'. split; auto. intros x. rewrite Hc, count_occ_app. simpl.
      destruct (string_dec j x); lia.
    + destruct (IH (pushDependent adj d0 j)
                   (JsMap.set deg j (getOrZero deg j + 1)%Z) d l)
        as [l' [Hl' Hc]].
      { rewrite pushDependent_get. destruct (string_dec d0 d); tauto. }
      exists l'. split; auto.
Qed.

Lemma addEdges_degree j ds : forall adj deg x,
  getOrZero (snd (fold_left (addEdge j) ds (adj, deg))) x
  = (getOrZero deg x
     + (if string_dec j x then Z.of_nat (length ds) else 0))%Z.
Proof.
  induction ds as [|d0 ds IH]; intros adj deg x; cbn [fold_left].
  - cbn. destruct (string_dec j x); lia.
  - unfold addEdge at 2. cbn [fst snd length].
    rewrite IH, getOrZero_set, Nat2Z.inj_succ.
    destruct (string_dec j x); [subst|]; lia.
Qed.

Lemma addEdges_keys j ds : forall adj deg,
  In j (JsMap.keys deg) ->
  JsMap.keys (snd (fold_left (addEdge j) ds (adj, deg))) = JsMap.keys deg.
Proof.
  induction ds as [|d0 ds IH]; intros adj deg Hin; simpl; auto.
  unfold addEdge at 2. cbn [fst snd]. rewrite IH.
  - apply map_keys_set_in; auto.
  - rewrite map_keys_set_in; auto.
Qed.

Lemma build_adjacency entries : forall adj deg d l,
  JsMap.get adj d = Some l ->
  exists l',
    JsMap.get (fst (fold_left addJobEdges entries (adj, deg))) d = Some l'
    /\ forall x, count_occ string_dec l' x
                 = count_occ string_dec l x + edgeCount entries x d.
Proof.
  induction entries as [|[j ds] entries IH]; intros adj deg d l Hl; simpl.
  - exists l. split; auto.
  - unfold addJobEdges at 2. simpl.
    destruct (addEdges_adjacency j ds adj deg d l Hl) as [l1 [Hl1 Hc1]].
    destruct (fold_left (addEdge j) ds (adj, deg)) as [adj1 deg1] eqn:E.
    simpl in Hl1.
    destruct (IH adj1 deg1 d l1 Hl1) as [l' [Hl' Hc]].
    exists l'. split; auto. intros x. rewrite Hc, Hc1. lia.
Qed.

Lemma build_degree entries : forall adj deg x,
  getOrZero (snd (fold_left addJobEdges entries (adj, deg))) x
  = (getOrZero deg x + Z.of_nat (depCount entries x))%Z.
Proof.
  induction entries as [|[j ds] entries IH]; intros adj deg x; simpl.
  - lia.
  - unfold addJobEdges at 2. simpl.
    pose proof (addEdges_degree j ds adj deg x) as H1.
    destruct (fold_left (addEdge j) ds (adj, deg)) as [adj1 deg1] eqn:E.
    simpl in H1. rewrite IH, H1.
    destruct (string_dec j x); lia.
Qed.

Lemma build_keys entries : forall adj deg,
  (forall j, In j (JsMap.keys entries) -> In j (JsMap.keys deg)) ->
  JsMap.keys (snd (fold_left addJobEdges entries (adj, deg)))
  = JsMap.keys deg.
Proof.
  induction entries as [|[j ds] entries IH]; intros adj deg Hin; simpl; auto.
  unfold addJobEdges at 2. simpl.
  pose proof (addEdges_keys j ds adj deg) as H1.
  destruct (fold_left (addEdge j) ds (adj, deg)) as [adj1 deg1] eqn:E.
  simpl in H1. rewrite IH.
  - apply H1. apply Hin. simpl. auto.
  - intros j' Hj'. rewrite H1; [|apply Hin; simpl; auto].
    apply Hin. simpl. auto.
Qed.

Lemma initDegrees_keys_acc ks : forall acc : JsMap.t Z,
  NoDup (JsMap.keys acc ++ ks) ->
  JsMap.keys (fold_left (fun m k => JsMap.set m k 0%Z) ks acc)
  = JsMap.keys acc ++ ks.
Proof.
  induction ks as [|k ks IH]; intros acc Hnd; simpl.
  - now rewrite app_nil_r.
  - assert (Hk : ~ In k (JsMap.keys acc)).
    { apply NoDup_remove_2 in Hnd. intros H. apply Hnd.
      apply in_or_app. auto. }
    rewrite IH; rewrite map_keys_set_new by auto.
    + now rewrite <- app_assoc.
    + rewrite <- app_assoc. exact Hnd.
Qed.

Lemma initDegrees_keys g :
  uniqueKeys g -> JsMap.keys (initDegrees g) = JsMap.keys g.
Proof.
  intros H. unfold initDegrees. now rewrite initDegrees_keys_acc.
Qed.

Lemma initDegrees_zero_acc ks : forall acc : JsMap.t Z,
  (forall x, getOrZero acc x = 0%Z) ->
  forall x, getOrZero (fold_left (fun m k => JsMap.set m k 0%Z) ks acc) x
            = 0%Z.
Proof.
  induction ks as [|k ks IH]; intros acc H x; simpl; auto.
  apply IH. intros y. rewrite getOrZero_set.
  destruct (string_dec k y); auto.
Qed.

Lemma initAdjacency_get_acc ks : forall (acc : JsMap.t (list string)) d,
  (forall x l, JsMap.get acc x = Some l -> l = []) ->
  In d ks \/ In d (JsMap.keys acc) ->
  JsMap.get (fold_left (fun m k => JsMap.set m k []) ks acc) d = Some [].
Proof.
  induction ks as [|k ks IH]; intros acc d Hacc Hin; simpl.
  - destruct Hin as [[]|Hin].
    apply map_in_keys_get in Hin as [l Hl].
    rewrite Hl. f_equal. eauto.
  - apply IH.
    + intros x l. destruct (string_dec k x) as [->|Hne].
      * rewrite map_get_set_same. congruence.
      * rewrite map_get_set_other by auto. apply Hacc.
    + rewrite map_keys_set_iff. simpl in Hin.
      destruct Hin as [[->|H]|H]; auto.
Qed.

Lemma initAdjacency_get g d :
  In d (JsMap.keys g) -> JsMap.get (initAdjacency g) d = Some [].
Proof.
  intros H. apply initAdjacency_get_acc; auto. simpl. discriminate.
Qed.

Lemma relax_degree l : forall deg q x,
  getOrZero (fst (relax l deg q)) x
  = (getOrZero deg x - Z.of_nat (count_occ string_dec l x))%Z.
Proof.
  induction l as [|y l IH]; intros deg q x; cbn [relax fst count_occ].
  - lia.
  - rewrite IH, getOrZero_set.
    destruct (string_dec y x) as [->|Hne]; lia.
Qed.

Lemma relax_queue l : forall deg q,
  exists pushed,
    snd (relax l deg q) = q ++ pushed
    /\ NoDup pushed
    /\ forall x, In x pushed
                 <-> (1 <= getOrZero deg x
                      <= Z.of_nat (count_occ string_dec l x))%Z.
Proof.
  induction l as [|y l IH]; intros deg q; cbn [relax snd].
  - exists []. rewrite app_nil_r. repeat split; try constructor.
    + simpl in H. lia.
    + simpl in H. lia.
    + simpl. intros. lia.
  - set (newDegree := (getOrZero deg y - 1)%Z).
    set (deg' := JsMap.set deg y newDegree).
    destruct (IH deg' (if Z.eqb newDegree 0 then q ++ [y] else q))
      as [pushed [Hq [Hnd Hin]]].
    assert (Hdeg' : forall x, getOrZero deg' x
                     = if string_dec y x then newDegree else getOrZero deg x).
    { intros x. unfold deg'. apply getOrZero_set. }
    destruct (Z.eqb newDegree 0) eqn:E.
    + apply Z.eqb_eq in E.
      exists (y :: pushed). split; [|split].
      * rewrite Hq, <- app_assoc. reflexivity.
      * constructor; auto. rewrite Hin, Hdeg'.
        destruct (string_dec y y); [|tauto]. lia.
      * intros x. simpl. rewrite Hin, Hdeg'.
        destruct (string_dec y x) as [->|Hne].
        -- unfold newDegree in *. split; [intros [_|H]|intros H]; try lia.
           left; reflexivity.
        -- split; [intros [H|H]|intros H]; try tauto.
    + apply Z.eqb_neq in E.
      exists pushed. split; [|split]; auto.
      intros x. rewrite Hin, Hdeg'. cbn [count_occ].
      destruct (string_dec y x) as [->|Hne]; unfold newDegree in *; lia.
Qed.

Lemma pending_nil ds : pending ds [] = length ds.
Proof.
  unfold pending. induction ds; simpl; auto.
Qed.

Lemma pending_zero ds result :
  pending ds result = 0 <-> forall d, In d ds -> In d result.
Proof.
  unfold pending. induction ds as [|d ds IH]; simpl.
  - split; auto. intros _ d [].
  - destruct (JsSet.has result d) eqn:E; simpl.
    + apply set_has_true in E. rewrite IH. split.
      * intros H x [<-|Hx]; auto.
      * intros H x Hx. auto.
    + apply set_has_false in E. split; [discriminate|].
      intros H. exfalso. apply E. auto.
Qed.

Lemma pending_snoc ds result cur :
  ~ In cur result ->
  pending ds (result ++ [cur]) + count_occ string_dec ds cur
  = pending ds result.
Proof.
  intros Hcur. unfold pending. induction ds as [|d ds IH]; simpl; auto.
  destruct (string_dec d cur) as [->|Hne].
  - assert (E1 : JsSet.has (result ++ [cur]) cur = true).
    { apply set_has_true. apply in_or_app. simpl. auto. }
    assert (E2 : JsSet.has result cur = false) by now apply set_has_false.
    rewrite E1, E2. simpl. lia.
  - assert (E : JsSet.has (result ++ [cur]) d = JsSet.has result d).
    { destruct (JsSet.has result d) eqn:E'.
      - apply set_has_true. apply set_has_true in E'. apply in_or_app. auto.
      - apply set_has_false. apply set_has_false in E'.
        rewrite in_app_iff. simpl. intros [H|[H|[]]]; auto. }
    rewrite E. destruct (JsSet.has result d); simpl; lia.
Qed.

Lemma filter_unique {V} (keep : string * V -> bool) (mp : JsMap.t V) :
  uniqueKeys mp -> uniqueKeys (filter keep mp).
Proof.
  unfold uniqueKeys, JsMap.keys.
  induction mp as [|[k v] mp IH]; intros Hu; [exact Hu|].
  cbn [filter]. inversion Hu as [|k0 ks Hk Hrest]; subst.
  destruct (keep (k, v)); [|now apply IH].
  cbn [map fst]. constructor; [|now apply IH].
  intros Hin. apply Hk. cbn [fst].
  apply in_map_iff in Hin as [kv [Hkv Hin]].
  apply filter_In in Hin as [Hin _]. apply in_map_iff. eauto.
Qed.

Lemma seedQueue_nodup deg : uniqueKeys deg -> NoDup (seedQueue deg).
Proof.
  intros H. unfold seedQueue.
  exact (filter_unique (fun kv => Z.eqb (snd kv) 0) deg H).
Qed.

Lemma seedQueue_in deg x :
  uniqueKeys deg ->
  In x (seedQueue deg) <-> JsMap.get deg x = Some 0%Z.
Proof.
  intros Hu. unfold seedQueue. rewrite in_map_iff. split.
  - intros [[k v] [Hk Hin]]. simpl in Hk. subst k.
    apply filter_In in Hin as [Hin Hv]. simpl in Hv.
    apply Z.eqb_eq in Hv. subst v. now apply map_in_get.
  - intros H. exists (x, 0%Z). split; auto.
    apply filter_In. split; auto. now apply map_get_in.
Qed.

Lemma buildGraph_adjacency g : adjacencyOk g (fst (buildGraph g)).
Proof.
  intros d Hd. unfold buildGraph.
  destruct (build_adjacency g (initAdjacency g) (initDegrees g) d []
              (initAdjacency_get g d Hd)) as [l [Hl Hc]].
  exists l. split; auto.
Qed.

Lemma buildGraph_keys g :
  uniqueKeys g -> JsMap.keys (snd (buildGraph g)) = JsMap.keys g.
Proof.
  intros Hu. unfold buildGraph. rewrite build_keys.
  - now apply initDegrees_keys.
  - intros j Hj. now rewrite initDegrees_keys.
Qed.

Lemma buildGraph_degree g j ds :
  uniqueKeys g -> JsMap.get g j = Some ds ->
  JsMap.get (snd (buildGraph g)) j = Some (Z.of_nat (length ds)).
Proof.
  intros Hu Hj.
  assert (Hin : In j (JsMap.keys (snd (buildGraph g)))).
  { rewrite buildGraph_keys by auto. eapply map_get_in_keys; eauto. }
  apply map_in_keys_get in Hin as [v Hv]. rewrite Hv. f_equal.
  assert (H : getOrZero (snd (buildGraph g)) j = v).
  { unfold getOrZero. now rewrite Hv. }
  rewrite <- H. unfold buildGraph. rewrite build_degree.
  unfold initDegrees. rewrite initDegrees_zero_acc by reflexivity.
  now rewrite (depCount_get g j ds).
Qed.

Lemma kahn_initial g :
  uniqueKeys g ->
  KahnInv g (mkKahn (snd (buildGraph g)) (seedQueue (snd (buildGraph g))) []).
Proof.
  intros Hu.
  assert (Hud : uniqueKeys (snd (buildGraph g))).
  { unfold uniqueKeys. now rewrite buildGraph_keys. }
  constructor; cbn [k_result k_queue k_inDegree app].
  - now apply seedQueue_nodup.
  - intros x Hx. apply seedQueue_in in Hx; auto.
    apply map_get_in_keys in Hx. now rewrite buildGraph_keys in Hx.
  - intros j ds Hj. unfold getOrZero.
    rewrite (buildGraph_degree g j ds) by auto. now rewrite pending_nil.
  - intros j ds Hj. rewrite seedQueue_in by auto.
    rewrite (buildGraph_degree g j ds) by auto. rewrite pending_nil.
    split; [intros [= H]|intros ->]; [lia|reflexivity].
  - intros i j ds d Hi. destruct i; discriminate.
Qed.

Lemma count_pos_in_keys g j d :
  0 < edgeCount g j d -> In j (JsMap.keys g).
Proof.
  intros H. destruct (in_dec string_dec j (JsMap.keys g)) as [Hin|Hin]; auto.
  rewrite edgeCount_notin in H by auto. lia.
Qed.

Lemma kahn_step g adjList st cur rest :
  uniqueKeys g -> adjacencyOk g adjList -> KahnInv g st ->
  k_queue st = cur :: rest ->
  KahnInv g (kahnStep adjList cur rest st).
Proof.
  intros Hu Hadj [Hnd Hkeys Hdeg Hready Hord] Hq.
  rewrite Hq in *.
  assert (Hcur : In cur (JsMap.keys g)).
  { apply Hkeys. apply in_or_app. simpl. auto. }
  assert (Hfresh : ~ In cur (k_result st)).
  { intros H. apply NoDup_remove_2 in Hnd. apply Hnd.
    apply in_or_app. auto. }
  destruct (Hadj cur Hcur) as [l [Hl Hcount]].
  unfold kahnStep. rewrite Hl.
  pose proof (relax_degree l (k_inDegree st) rest) as Hrd.
  destruct (relax_queue l (k_inDegree st) rest) as [pushed [Hpq [Hpnd Hpin]]].
  destruct (relax l (k_inDegree st) rest) as [deg' q'] eqn:Er.
  cbn [fst snd] in Hrd, Hpq. subst q'.
  assert (Hcnt : forall j ds, JsMap.get g j = Some ds ->
            count_occ string_dec l j = count_occ string_dec ds cur).
  { intros j ds Hj. rewrite Hcount. now apply edgeCount_get. }
  assert (Hpushed : forall x, In x pushed ->
            exists ds, JsMap.get g x = Some ds
                       /\ 1 <= pending ds (k_result st)
                       /\ pending ds (k_result st)
                          <= count_occ string_dec ds cur).
  { intros x Hx. apply Hpin in Hx.
    assert (Hk : In x (JsMap.keys g)).
    { apply (count_pos_in_keys g x cur). rewrite <- Hcount. lia. }
    apply map_in_keys_get in Hk as [ds Hds]. exists ds. split; auto.
    rewrite (Hdeg x ds Hds), (Hcnt x ds Hds) in Hx. lia. }
  constructor; cbn [k_result k_queue k_inDegree].
  - rewrite app_assoc. apply NoDup_app; auto.
    + rewrite <- app_assoc. exact Hnd.
    + intros x Hx Hp. rewrite <- app_assoc in Hx. simpl in Hx.
      destruct (Hpushed x Hp) as [ds [Hds [H1 _]]].
      apply (Hready x ds Hds) in Hx. lia.
  - intros x Hx. rewrite app_assoc, in_app_iff in Hx.
    destruct Hx as [Hx|Hx].
    + apply Hkeys. now rewrite <- app_assoc in Hx.
    + destruct (Hpushed x Hx) as [ds [Hds _]].
      eapply map_get_in_keys; eauto.
  - intros j ds Hj. rewrite Hrd, (Hdeg j ds Hj), (Hcnt j ds Hj).
    pose proof (pending_snoc ds (k_result st) cur Hfresh). lia.
  - intros j ds Hj.
    pose proof (pending_snoc ds (k_result st) cur Hfresh) as Hps.
    rewrite app_assoc, in_app_iff, <- app_assoc. simpl. split.
    + intros [H|H].
      * apply (Hready j ds Hj) in H. lia.
      * destruct (Hpushed j H) as [ds' [Hds' [H1 H2]]].
        assert (ds' = ds) by congruence. subst ds'. lia.
    + intros H0.
      destruct (Nat.eq_dec (pending ds (k_result st)) 0) as [Hz|Hnz].
      * left. now apply (Hready j ds Hj).
      * right. apply Hpin. rewrite (Hdeg j ds Hj), (Hcnt j ds Hj). lia.
  - intros i j ds d Hi Hj Hd.
    destruct (Nat.lt_ge_cases i (length (k_result st))) as [Hlt|Hge].
    + rewrite nth_error_app1 in Hi by auto.
      destruct (Hord i j ds d Hi Hj Hd) as [k [Hk1 Hk2]].
      exists k. split; auto. rewrite nth_error_app1 by lia. exact Hk2.
    + rewrite nth_error_app2 in Hi by auto.
      destruct (i - length (k_result st)) as [|n] eqn:En.
      * simpl in Hi. injection Hi as <-.
        assert (Hin : In cur (k_result st ++ cur :: rest)).
        { apply in_or_app. simpl. auto. }
        apply (Hready cur ds Hj) in Hin.
        rewrite pending_zero in Hin. apply Hin in Hd.
        apply In_nth_error in Hd as [k Hk].
        assert (k < length (k_result st)).
        { apply nth_error_Some. congruence. }
        exists k. split; [lia|]. rewrite nth_error_app1 by lia. exact Hk.
      * simpl in Hi. destruct n; discriminate.
Qed.

Lemma kahn_bound g st :
  KahnInv g st -> length (k_result st) + length (k_queue st) <= length g.
Proof.
  intros [Hnd Hkeys _ _ _].
  rewrite <- length_app.
  replace (length g) with (length (JsMap.keys g))
    by (unfold JsMap.keys; apply length_map).
  apply NoDup_incl_length; auto.
Qed.

Lemma kahnLoop_inv g adjList :
  uniqueKeys g -> adjacencyOk g adjList ->
  forall fuel st,
    KahnInv g st -> length g <= fuel + length (k_result st) ->
    KahnInv g (kahnLoop fuel adjList st)
    /\ k_queue (kahnLoop fuel adjList st) = [].
Proof.
  intros Hu Hadj. induction fuel as [|fuel IH]; intros st Hinv Hfuel.
  - simpl. split; auto.
    pose proof (kahn_bound g st Hinv).
    destruct (k_queue st); auto. simpl in *. lia.
  - simpl. destruct (k_queue st) as [|cur rest] eqn:Hq.
    + split; auto.
    + apply IH.
      * eapply kahn_step; eauto.
      * unfold kahnStep.
        destruct (relax _ _ _). simpl. rewrite length_app. simpl. lia.
Qed.

Lemma kahnRun_inv g :
  uniqueKeys g -> KahnInv g (kahnRun g) /\ k_queue (kahnRun g) = [].
Proof.
  intros Hu. unfold kahnRun.
  pose proof (buildGraph_adjacency g) as Hadj.
  pose proof (kahn_initial g Hu) as Hinit.
  destruct (buildGraph g) as [adjList inDegree]. cbn [fst snd] in *.
  apply kahnLoop_inv; auto. simpl. lia.
Qed.

(** The loop of [resolveDependencies] leaves the queue empty: the bound
    on its iterations never cuts it short. *)
Lemma kahnRun_queue_empty g : uniqueKeys g -> k_queue (kahnRun g) = [].
Proof.
  intros Hu. now apply kahnRun_inv.
Qed.

Lemma resolve_nodup g : uniqueKeys g -> NoDup (resolveDependencies g).
Proof.
  intros Hu. destruct (kahnRun_inv g Hu) as [[Hnd _ _ _ _] Hq].
  rewrite Hq, app_nil_r in Hnd. exact Hnd.
Qed.

Lemma resolve_registered g x :
  uniqueKeys g -> In x (resolveDependencies g) -> In x (JsMap.keys g).
Proof.
  intros Hu Hx. destruct (kahnRun_inv g Hu) as [[_ Hk _ _ _] Hq].
  apply Hk. rewrite Hq, app_nil_r. exact Hx.
Qed.

Lemma resolve_ready g j ds :
  uniqueKeys g -> JsMap.get g j = Some ds ->
  In j (resolveDependencies g)
  <-> forall d, In d ds -> In d (resolveDependencies g).
Proof.
  intros Hu Hj. destruct (kahnRun_inv g Hu) as [[_ _ _ Hr _] Hq].
  specialize (Hr j ds Hj). rewrite Hq, app_nil_r in Hr.
  rewrite Hr. apply pending_zero.
Qed.

Lemma resolve_dependenciesFirst g :
  uniqueKeys g -> dependenciesFirst g (resolveDependencies g).
Proof.
  intros Hu. now destruct (kahnRun_inv g Hu) as [[_ _ _ _ Ho] _].
Qed.

(** ** Cycles in a finite graph *)

Lemma walk_reach R x l y :
  walk R x l -> In y l -> clos_trans string R x y.
Proof.
  revert x. induction l as [|z l IH]; intros x Hw Hin; [destruct Hin|].
  destruct Hw as [Hxz Hw]. destruct Hin as [->|Hin].
  - now apply t_step.
  - eapply t_trans; [apply t_step; eauto|]. now apply IH.
Qed.

Lemma walk_repeat_cycle R l : forall x,
  walk R x l -> ~ NoDup (x :: l) -> exists c, clos_trans string R c c.
Proof.
  induction l as [|y l IH]; intros x Hw Hnd.
  - exfalso. apply Hnd. constructor; [intros []|constructor].
  - destruct (in_dec string_dec x (y :: l)) as [Hin|Hin].
    + exists x. eapply walk_reach; eauto.
    + destruct Hw as [_ Hw]. apply (IH y Hw).
      intros H. apply Hnd. now constructor.
Qed.

Lemma walk_extend R (S : list string) :
  (forall x, In x S -> exists y, R x y /\ In y S) ->
  forall n x, In x S ->
    exists l, length l = n /\ walk R x l /\ incl l S.
Proof.
  intros Hstep. induction n as [|n IH]; intros x Hx.
  - exists []. repeat split. intros y [].
  - destruct (Hstep x Hx) as [y [Hxy Hy]].
    destruct (IH y Hy) as [l [Hlen [Hw Hincl]]].
    exists (y :: l). simpl. repeat split; auto.
    intros z [<-|Hz]; auto.
Qed.

(** A non-empty finite set each of whose members has a successor in the
    set holds a cycle. *)
Lemma stuck_set_cycle R (S : list string) x :
  In x S ->
  (forall x, In x S -> exists y, R x y /\ In y S) ->
  exists c, clos_trans string R c c.
Proof.
  intros Hx Hstep.
  destruct (walk_extend R S Hstep (length S) x Hx) as [l [Hlen [Hw Hincl]]].
  apply (walk_repeat_cycle R l x Hw).
  intros Hnd.
  assert (Hle : length (x :: l) <= length S).
  { apply NoDup_incl_length; auto. intros z [<-|Hz]; auto. }
  simpl in Hle. lia.
Qed.

Lemma not_all_in_exists (ds result : list string) :
  ~ (forall d, In d ds -> In d result) ->
  exists d, In d ds /\ ~ In d result.
Proof.
  induction ds as [|d ds IH]; intros Hn.
  - exfalso. apply Hn. intros d [].
  - destruct (in_dec string_dec d result) as [Hd|Hd].
    + destruct IH as [d' [H1 H2]].
      * intros H. apply Hn. intros y [<-|Hy]; auto.
      * exists d'. simpl. auto.
    + exists d. simpl. auto.
Qed.

(** With every dependency registered and no cycle, every registered job
    is in the order. *)
Lemma resolve_complete g j :
  uniqueKeys g -> dependenciesRegistered g -> acyclic g ->
  In j (JsMap.keys g) -> In j (resolveDependencies g).
Proof.
  intros Hu Hreg Hacyc Hj.
  destruct (in_dec string_dec j (resolveDependencies g)) as [Hin|Hout]; auto.
  exfalso.
  set (S := filter (fun x => negb (JsSet.has (resolveDependencies g) x))
                   (JsMap.keys g)).
  assert (HS : forall x, In x S
                <-> In x (JsMap.keys g) /\ ~ In x (resolveDependencies g)).
  { intros x. unfold S. rewrite filter_In, negb_true_iff, set_has_false.
    reflexivity. }
  destruct (stuck_set_cycle (dependsOn g) S j) as [c Hc].
  - apply HS. auto.
  - intros x Hx. apply HS in Hx as [Hk Hn].
    apply map_in_keys_get in Hk as [ds Hds].
    assert (Hex : exists d, In d ds /\ ~ In d (resolveDependencies g)).
    { apply not_all_in_exists.
      now rewrite <- (resolve_ready g x ds Hu Hds). }
    destruct Hex as [d [Hd Hdn]].
    assert (Hdep : dependsOn g x d) by (exists ds; auto).
    exists d. split; auto. apply HS. split; auto.
    eapply Hreg; eauto.
  - exact (Hacyc c Hc).
Qed.

(** ** The dependency graph validator *)

Lemma filter_length_le {A} (p q : A -> bool) (l : list A) :
  (forall a, q a = true -> p a = true) ->
  length (filter q l) <= length (filter p l).
Proof.
  intros H. induction l as [|a l IH]; simpl; auto.
  destruct (q a) eqn:Eq.
  - rewrite (H a Eq). simpl. lia.
  - destruct (p a); simpl; lia.
Qed.

Lemma filter_length_lt {A} (p q : A -> bool) (l : list A) x :
  (forall a, q a = true -> p a = true) ->
  In x l -> p x = true -> q x = false ->
  length (filter q l) < length (filter p l).
Proof.
  intros H. induction l as [|a l IH]; simpl; [tauto|].
  intros [->|Hin] Hp Hq.
  - rewrite Hp, Hq. simpl.
    pose proof (filter_length_le p q l H). lia.
  - specialize (IH Hin Hp Hq). destruct (q a) eqn:Eq.
    + rewrite (H a Eq). simpl. lia.
    + destruct (p a); simpl; lia.
Qed.

Lemma unvisited_mono g st st' :
  (forall u, In u (visited st) -> In u (visited st')) ->
  unvisited g st' <= unvisited g st.
Proof.
  intros H. unfold unvisited. apply filter_length_le.
  intros a. rewrite !negb_true_iff, !set_has_false. auto.
Qed.

Lemma unvisited_add g st x stack :
  In x (graphNames g) -> ~ In x (visited st) ->
  unvisited g (mkDfs (JsSet.add (visited st) x) stack) < unvisited g st.
Proof.
  intros Hx Hv. unfold unvisited. cbn [visited].
  apply (filter_length_lt _ _ _ x); auto.
  - intros a. rewrite !negb_true_iff, !set_has_false, set_add_iff. tauto.
  - rewrite negb_true_iff, set_has_false. exact Hv.
  - rewrite negb_false_iff, set_has_true, set_add_iff. auto.
Qed.

Lemma dependency_in_names g x ds d :
  JsMap.get g x = Some ds -> In d ds -> In d (graphNames g).
Proof.
  intros Hx Hd. unfold graphNames. apply in_or_app. right.
  apply in_concat. exists ds. split; auto.
  apply map_get_in in Hx. unfold JsMap.values.
  apply in_map_iff. exists (x, ds). auto.
Qed.

Lemma key_in_names g x : In x (JsMap.keys g) -> In x (graphNames g).
Proof.
  intros H. unfold graphNames. apply in_or_app. auto.
Qed.

Lemma clos_trans_refl_trans (R : string -> string -> Prop) x y :
  clos_trans string R x y -> clos_refl_trans string R x y.
Proof.
  induction 1.
  - now apply rt_step.
  - eapply rt_trans; eauto.
Qed.

Lemma clos_trans_first (R : string -> string -> Prop) x y :
  clos_trans string R x y ->
  exists v, R x v /\ clos_refl_trans string R v y.
Proof.
  induction 1 as [x y H|x y z H1 IH1 H2 IH2].
  - exists y. split; auto. apply rt_refl.
  - destruct IH1 as [v [Hv Hvy]]. exists v. split; auto.
    eapply rt_trans; eauto. now apply clos_trans_refl_trans.
Qed.

Lemma finished_reach g st u v :
  DfsInv g st -> finished st u ->
  clos_refl_trans string (dependsOn g) u v -> finished st v.
Proof.
  intros Hinv Hu Huv. induction Huv; auto.
  eapply di_closed; eauto.
Qed.

Lemma forEachDependency_ok g bound call :
  searchOk g bound call ->
  forall ds st,
    unvisited g st < bound ->
    (forall d, In d ds -> In d (graphNames g)) ->
    DfsInv g st ->
    (forall d s, In d ds -> In s (recursionStack st) ->
                 clos_trans string (dependsOn g) s d) ->
    exists b st',
      forEachDependency call ds st = Some (b, st')
      /\ (b = true -> cyclic g)
      /\ (b = false ->
          DfsInv g st'
          /\ recursionStack st' = recursionStack st
          /\ (forall u, In u (visited st) -> In u (visited st'))
          /\ forall d, In d ds -> finished st' d).
Proof.
  intros Hcall. induction ds as [|d ds IH]; intros st Hfuel Hnames Hinv Hstack.
  - exists false, st. simpl. split; [reflexivity|]. split; [discriminate|].
    intros _. split; [exact Hinv|]. split; [reflexivity|]. split; [auto|].
    intros d [].
  - simpl.
    destruct (Hcall d st Hfuel (Hnames d (or_introl eq_refl)) Hinv)
      as [b [st1 [Hc [Ht Hf]]]].
    { intros s Hs. apply Hstack; simpl; auto. }
    rewrite Hc. destruct b.
    + exists true, st1. split; [reflexivity|]. split; [auto|discriminate].
    + destruct (Hf eq_refl) as [Hinv1 [Hstk1 [Hvis1 Hfin1]]].
      destruct (IH st1) as [b [st2 [Hc2 [Ht2 Hf2]]]]; auto.
      * pose proof (unvisited_mono g st st1 Hvis1). lia.
      * intros y Hy. apply Hnames. simpl. auto.
      * intros y s Hy Hs. rewrite Hstk1 in Hs. apply Hstack; simpl; auto.
      * exists b, st2. split; auto. split; auto.
        intros Hb. destruct (Hf2 Hb) as [Hinv2 [Hstk2 [Hvis2 Hfin2]]].
        split; [exact Hinv2|]. split; [congruence|]. split; [auto|].
        intros y [<-|Hy]; [|now apply Hfin2].
        split.
        -- apply Hvis2. apply Hfin1.
        -- rewrite Hstk2. apply Hfin1.
Qed.

Lemma hasCycle_ok g : forall fuel, searchOk g fuel (hasCycle fuel g).
Proof.
  induction fuel as [|fuel IH]; intros x st Hfuel Hx Hinv Hstack; [lia|].
  cbn [hasCycle].
  destruct (JsSet.has (recursionStack st) x) eqn:Es.
  { apply set_has_true in Es.
    exists true, st. split; [reflexivity|]. split; [|discriminate].
    intros _. exists x. now apply Hstack. }
  apply set_has_false in Es.
  destruct (JsSet.has (visited st) x) eqn:Ev.
  { apply set_has_true in Ev.
    exists false, st. split; [reflexivity|]. split; [discriminate|].
    intros _. split; [exact Hinv|]. split; [reflexivity|]. split; [auto|].
    split; auto. }
  apply set_has_false in Ev.
  set (st1 := mkDfs (JsSet.add (visited st) x)
                    (JsSet.add (recursionStack st) x)).
  set (deps := match JsMap.get g x with Some ds => ds | None => [] end).
  assert (Hdeps : forall d, In d deps <-> dependsOn g x d).
  { intros d. unfold deps, dependsOn. destruct (JsMap.get g x) as [ds|].
    - split; [intros H; exists ds; auto|intros [ds' [[= <-] H]]; auto].
    - split; [intros []|intros [ds' [[=] _]]]. }
  assert (Hfin1 : forall u, finished st1 u <-> finished st u).
  { intros u. unfold finished, st1. cbn [visited recursionStack].
    rewrite !set_add_iff. split.
    - intros [[H| ->] Hn]; [split; auto|exfalso; auto].
    - intros [H Hn]. split; auto. intros [H'| ->]; auto. }
  assert (Hinv1 : DfsInv g st1).
  { constructor.
    - apply set_add_nodup. apply Hinv.
    - intros u v Hu Huv. apply Hfin1. apply Hfin1 in Hu.
      eapply di_closed; eauto.
    - intros u Hu. apply Hfin1 in Hu. eapply di_acyclic; eauto. }
  destruct (forEachDependency_ok g fuel (hasCycle fuel g) IH deps st1)
    as [b [st2 [Hc [Ht Hf]]]]; auto.
  { pose proof (unvisited_add g st x (JsSet.add (recursionStack st) x) Hx Ev).
    fold st1 in H. lia. }
  { intros d Hd. apply Hdeps in Hd as [ds [Hds Hd]].
    eapply dependency_in_names; eauto. }
  { intros d s Hd Hs. apply Hdeps in Hd.
    unfold st1 in Hs. cbn [recursionStack] in Hs.
    apply set_add_iff in Hs as [Hs| ->].
    - eapply t_trans; [apply Hstack; eauto|]. now apply t_step.
    - now apply t_step. }
  rewrite Hc. destruct b.
  { exists true, st2. split; [reflexivity|]. split; [auto|discriminate]. }
  destruct (Hf eq_refl) as [Hinv2 [Hstk2 [Hvis2 Hfin2]]].
  assert (Hstk : JsSet.delete (recursionStack st2) x = recursionStack st).
  { rewrite Hstk2. unfold st1. cbn [recursionStack].
    now apply set_delete_add_new. }
  assert (Hx2 : In x (visited st2)).
  { apply Hvis2. unfold st1. cbn [visited]. apply set_add_iff. auto. }
  assert (Hxs2 : In x (recursionStack st2)).
  { rewrite Hstk2. unfold st1. cbn [recursionStack]. apply set_add_iff. auto. }
  set (st3 := mkDfs (visited st2) (JsSet.delete (recursionStack st2) x)).
  assert (Hfin3 : forall u, finished st3 u <-> finished st2 u \/ u = x).
  { intros u. unfold finished, st3. cbn [visited recursionStack].
    rewrite Hstk, Hstk2. unfold st1. cbn [recursionStack].
    rewrite set_add_iff. split.
    - intros [H Hn]. destruct (string_dec u x) as [->|Hne]; auto.
      left. split; auto. intros [H'|H']; auto.
    - intros [[H Hn]| ->]; split; auto. }
  exists false, st3. split; [reflexivity|]. split; [discriminate|].
  intros _. split; [|split; [|split]].
  - constructor.
    + unfold st3. cbn [recursionStack]. rewrite Hstk. apply Hinv.
    + intros u v Hu Huv. apply Hfin3. left. apply Hfin3 in Hu as [Hu| ->].
      * eapply di_closed; eauto.
      * apply Hfin2. now apply Hdeps.
    + intros u Hu Hcyc. apply Hfin3 in Hu as [Hu| ->].
      * eapply di_acyclic; eauto.
      * apply clos_trans_first in Hcyc as [v [Hxv Hvx]].
        assert (Hv : finished st2 v) by (apply Hfin2; now apply Hdeps).
        pose proof (finished_reach g st2 v x Hinv2 Hv Hvx) as [_ Hn].
        contradiction.
  - exact Hstk.
  - intros u Hu. unfold st3. cbn [visited]. apply Hvis2.
    unfold st1. cbn [visited]. apply set_add_iff. auto.
  - apply Hfin3. auto.
Qed.

Lemma detectFromRoots_ok g fuel : forall roots st,
  unvisited g st < fuel ->
  (forall x, In x roots -> In x (JsMap.keys g)) ->
  DfsInv g st -> recursionStack st = [] ->
  exists r,
    detectFromRoots fuel g roots st = Some r
    /\ (forall j, r = Some j -> cyclic g /\ In j roots)
    /\ (r = None ->
        exists st', DfsInv g st' /\ recursionStack st' = []
                    /\ (forall u, In u (visited st) -> In u (visited st'))
                    /\ forall x, In x roots -> finished st' x).
Proof.
  induction roots as [|x roots IH]; intros st Hfuel Hroots Hinv Hstk.
  - exists None. simpl. split; [reflexivity|]. split; [discriminate|].
    intros _. exists st. split; [exact Hinv|]. split; [exact Hstk|].
    split; [auto|]. intros x [].
  - simpl.
    destruct (hasCycle_ok g fuel x st) as [b [st1 [Hc [Ht Hf]]]]; auto.
    { apply key_in_names. apply Hroots. simpl. auto. }
    { rewrite Hstk. intros s []. }
    rewrite Hc. destruct b.
    + exists (Some x). split; [reflexivity|]. split; [|discriminate].
      intros j [= <-]. split; simpl; auto.
    + destruct (Hf eq_refl) as [Hinv1 [Hstk1 [Hvis1 Hfin1]]].
      destruct (IH st1) as [r [Hr [Hsome Hnone]]]; auto.
      * pose proof (unvisited_mono g st st1 Hvis1). lia.
      * intros y Hy. apply Hroots. simpl. auto.
      * congruence.
      * exists r. split; [exact Hr|]. split.
        -- intros j Hj. destruct (Hsome j Hj). split; simpl; auto.
        -- intros Hn. destruct (Hnone Hn) as [st2 [Hinv2 [Hstk2 [Hvis2 Hfin2]]]].
           exists st2. split; [exact Hinv2|]. split; [exact Hstk2|].
           split; [auto|]. intros y [<-|Hy]; [|now apply Hfin2].
           split; [apply Hvis2; apply Hfin1|]. rewrite Hstk2. intros [].
Qed.

Lemma dfs_initial g : DfsInv g (mkDfs [] []).
Proof.
  constructor; simpl.
  - constructor.
  - intros u v [[] _].
  - intros u [[] _].
Qed.

Lemma unvisited_initial g : unvisited g (mkDfs [] []) < dfsFuel g.
Proof.
  unfold dfsFuel, unvisited.
  pose proof (List.filter_length_le
                (fun n => negb (JsSet.has (visited (mkDfs [] [])) n))
                (graphNames g)).
  lia.
Qed.

Lemma detectFromRoots_run g :
  exists r,
    detectFromRoots (dfsFuel g) g (JsMap.keys g) (mkDfs [] []) = Some r
    /\ (forall j, r = Some j -> cyclic g /\ In j (JsMap.keys g))
    /\ (r = None ->
        exists st', DfsInv g st'
                    /\ forall x, In x (JsMap.keys g) -> finished st' x).
Proof.
  destruct (detectFromRoots_ok g (dfsFuel g) (JsMap.keys g) (mkDfs [] []))
    as [r [Hr [Hsome Hnone]]]; auto.
  - apply unvisited_initial.
  - apply dfs_initial.
  - exists r. split; [exact Hr|]. split; [exact Hsome|].
    intros Hn. destruct (Hnone Hn) as [st' [H1 [_ [_ H2]]]]. eauto.
Qed.

(** The fuel of [detectCycle] is enough: the search always comes to an
    end. *)
Lemma detectFromRoots_total g :
  detectFromRoots (dfsFuel g) g (JsMap.keys g) (mkDfs [] []) <> None.
Proof.
  destruct (detectFromRoots_run g) as [r [Hr _]]. congruence.
Qed.

Lemma detectCycle_sound g j :
  detectCycle g = Some j -> cyclic g /\ In j (JsMap.keys g).
Proof.
  unfold detectCycle. destruct (detectFromRoots_run g) as [r [Hr [Hsome _]]].
  rewrite Hr. intros ->. now apply Hsome.
Qed.

Lemma detectCycle_complete g : detectCycle g = None -> acyclic g.
Proof.
  unfold detectCycle. destruct (detectFromRoots_run g) as [r [Hr [_ Hnone]]].
  rewrite Hr. intros ->. destruct (Hnone eq_refl) as [st' [Hinv Hfin]].
  intros c Hc.
  assert (Hk : In c (JsMap.keys g)).
  { apply clos_trans_first in Hc as Hc'. destruct Hc' as [v [[ds [Hds _]] _]].
    eapply map_get_in_keys; eauto. }
  exact (di_acyclic g st' Hinv c (Hfin c Hk) Hc).
Qed.

(** The depth-first search reports a cycle exactly when there is one. *)
Lemma detectCycle_correct g :
  (exists j, detectCycle g = Some j) <-> cyclic g.
Proof.
  split.
  - intros [j Hj]. now apply detectCycle_sound in Hj.
  - intros Hc. destruct (detectCycle g) as [j|] eqn:E; eauto.
    exfalso. destruct Hc as [c Hc]. exact (detectCycle_complete g E c Hc).
Qed.

(** ** The execution engine *)

Section EngineFacts.

Context {World : Type}.
Variable now : World -> Z.

Implicit Types (m : Machine World) (job : Job World).

Lemma jobGraph_get (js : JsMap.t (Job World)) j :
  JsMap.get (jobGraph js) j = option_map (@jobDependencies World) (JsMap.get js j).
Proof.
  induction js as [|[k job] js IH]; simpl; auto.
  destruct (String.eqb k j); auto.
Qed.

Lemma jobGraph_keys (js : JsMap.t (Job World)) :
  JsMap.keys (jobGraph js) = JsMap.keys js.
Proof.
  unfold JsMap.keys, jobGraph. rewrite map_map. reflexivity.
Qed.

Lemma executeJob_found jobName job m :
  JsMap.get (jobs (sched m)) jobName = Some job ->
  executeJob now jobName m
  = (Normal (jobOutcome now jobName job m), afterJob jobName job m).
Proof.
  intros Hj.
  cbv [executeJob bind gets log emit executeJobBody tryCatch callExecute ret
       jobOutcome afterJob].
  cbn [world sched taskHeap trace]. rewrite Hj.
  destruct (execute job (world m)) as [[[]|v] w];
    cbn [world trace sched taskHeap]; rewrite <- !app_assoc; reflexivity.
Qed.

Lemma executeJob_missing jobName m :
  JsMap.get (jobs (sched m)) jobName = None ->
  executeJob now jobName m
  = (Normal (notFoundResult jobName),
     mkMachine (sched m) (taskHeap m) (world m)
       (trace m ++ [Logged Error "Job execution failed"])).
Proof.
  intros Hj. unfold executeJob, bind, gets. cbn [sched]. rewrite Hj.
  reflexivity.
Qed.

Lemma checkDependencies_met deps cs :
  fst (checkDependencies deps cs) = true <-> forall d, In d deps -> In d cs.
Proof.
  induction deps as [|d deps IH]; simpl.
  - split; auto. intros _ d [].
  - destruct (JsSet.has cs d) eqn:E; simpl.
    + apply set_has_true in E. rewrite IH. split.
      * intros H x [<-|Hx]; auto.
      * intros H x Hx. auto.
    + apply set_has_false in E. split; [discriminate|].
      intros H. exfalso. apply E. auto.
Qed.


(** One turn of the loop, for a job that is skipped and for one that runs. *)
Lemma roundLoop_skip jobName job rest rs cs m :
  JsMap.get (jobs (sched m)) jobName = Some job ->
  fst (checkDependencies (jobDependencies job) cs) = false ->
  roundLoop now (jobName :: rest) rs cs m
  = roundLoop now rest
      (rs ++ [skippedResult jobName
                (snd (checkDependencies (jobDependencies job) cs))])
      cs
      (mkMachine (sched m) (taskHeap m) (world m)
         (trace m
          ++ [Logged Warn
                ("Skipping job " ++ jobName ++ ": "
                 ++ snd (checkDependencies (jobDependencies job) cs))%string])).
Proof.
  intros Hj Hc. cbn [roundLoop]. unfold bind at 1. unfold gets at 1.
  cbn [sched]. rewrite Hj.
  destruct (checkDependencies (jobDependencies job) cs) as [met reason].
  cbn [fst snd] in *. subst met. cbn [negb]. reflexivity.
Qed.

Lemma roundLoop_run jobName job rest rs cs m :
  JsMap.get (jobs (sched m)) jobName = Some job ->
  fst (checkDependencies (jobDependencies job) cs) = true ->
  roundLoop now (jobName :: rest) rs cs m
  = roundLoop now rest
      (rs ++ [tagResult jobName (jobOutcome now jobName job m)])
      (markCompleted cs jobName (tagResult jobName (jobOutcome now jobName job m)))
      (afterJob jobName job m).
Proof.
  intros Hj Hc. cbn [roundLoop]. unfold bind at 1. unfold gets at 1.
  cbn [sched]. rewrite Hj.
  destruct (checkDependencies (jobDependencies job) cs) as [met reason].
  cbn [fst snd] in *. subst met. cbn [negb].
  unfold bind at 1. rewrite (executeJob_found jobName job m Hj). reflexivity.
Qed.

Lemma roundLoop_absent jobName rest rs cs m :
  JsMap.get (jobs (sched m)) jobName = None ->
  roundLoop now (jobName :: rest) rs cs m = roundLoop now rest rs cs m.
Proof.
  intros Hj. cbn [roundLoop]. unfold bind at 1. unfold gets at 1.
  cbn [sched]. rewrite Hj. reflexivity.
Qed.

Lemma afterJob_sched jobName job m :
  sched (afterJob jobName job m) = sched m
  /\ taskHeap (afterJob jobName job m) = taskHeap m.
Proof.
  unfold afterJob. destruct (execute job (world m)) as [c w]. auto.
Qed.

Lemma jobOutcome_success jobName job m :
  success (jobOutcome now jobName job m) = true
  <-> exists w, execute job (world m) = (Normal tt, w).
Proof.
  unfold jobOutcome. destruct (execute job (world m)) as [[[]|v] w]; simpl.
  - split; eauto.
  - split; [discriminate|]. intros [w' [=]].
Qed.

End EngineFacts.

Section RoundFacts.

Context {World : Type}.
Variable now : World -> Z.

Implicit Types (m : Machine World) (job : Job World).

Lemma succeededIn_nil x : ~ succeededIn [] x.
Proof.
  intros [r [[] _]].
Qed.

Lemma succeededIn_app rs1 rs2 x :
  succeededIn (rs1 ++ rs2) x <-> succeededIn rs1 x \/ succeededIn rs2 x.
Proof.
  unfold succeededIn. split.
  - intros [r [Hin H]]. apply in_app_or in Hin as [Hin|Hin]; eauto.
  - intros [[r [Hin H]]|[r [Hin H]]]; exists r; split; auto;
      apply in_or_app; auto.
Qed.

Lemma succeededIn_single r x :
  succeededIn [r] x <-> jobName r = Some x /\ success r = true.
Proof.
  unfold succeededIn. split.
  - intros [r' [[<-|[]] H]]. exact H.
  - intros H. exists r. simpl. auto.
Qed.

Lemma roundLoop_total order : forall rs cs m,
  exists rs' cs' m' events,
    roundLoop now order rs cs m = (Normal (rs ++ rs', cs'), m')
    /\ LoopRun order rs cs m rs' cs' m' events.
Proof.
  induction order as [|j order IH]; intros rs cs m.
  - exists [], cs, m, []. split.
    + simpl. unfold ret. now rewrite app_nil_r.
    + constructor.
      * reflexivity.
      * reflexivity.
      * now rewrite app_nil_r.
      * intros x [].
      * intros r [].
      * intros x. split; auto. intros [H|H]; auto.
        now apply succeededIn_nil in H.
      * reflexivity.
  - destruct (JsMap.get (jobs (sched m)) j) as [job|] eqn:Hj.
    + destruct (fst (checkDependencies (jobDependencies job) cs)) eqn:Hc.
      * rewrite (roundLoop_run now j job order rs cs m Hj Hc).
        set (r := tagResult j (jobOutcome now j job m)).
        destruct (IH (rs ++ [r]) (markCompleted cs j r) (afterJob j job m))
          as [rs' [cs' [m' [ev [Heq Hrun]]]]].
        destruct (afterJob_sched j job m) as [Hs Hh].
        exists (r :: rs'), cs', m'.
        exists ([Logged Info ("Executing job: " ++ j)%string; Executed j;
                 match fst (execute job (world m)) with
                 | Normal _ =>
                     Logged Info ("Job completed successfully: " ++ j)%string
                 | Throw _ => Logged Error ("Job failed: " ++ j)%string
                 end] ++ ev).
        split.
        -- rewrite Heq, <- app_assoc. reflexivity.
        -- destruct Hrun as [H1 H2 H3 H4 H5 H6 H7]. constructor.
           ++ congruence.
           ++ congruence.
           ++ rewrite H3. unfold afterJob.
              destruct (execute job (world m)) as [c w]. cbn [trace fst].
              now rewrite <- app_assoc.
           ++ intros x Hx. apply in_app_or in Hx as [Hx|Hx].
              ** simpl in Hx. destruct Hx as [Hx|[Hx|[Hx|[]]]];
                   try discriminate.
                 --- injection Hx as <-. simpl. auto.
                 --- destruct (fst (execute job (world m))); discriminate.
              ** simpl. auto.
           ++ intros r0 [<-|Hr0].
              ** exists j. simpl. auto.
              ** destruct (H5 r0 Hr0) as [x [Hx1 Hx2]]. exists x. simpl. auto.
           ++ intros x. rewrite H6. change (r :: rs') with ([r] ++ rs').
              rewrite succeededIn_app, succeededIn_single.
              unfold markCompleted. destruct (success r) eqn:Es.
              ** rewrite set_add_iff.
                 assert (Hname : jobName r = Some j) by reflexivity.
                 rewrite Hname. split.
                 --- intros [[H| ->]|H]; auto.
                 --- intros [H|[[[= ->] _]|H]]; auto.
              ** split.
                 --- intros [H|H]; auto.
                 --- intros [H|[[_ H]|H]]; auto. discriminate.
           ++ intros Hreg. simpl. f_equal. apply H7.
              rewrite Hs. intros x Hx. apply Hreg. simpl. auto.
      * rewrite (roundLoop_skip now j job order rs cs m Hj Hc).
        set (reason := snd (checkDependencies (jobDependencies job) cs)).
        set (r := skippedResult j reason).
        set (m1 := mkMachine (sched m) (taskHeap m) (world m) _).
        destruct (IH (rs ++ [r]) cs m1) as [rs' [cs' [m' [ev [Heq Hrun]]]]].
        exists (r :: rs'), cs', m'.
        exists ([Logged Warn
                   ("Skipping job " ++ j ++ ": " ++ reason)%string] ++ ev).
        split.
        -- rewrite Heq, <- app_assoc. reflexivity.
        -- destruct Hrun as [H1 H2 H3 H4 H5 H6 H7]. constructor.
           ++ exact H1.
           ++ exact H2.
           ++ rewrite H3. unfold m1. cbn [trace]. now rewrite <- app_assoc.
           ++ intros x Hx. apply in_app_or in Hx as [Hx|Hx].
              ** simpl in Hx. destruct Hx as [Hx|[]]. discriminate.
              ** simpl. auto.
           ++ intros r0 [<-|Hr0].
              ** exists j. simpl. auto.
              ** destruct (H5 r0 Hr0) as [x [Hx1 Hx2]]. exists x. simpl. auto.
           ++ intros x. rewrite H6. change (r :: rs') with ([r] ++ rs').
              rewrite succeededIn_app, succeededIn_single.
              split.
              ** intros [H|H]; auto.
              ** intros [H|[[_ H]|H]]; auto. discriminate.
           ++ intros Hreg. simpl. f_equal. apply H7.
              intros x Hx. apply Hreg. simpl. auto.
    + rewrite (roundLoop_absent now j order rs cs m Hj).
      destruct (IH rs cs m) as [rs' [cs' [m' [ev [Heq Hrun]]]]].
      exists rs', cs', m', ev. split; auto.
      destruct Hrun as [H1 H2 H3 H4 H5 H6 H7].
      constructor; [exact H1|exact H2|exact H3| | |exact H6|].
      * intros x Hx. simpl. auto.
      * intros r Hr. destruct (H5 r Hr) as [x [Hx1 Hx2]]. exists x. simpl. auto.
      * intros Hreg. exfalso.
        apply map_get_none in Hj. apply Hj. apply Hreg. simpl. auto.
Qed.

Lemma roundLoop_app l1 : forall l2 rs cs m,
  roundLoop now (l1 ++ l2) rs cs m
  = match roundLoop now l1 rs cs m with
    | (Normal p, m1) => roundLoop now l2 (fst p) (snd p) m1
    | (Throw v, m1) => (Throw v, m1)
    end.
Proof.
  induction l1 as [|j l1 IH]; intros l2 rs cs m.
  - reflexivity.
  - rewrite <- app_comm_cons.
    destruct (JsMap.get (jobs (sched m)) j) as [job|] eqn:Hj.
    + destruct (fst (checkDependencies (jobDependencies job) cs)) eqn:Hc.
      * rewrite !(roundLoop_run now j job _ rs cs m Hj Hc). apply IH.
      * rewrite !(roundLoop_skip now j job _ rs cs m Hj Hc). apply IH.
    + rewrite !(roundLoop_absent now j _ rs cs m Hj). apply IH.
Qed.

End RoundFacts.

Section RoundTheorems.

Context {World : Type}.
Variable now : World -> Z.

Implicit Types (m : Machine World) (job : Job World).

Lemma round_unfold m :
  isExecuting (sched m) = false ->
  executeJobsWithDependencies now m
  = match roundLoop now (resolveDependencies (jobGraph (jobs (sched m))))
            [] [] (roundStart m) with
    | (Normal p, m1) => (Normal (fst p), roundEnd m1)
    | (Throw v, m1) => (Throw v, roundEnd m1)
    end.
Proof.
  intros Hf.
  cbv [executeJobsWithDependencies bind gets modify log emit tryFinally ret].
  cbn [sched taskHeap world trace]. rewrite Hf.
  fold (roundStart m).
  change (jobs (setIsExecuting true (sched m))) with (jobs (sched m)).
  destruct (roundLoop now _ [] [] (roundStart m)) as [[p|v] m1]; reflexivity.
Qed.

Lemma round_busy m :
  isExecuting (sched m) = true ->
  executeJobsWithDependencies now m = (Normal [], warned m).
Proof.
  intros Hf.
  cbv [executeJobsWithDependencies bind gets modify log emit tryFinally ret].
  cbn [sched taskHeap world trace]. rewrite Hf. reflexivity.
Qed.

(** A round never throws; its results follow the execution order. *)
Lemma round_total m :
  isExecuting (sched m) = false ->
  exists results cs m1 events,
    roundLoop now (resolveDependencies (jobGraph (jobs (sched m))))
      [] [] (roundStart m) = (Normal (results, cs), m1)
    /\ LoopRun (resolveDependencies (jobGraph (jobs (sched m))))
         [] [] (roundStart m) results cs m1 events
    /\ executeJobsWithDependencies now m = (Normal results, roundEnd m1).
Proof.
  intros Hf.
  destruct (roundLoop_total now
              (resolveDependencies (jobGraph (jobs (sched m)))) [] []
              (roundStart m)) as [rs [cs [m1 [ev [Heq Hrun]]]]].
  exists rs, cs, m1, ev. split; [exact Heq|]. split; [exact Hrun|].
  rewrite (round_unfold m Hf), Heq. reflexivity.
Qed.




End RoundTheorems.

Section EngineClaims.

Context {World : Type}.
Variable now : World -> Z.

Implicit Types (m : Machine World) (job : Job World).

Lemma jobGraph_unique (js : JsMap.t (Job World)) :
  uniqueKeys js -> uniqueKeys (jobGraph js).
Proof.
  unfold uniqueKeys. now rewrite jobGraph_keys.
Qed.





(** C10. [executeJob] on a name that is not registered does not throw: it
    returns [success = false], [executionTime = 0] and the error
    "Job not found: <name>", and runs nothing. *)
Theorem executeJob_of_unknown_job m j :
  JsMap.get (jobs (sched m)) j = None ->
  exists r m',
    executeJob now j m = (Normal r, m')
    /\ success r = false
    /\ executionTime r = 0%Z
    /\ error r = Some (mkError ("Job not found: " ++ j)%string)
    /\ sched m' = sched m
    /\ world m' = world m
    /\ trace m' = trace m ++ [Logged Error "Job execution failed"].
Proof.
  intros Hj. rewrite (executeJob_missing now j m Hj).
  eexists. eexists. split; [reflexivity|]. cbn. repeat split.
Qed.

End EngineClaims.

(** ** Registration *)

Section RegistrationFacts.

Context {World : Type}.
Variable cronValidate : string -> bool.

Implicit Types (m : Machine World) (job : Job World).

Local Notation "x <- c ;; k" := (bind c (fun x => k))
  (at level 61, c at next level, right associativity).
Local Notation "c ;; k" := (bind c (fun _ => k))
  (at level 61, right associativity).

Lemma validateJobDependencies_unfold job m :
  validateJobDependencies job m = (validationResult job (jobs (sched m)), m).
Proof.
  unfold validateJobDependencies, validationResult.
  destruct (jobDependencies job) as [|d ds]; [reflexivity|].
  cbv [bind gets]. 
  destruct (firstUnregistered (jobs (sched m)) (d :: ds)); [reflexivity|].
  cbv [detectCircularDependencies bind gets].
  destruct (detectCycle (jobGraph (jobs (sched m)))); reflexivity.
Qed.

Lemma registerJob_unfold job cronExpression validateDependencies m :
  registerJob cronValidate job cronExpression validateDependencies m
  = if negb (cronValidate cronExpression)
    then (Throw (InvalidSchedule cronExpression), afterSet job m)
    else
      match (if validateDependencies
             then validationResult job (jobs (sched (afterSet job m)))
             else Normal tt) with
      | Throw v => (Throw v, afterSet job m)
      | Normal _ =>
          (Normal tt, afterSchedule cronExpression (name job) (afterSet job m))
      end.
Proof.
  unfold registerJob.
  unfold bind at 1. unfold log, emit at 1.
  unfold bind at 1. unfold modify at 1. cbn [sched taskHeap world trace].
  fold (afterSet job m).
  unfold bind at 1.
  destruct (cronValidate cronExpression); cbn [negb]; [|reflexivity].
  unfold ret at 1.
  unfold bind at 1.
  assert (Htail : forall m1 : Machine World,
    (groups <- gets (fun m0 : Machine World => scheduleToJobs (sched m0)) ;;
     (if negb (JsMap.has groups cronExpression)
      then
        modify (fun s =>
          setScheduleToJobs
            (JsMap.set (scheduleToJobs s) cronExpression []) s) ;;
        task <- cronSchedule cronExpression ;;
        modify (fun s =>
          setScheduledTasks
            (JsMap.set (scheduledTasks s) cronExpression task) s)
      else ret tt) ;;
     groups0 <- gets (fun m0 : Machine World => scheduleToJobs (sched m0)) ;;
     match JsMap.get groups0 cronExpression with
     | Some jobSet =>
         modify (setScheduleToJobs
                   (JsMap.set groups0 cronExpression
                      (JsSet.add jobSet (name job))))
     | None =>
         throw (ThrownError
                  (mkError
                     "Cannot read properties of undefined (reading 'add')"))
     end) m1
    = (Normal tt, afterSchedule cronExpression (name job) m1)).
  { intros m1. unfold afterSchedule.
    cbv [bind gets modify cronSchedule ret throw].
    unfold JsMap.has.
    destruct (JsMap.get (scheduleToJobs (sched m1)) cronExpression)
      as [jobSet|] eqn:Hg;
      cbn [negb sched taskHeap world trace scheduleToJobs setScheduleToJobs
           setScheduledTasks scheduledTasks jobs isExecuting].
    - rewrite Hg. reflexivity.
    - rewrite map_get_set_same. reflexivity. }
  destruct validateDependencies.
  - rewrite validateJobDependencies_unfold.
    destruct (validationResult job (jobs (sched (afterSet job m))))
      as [[]|v]; [|reflexivity].
    apply Htail.
  - unfold ret at 1. apply Htail.
Qed.

End RegistrationFacts.

Section RegistrationClaims.

Context {World : Type}.
Variable cronValidate : string -> bool.

Implicit Types (m : Machine World) (job : Job World).

Lemma firstUnregistered_none (js : JsMap.t (Job World)) deps :
  firstUnregistered js deps = None
  <-> forall d, In d deps -> In d (JsMap.keys js).
Proof.
  induction deps as [|d deps IH]; simpl.
  - split; auto. intros _ d [].
  - destruct (JsMap.has js d) eqn:E; simpl.
    + apply map_has_true in E. rewrite IH. split.
      * intros H x [<-|Hx]; auto.
      * intros H x Hx. auto.
    + apply map_has_false in E. split; [discriminate|].
      intros H. exfalso. apply E. auto.
Qed.

Lemma firstUnregistered_some (js : JsMap.t (Job World)) deps d :
  firstUnregistered js deps = Some d ->
  exists before after,
    deps = before ++ d :: after
    /\ (forall x, In x before -> In x (JsMap.keys js))
    /\ ~ In d (JsMap.keys js).
Proof.
  induction deps as [|d0 deps IH]; simpl; [discriminate|].
  destruct (JsMap.has js d0) eqn:E; simpl.
  - apply map_has_true in E. intros H.
    destruct (IH H) as [before [after [Hd [Hb Hn]]]].
    exists (d0 :: before), after. split; [now rewrite Hd|].
    split; auto. intros x [<-|Hx]; auto.
  - apply map_has_false in E. intros [= <-].
    exists [], deps. split; [reflexivity|]. split; auto. intros x [].
Qed.


(** C3 (amended). For a job that declares at least one dependency, all of
    them registered, and a valid cron expression, [registerJob] throws
    [CircularDependency] exactly when the graph of all registered jobs,
    the new one included, has a directed cycle, wherever the cycle is. *)
Theorem registerJob_throws_on_cycles job cronExpression m :
  cronValidate cronExpression = true ->
  jobDependencies job <> [] ->
  (forall d,
      In d (jobDependencies job) ->
      In d (JsMap.keys (JsMap.set (jobs (sched m)) (name job) job))) ->
  (exists j,
      fst (registerJob cronValidate job cronExpression true m)
      = Throw (CircularDependency j))
  <-> cyclic (jobGraph (JsMap.set (jobs (sched m)) (name job) job)).
Proof.
  intros Hcron Hdeps Hall. rewrite registerJob_unfold, Hcron. cbn [negb].
  unfold validationResult. cbn [afterSet sched jobs setJobs].
  set (registry := JsMap.set (jobs (sched m)) (name job) job).
  destruct (jobDependencies job) as [|d1 ds] eqn:E; [contradiction|].
  rewrite (proj2 (firstUnregistered_none registry (d1 :: ds)) Hall).
  rewrite <- detectCycle_correct.
  destruct (detectCycle (jobGraph registry)) as [j|]; cbn [fst].
  - split; intros _; eauto.
  - split; intros [j H]; discriminate.
Qed.

(** C5 (amended). A call of [registerJob] that throws leaves the schedule
    groups, the timers, the task objects and the flag as they were; the
    job itself stays in the registry, under its name. *)
Theorem failed_registerJob_keeps_the_job job cronExpression validate m v :
  fst (registerJob cronValidate job cronExpression validate m) = Throw v ->
  scheduleToJobs
    (sched (snd (registerJob cronValidate job cronExpression validate m)))
  = scheduleToJobs (sched m)
  /\ scheduledTasks
       (sched (snd (registerJob cronValidate job cronExpression validate m)))
     = scheduledTasks (sched m)
  /\ taskHeap (snd (registerJob cronValidate job cronExpression validate m))
     = taskHeap m
  /\ isExecuting
       (sched (snd (registerJob cronValidate job cronExpression validate m)))
     = isExecuting (sched m)
  /\ jobs (sched (snd (registerJob cronValidate job cronExpression validate m)))
     = JsMap.set (jobs (sched m)) (name job) job.
Proof.
  rewrite registerJob_unfold.
  destruct (negb (cronValidate cronExpression)).
  - intros _. repeat split.
  - destruct (if validate then _ else _) as [[]|v'].
    + discriminate.
    + intros _. repeat split.
Qed.

End RegistrationClaims.

(** ** Interleaved rounds and timers *)

Section SystemFacts.

Context {World : Type}.
Variable now : World -> Z.
Variable cronValidate : string -> bool.

Implicit Types (m : Machine World) (job : Job World) (s : System World).

(** [advance] neither throws nor touches the scheduler or the timers. *)
Lemma advance_frame order : forall rs cs m,
  exists r m',
    advance now order rs cs m = (Normal r, m')
    /\ sched m' = sched m /\ taskHeap m' = taskHeap m.
Proof.
  induction order as [|j order IH]; intros rs cs m.
  - exists (inr rs), m. simpl. auto.
  - cbn [advance]. unfold bind at 1. unfold gets at 1. cbn [sched].
    destruct (JsMap.get (jobs (sched m)) j) as [job|]; [|apply IH].
    destruct (checkDependencies (jobDependencies job) cs) as [met reason].
    destruct met; cbn [negb].
    + cbv [bind log emit gets ret]. cbn [sched taskHeap world trace].
      eexists. eexists. split; [reflexivity|]. auto.
    + unfold bind at 1. unfold log, emit at 1.
      match goal with
      | |- context [advance now order ?rs' cs ?m1] =>
          destruct (IH rs' cs m1) as [r [m' [Heq [Hs Hh]]]]
      end.
      exists r, m'. split; [exact Heq|]. auto.
Qed.

Lemma executeJobBody_settled jobName startTime outcome m :
  exists r,
    executeJobBody now jobName startTime (fun m0 => (outcome, m0)) m
    = (Normal r,
       mkMachine (sched m) (taskHeap m) (world m)
         (trace m
          ++ [match outcome with
              | Normal _ =>
                  Logged Info
                    ("Job completed successfully: " ++ jobName)%string
              | Throw _ => Logged Error ("Job failed: " ++ jobName)%string
              end])).
Proof.
  cbv [executeJobBody tryCatch bind gets log emit ret].
  destruct outcome as [[]|v]; cbn [sched taskHeap world trace];
    eexists; reflexivity.
Qed.

Lemma invokeRound_busy m :
  isExecuting (sched m) = true ->
  invokeRound now m = (Normal (inr []), warned m).
Proof.
  intros Hf. cbv [invokeRound bind gets log emit ret].
  cbn [sched]. rewrite Hf. reflexivity.
Qed.

Lemma invokeRound_idle m :
  isExecuting (sched m) = false ->
  exists r m',
    invokeRound now m = (Normal r, m')
    /\ taskHeap m' = taskHeap m
    /\ match r with
       | inl _ => sched m' = setIsExecuting true (sched m)
       | inr _ => sched m' = setIsExecuting false (sched m)
       end.
Proof.
  intros Hf. unfold invokeRound.
  unfold bind at 1. unfold gets at 1. cbn [sched]. rewrite Hf.
  unfold bind at 1. unfold modify at 1.
  unfold bind at 1. unfold log, emit at 1. cbn [sched taskHeap world trace].
  unfold bind at 1. unfold gets at 1.
  unfold bind at 1.
  match goal with
  | |- context [advance now ?o [] [] ?m1] =>
      destruct (advance_frame o [] [] m1) as [r [m' [Heq [Hs Hh]]]]
  end.
  rewrite Heq. cbn [sched taskHeap] in Hs, Hh.
  destruct r as [f|rs]; cbn [leaveRound].
  - exists (inl f), m'. unfold ret. split; [reflexivity|]. auto.
  - cbv [bind modify ret].
    eexists. eexists. split; [reflexivity|]. cbn [sched taskHeap].
    split; [exact Hh|]. rewrite Hs. reflexivity.
Qed.

Lemma resumeRound_frame f w outcome m :
  exists r m',
    resumeRound now f w outcome m = (Normal r, m')
    /\ taskHeap m' = taskHeap m
    /\ match r with
       | inl _ => sched m' = sched m
       | inr _ => sched m' = setIsExecuting false (sched m)
       end.
Proof.
  unfold resumeRound.
  unfold bind at 1. unfold setWorld at 1.
  unfold bind at 1.
  match goal with
  | |- context [executeJobBody now ?a ?b ?c ?m1] =>
      destruct (executeJobBody_settled a b outcome m1) as [res Hres]
  end.
  rewrite Hres. cbn [sched taskHeap world trace].
  unfold bind at 1.
  match goal with
  | |- context [advance now ?o ?rs ?cs ?m1] =>
      destruct (advance_frame o rs cs m1) as [r [m' [Heq [Hs Hh]]]]
  end.
  rewrite Heq. cbn [sched taskHeap] in Hs, Hh.
  destruct r as [f'|rs]; cbn [leaveRound].
  - exists (inl f'), m'. unfold ret. split; [reflexivity|]. auto.
  - cbv [bind modify ret].
    eexists. eexists. split; [reflexivity|]. cbn [sched taskHeap].
    split; [exact Hh|]. rewrite Hs. reflexivity.
Qed.

End SystemFacts.

Section RemovalFacts.

Context {World : Type}.

Implicit Types (m : Machine World).

Lemma afterUngroup_jobs jobName m :
  jobs (sched (afterUngroup jobName m)) = jobs (sched m)
  /\ isExecuting (sched (afterUngroup jobName m)) = isExecuting (sched m).
Proof.
  unfold afterUngroup.
  destruct (findGroup (scheduleToJobs (sched m)) jobName) as [[e jobSet]|];
    [|auto].
  cbv zeta. destruct (Nat.eqb _ 0); [|auto].
  destruct (JsMap.get (scheduledTasks (sched m)) e); auto.
Qed.

Lemma removeJob_unfold jobName m :
  removeJob jobName m
  = (Normal (JsMap.has (jobs (sched m)) jobName), afterRemove jobName m).
Proof.
  unfold removeJob, afterRemove, afterUngroup.
  unfold bind at 1. unfold gets at 1. unfold bind at 1.
  destruct (findGroup (scheduleToJobs (sched m)) jobName)
    as [[e jobSet]|]; [|reflexivity].
  cbv zeta. unfold bind at 1. unfold modify at 1.
  destruct (Nat.eqb (JsSet.size (JsSet.delete jobSet jobName)) 0);
    [|reflexivity].
  unfold bind at 1. unfold bind at 1. unfold gets at 1.
  cbn [sched scheduledTasks setScheduleToJobs].
  destruct (JsMap.get (scheduledTasks (sched m)) e); reflexivity.
Qed.

Lemma forEachTask_frame text (b : bool) entries : forall m,
  exists events,
    forEachTask text
      (fun ref (m0 : Machine World) =>
         (Normal tt,
          mkMachine (sched m0)
            (heapUpdate (taskHeap m0) ref (setRunning b))
            (world m0) (trace m0)))
      entries m
    = (Normal tt,
       mkMachine (sched m)
         (fold_left (fun h kv => heapUpdate h (snd kv) (setRunning b))
                    entries (taskHeap m))
         (world m) (trace m ++ events)).
Proof.
  induction entries as [|[e ref] entries IH]; intros m.
  - exists []. simpl. unfold ret. rewrite app_nil_r. now destruct m.
  - cbn [forEachTask]. cbv [bind log emit]. cbn [sched taskHeap world trace].
    match goal with
    | |- context [forEachTask text ?f entries ?m1] =>
        destruct (IH m1) as [ev Hev]
    end.
    exists ([Logged Info (text ++ e)%string] ++ ev).
    rewrite Hev. cbn [sched taskHeap world trace fold_left snd].
    now rewrite <- app_assoc.
Qed.

End RemovalFacts.

Section FlightFacts.

Context {World : Type}.
Variable now : World -> Z.
Variable cronValidate : string -> bool.

Implicit Types (m : Machine World) (s : System World).

Lemma start_unfold m :
  exists events,
    start m
    = (Normal tt,
       mkMachine (sched m)
         (armAll true (scheduledTasks (sched m)) (taskHeap m))
         (world m) (trace m ++ events)).
Proof.
  unfold start. unfold bind at 1. unfold log, emit at 1.
  unfold bind at 1. unfold gets at 1. cbn [sched].
  match goal with
  | |- context [forEachTask ?t _ ?es ?m1] =>
      destruct (forEachTask_frame t true es m1) as [ev Hev]
  end.
  exists ([Logged Info "Starting job scheduler"] ++ ev).
  unfold taskStart. rewrite Hev. cbn [sched taskHeap world trace].
  now rewrite <- app_assoc.
Qed.

Lemma stop_unfold m :
  exists events,
    stop m
    = (Normal tt,
       mkMachine (sched m)
         (armAll false (scheduledTasks (sched m)) (taskHeap m))
         (world m) (trace m ++ events)).
Proof.
  unfold stop. unfold bind at 1. unfold log, emit at 1.
  unfold bind at 1. unfold gets at 1. cbn [sched].
  match goal with
  | |- context [forEachTask ?t _ ?es ?m1] =>
      destruct (forEachTask_frame t false es m1) as [ev Hev]
  end.
  exists ([Logged Info "Stopping job scheduler"] ++ ev).
  unfold taskStop. rewrite Hev. cbn [sched taskHeap world trace].
  now rewrite <- app_assoc.
Qed.

Lemma registerJob_flag job cronExpression validate m :
  isExecuting
    (sched (snd (registerJob cronValidate job cronExpression validate m)))
  = isExecuting (sched m).
Proof.
  rewrite registerJob_unfold.
  destruct (negb (cronValidate cronExpression)); [reflexivity|].
  destruct (if validate then _ else _) as [[]|v]; [|reflexivity].
  cbn [snd]. unfold afterSchedule.
  destruct (JsMap.get _ cronExpression); reflexivity.
Qed.

Lemma removeJob_flag jobName m :
  isExecuting (sched (snd (removeJob jobName m))) = isExecuting (sched m).
Proof.
  rewrite removeJob_unfold. cbn [snd afterRemove sched setJobs isExecuting].
  apply afterUngroup_jobs.
Qed.

Lemma act_flight a s : FlightInv s -> FlightInv (act now cronValidate a s).
Proof.
  intros Hinv. destruct a as [job e v|j| | | |index w outcome]; cbn [act].
  - unfold FlightInv in *. cbn [inFlight machine]. rewrite registerJob_flag.
    exact Hinv.
  - unfold FlightInv in *. cbn [inFlight machine]. rewrite removeJob_flag.
    exact Hinv.
  - destruct (start_unfold (machine s)) as [ev Hev]. rewrite Hev.
    exact Hinv.
  - destruct (stop_unfold (machine s)) as [ev Hev]. rewrite Hev.
    exact Hinv.
  - destruct (isExecuting (sched (machine s))) eqn:Hf.
    + rewrite (invokeRound_busy now (machine s) Hf). cbn [afterRound].
      unfold FlightInv in *. cbn [inFlight machine warned sched].
      exact Hinv.
    + destruct (invokeRound_idle now (machine s) Hf)
        as [r [m' [Heq [_ Hs]]]].
      rewrite Heq. unfold FlightInv in Hinv.
      destruct (inFlight s) as [|f0 [|f1 rest]] eqn:Hfl;
        [|congruence|contradiction].
      destruct r as [f|rs]; cbn [afterRound app];
        unfold FlightInv; cbn [inFlight machine]; now rewrite Hs.
  - destruct (nth_error (inFlight s) index) as [f|] eqn:Hn; [|exact Hinv].
    unfold FlightInv in Hinv.
    destruct (inFlight s) as [|f0 [|f1 rest]] eqn:Hfl;
      [destruct index; discriminate| |contradiction].
    destruct index as [|index]; [|destruct index; discriminate].
    destruct (resumeRound_frame now f w outcome (machine s))
      as [r [m' [Heq [_ Hs]]]].
    rewrite Heq. cbn [removeNth].
    destruct r as [f'|rs]; cbn [afterRound app];
      unfold FlightInv; cbn [inFlight machine]; rewrite Hs; auto.
Qed.

Lemma runActions_flight actions : forall s,
  FlightInv s -> FlightInv (runActions now cronValidate actions s).
Proof.
  induction actions as [|a actions IH]; intros s Hinv; [exact Hinv|].
  cbn [runActions fold_left]. apply IH. now apply act_flight.
Qed.

(** C4. Whatever has been called and whatever has settled so far, at most
    one round is in flight; while one is, another call of
    [executeJobsWithDependencies()] returns the empty list, throws
    nothing, runs no job and changes nothing but the log, to which it adds
    the warning: the call is dropped, not queued. *)
Theorem round_in_flight_drops_other_rounds actions w :
  inFlight (runActions now cronValidate actions (initialSystem w)) <> [] ->
  length (inFlight (runActions now cronValidate actions (initialSystem w)))
  = 1
  /\ invokeRound now
       (machine (runActions now cronValidate actions (initialSystem w)))
     = (Normal (inr []),
        warned (machine (runActions now cronValidate actions
                           (initialSystem w))))
  /\ executeJobsWithDependencies now
       (machine (runActions now cronValidate actions (initialSystem w)))
     = (Normal [],
        warned (machine (runActions now cronValidate actions
                           (initialSystem w))))
  /\ act now cronValidate CallExecuteRound
       (runActions now cronValidate actions (initialSystem w))
     = mkSystem
         (warned (machine (runActions now cronValidate actions
                             (initialSystem w))))
         (inFlight (runActions now cronValidate actions (initialSystem w))).
Proof.
  assert (Hinv : FlightInv (runActions now cronValidate actions
                              (initialSystem w))).
  { apply runActions_flight. reflexivity. }
  set (s := runActions now cronValidate actions (initialSystem w)) in *.
  intros Hne. unfold FlightInv in Hinv.
  destruct (inFlight s) as [|f [|f' rest]] eqn:Hfl;
    [contradiction| |contradiction].
  split; [reflexivity|].
  split; [now apply invokeRound_busy|].
  split; [now apply round_busy|].
  cbn [act]. rewrite (invokeRound_busy now (machine s) Hinv).
  cbn [afterRound]. now rewrite Hfl.
Qed.

End FlightFacts.

Section TimerFacts.

Context {World : Type}.

Implicit Types (m : Machine World) (s : System World).

Lemma heapUpdate_nth h : forall ref f r,
  nth_error (heapUpdate h ref f) r
  = if Nat.eqb r ref then option_map f (nth_error h r) else nth_error h r.
Proof.
  induction h as [|t h IH]; intros ref f r.
  - simpl. destruct (Nat.eqb r ref); destruct r; reflexivity.
  - destruct ref as [|ref]; destruct r as [|r]; simpl; auto.
Qed.

Lemma armAll_nth b entries : forall h r t',
  nth_error (armAll b entries h) r = Some t' ->
  exists t,
    nth_error h r = Some t
    /\ taskExpression t' = taskExpression t
    /\ (taskRunning t' = taskRunning t
        \/ (In r (map snd entries) /\ taskRunning t' = b)).
Proof.
  unfold armAll.
  induction entries as [|[e ref] entries IH]; intros h r t' H.
  - exists t'. simpl in H. auto.
  - cbn [fold_left snd] in H. apply IH in H as [t1 [H1 [H2 H3]]].
    rewrite heapUpdate_nth in H1.
    destruct (Nat.eqb r ref) eqn:E.
    + apply Nat.eqb_eq in E. subst ref.
      destruct (nth_error h r) as [t|]; [|discriminate].
      injection H1 as <-. exists t. split; [reflexivity|].
      split; [exact H2|]. right. simpl. split; auto.
      destruct H3 as [H3|[_ H3]]; auto.
    + exists t1. split; [exact H1|]. split; [exact H2|].
      destruct H3 as [H3|[H3 H4]]; auto. right. simpl. auto.
Qed.

Lemma armAll_some b entries : forall h r t,
  nth_error h r = Some t ->
  exists t', nth_error (armAll b entries h) r = Some t'.
Proof.
  unfold armAll.
  induction entries as [|[e ref] entries IH]; intros h r t H.
  - exists t. exact H.
  - cbn [fold_left snd].
    destruct (Nat.eqb r ref) eqn:E.
    + apply (IH _ r (setRunning b t)). rewrite heapUpdate_nth, E, H.
      reflexivity.
    + apply (IH _ r t). rewrite heapUpdate_nth, E. exact H.
Qed.

Lemma armAll_stops entries : forall h r t',
  In r (map snd entries) ->
  nth_error (armAll false entries h) r = Some t' -> taskRunning t' = false.
Proof.
  unfold armAll.
  induction entries as [|[e ref] entries IH]; intros h r t' Hin H.
  - destruct Hin.
  - cbn [fold_left snd] in H.
    destruct (in_dec Nat.eq_dec r (map snd entries)) as [Hin'|Hout].
    + eapply IH; eauto.
    + destruct Hin as [Hin|Hin]; [|contradiction]. simpl in Hin. subst ref.
      apply (armAll_nth false entries) in H as [t1 [H1 [_ H3]]].
      rewrite heapUpdate_nth, Nat.eqb_refl in H1.
      destruct (nth_error h r) as [t|]; [|discriminate].
      injection H1 as <-. destruct H3 as [H3|[_ H3]]; auto.
Qed.

Lemma map_keys_delete_iff {V} (mp : JsMap.t V) k x :
  uniqueKeys mp ->
  In x (JsMap.keys (JsMap.delete mp k)) <-> x <> k /\ In x (JsMap.keys mp).
Proof.
  intros Hu. split.
  - intros H. split; [|eapply map_keys_delete_incl; eauto].
    intros ->. apply map_in_keys_get in H as [v Hv].
    rewrite map_get_delete_same in Hv by auto. discriminate.
  - intros [Hne H]. apply map_in_keys_get in H as [v Hv].
    rewrite <- (map_get_delete_other mp k x) in Hv by auto.
    eapply map_get_in_keys; eauto.
Qed.

Lemma findGroup_some groups j e jobSet :
  uniqueKeys groups ->
  findGroup groups j = Some (e, jobSet) ->
  JsMap.get groups e = Some jobSet /\ In j jobSet.
Proof.
  intros Hu H.
  assert (Hin : In (e, jobSet) groups /\ In j jobSet).
  { clear Hu. induction groups as [|[e0 s0] groups IH]; [discriminate|].
    simpl in H. destruct (JsSet.has s0 j) eqn:E.
    - injection H as -> ->. apply set_has_true in E. simpl. auto.
    - destruct (IH H). simpl. auto. }
  destruct Hin as [Hin Hj]. split; auto. now apply map_in_get.
Qed.

Lemma timersFor_get m e :
  uniqueKeys (scheduledTasks (sched m)) ->
  timersFor m e
  = match JsMap.get (scheduledTasks (sched m)) e with
    | Some ref => [ref]
    | None => []
    end.
Proof.
  unfold timersFor, uniqueKeys.
  induction (scheduledTasks (sched m)) as [|[k v] l IH]; intros Hu; auto.
  inversion Hu; subst. cbn [filter fst JsMap.get].
  destruct (String.eqb k e) eqn:E.
  - apply String.eqb_eq in E. subst k. cbn [map snd]. f_equal.
    rewrite IH by auto.
    assert (Hn : JsMap.get l e = None) by now apply map_get_none.
    now rewrite Hn.
  - now apply IH.
Qed.

Lemma armedFrom_in h : forall k e r,
  In r (armedFrom h k e)
  <-> k <= r
      /\ exists t, nth_error h (r - k) = Some t
                   /\ taskExpression t = e /\ taskRunning t = true.
Proof.
  induction h as [|t h IH]; intros k e r.
  - simpl. split; [tauto|]. intros [_ [t [H _]]].
    destruct (r - k); discriminate.
  - cbn [armedFrom].
    assert (Hrest : In r (armedFrom h (S k) e)
              <-> k < r /\ exists t0, nth_error (t :: h) (r - k) = Some t0
                          /\ taskExpression t0 = e /\ taskRunning t0 = true).
    { rewrite IH. split.
      - intros [Hle [t0 [H1 H2]]]. split; [lia|]. exists t0. split; auto.
        replace (r - k) with (S (r - S k)) by lia. exact H1.
      - intros [Hlt [t0 [H1 H2]]]. split; [lia|]. exists t0. split; auto.
        replace (r - k) with (S (r - S k)) in H1 by lia. exact H1. }
    destruct (String.eqb (taskExpression t) e && taskRunning t) eqn:E.
    + apply andb_true_iff in E as [E1 E2]. apply String.eqb_eq in E1.
      simpl. rewrite Hrest. split.
      * intros [<-|[Hlt Hex]]; [|split; [lia|exact Hex]].
        split; [lia|]. exists t. rewrite Nat.sub_diag. auto.
      * intros [Hle Hex].
        destruct (Nat.eq_dec k r) as [->|Hne]; auto.
        right. split; [lia|exact Hex].
    + rewrite Hrest. split.
      * intros [Hlt Hex]. split; [lia|exact Hex].
      * intros [Hle [t0 [H1 [H2 H3]]]].
        destruct (Nat.eq_dec k r) as [->|Hne].
        -- rewrite Nat.sub_diag in H1. injection H1 as <-.
           rewrite H2, H3, String.eqb_refl in E. discriminate.
        -- split; [lia|]. eauto.
Qed.

Lemma armedFrom_nodup h : forall k e, NoDup (armedFrom h k e).
Proof.
  induction h as [|t h IH]; intros k e; [constructor|].
  cbn [armedFrom].
  destruct (String.eqb (taskExpression t) e && taskRunning t); auto.
  constructor; auto. rewrite armedFrom_in. lia.
Qed.

Lemma armedTimers_in m e r :
  In r (armedTimers m e)
  <-> exists t, nth_error (taskHeap m) r = Some t
                /\ taskExpression t = e /\ taskRunning t = true.
Proof.
  unfold armedTimers. rewrite armedFrom_in, Nat.sub_0_r.
  split; [tauto|]. intros H. split; [lia|exact H].
Qed.

Lemma nodup_all_equal (l : list nat) x :
  NoDup l -> (forall y, In y l -> y = x) -> length l <= 1.
Proof.
  intros Hnd Hall. destruct l as [|a [|b l]]; simpl; auto.
  exfalso. inversion Hnd; subst. apply H1.
  rewrite (Hall a), (Hall b); simpl; auto.
Qed.

(** One timer for an expression with a job in its group, none otherwise;
    and no other task object of the library is started for it. *)
Lemma timers_of_group m e :
  TimerInv m ->
  (groupMembers m e <> [] ->
   exists ref,
     timersFor m e = [ref]
     /\ (forall r, In r (armedTimers m e) -> r = ref)
     /\ length (armedTimers m e) <= 1)
  /\ (groupMembers m e = [] ->
      timersFor m e = [] /\ armedTimers m e = []).
Proof.
  intros [Ht Hg Hk Hm Hr Ha].
  assert (Harmed : forall r, In r (armedTimers m e) ->
            JsMap.get (scheduledTasks (sched m)) e = Some r).
  { intros r Hin. apply armedTimers_in in Hin as [t [H1 [H2 H3]]].
    rewrite <- H2. now apply Ha. }
  rewrite (timersFor_get m e Ht). unfold groupMembers. split.
  - intros Hne.
    destruct (JsMap.get (scheduleToJobs (sched m)) e) as [jobSet|] eqn:Hge;
      [|contradiction].
    assert (Hin : In e (JsMap.keys (scheduledTasks (sched m)))).
    { apply Hk. eapply map_get_in_keys; eauto. }
    apply map_in_keys_get in Hin as [ref Href]. rewrite Href.
    assert (Hall : forall r, In r (armedTimers m e) -> r = ref).
    { intros r Hin. apply Harmed in Hin. congruence. }
    exists ref. split; [reflexivity|]. split; [exact Hall|].
    apply (nodup_all_equal _ ref); auto. apply armedFrom_nodup.
  - intros Hnil.
    assert (Hnone : JsMap.get (scheduledTasks (sched m)) e = None).
    { destruct (JsMap.get (scheduleToJobs (sched m)) e) as [jobSet|] eqn:Hge.
      - exfalso. exact (Hm e jobSet Hge Hnil).
      - apply map_get_none. rewrite Hk. now apply map_get_none. }
    rewrite Hnone. split; [reflexivity|].
    destruct (armedTimers m e) as [|r l]; auto.
    specialize (Harmed r (or_introl eq_refl)). congruence.
Qed.

End TimerFacts.

Section TimerSteps.

Context {World : Type}.

Implicit Types (m : Machine World) (s : System World).

Lemma TimerInv_ext m m' :
  scheduledTasks (sched m') = scheduledTasks (sched m) ->
  scheduleToJobs (sched m') = scheduleToJobs (sched m) ->
  taskHeap m' = taskHeap m ->
  TimerInv m -> TimerInv m'.
Proof.
  intros H1 H2 H3 [Ht Hg Hk Hm Hr Ha].
  constructor; rewrite ?H1, ?H2, ?H3; auto.
Qed.

Lemma afterSchedule_timers e j m : TimerInv m -> TimerInv (afterSchedule e j m).
Proof.
  intros [Ht Hg Hk Hm Hr Ha]. unfold afterSchedule.
  destruct (JsMap.get (scheduleToJobs (sched m)) e) as [jobSet|] eqn:Hge.
  - constructor;
      cbn [sched taskHeap scheduledTasks scheduleToJobs setScheduleToJobs];
      auto.
    + now apply map_set_unique.
    + intros x. rewrite Hk, map_keys_set_iff. split; auto.
      intros [->|H]; auto. eapply map_get_in_keys; eauto.
    + intros x s. destruct (string_dec e x) as [->|Hne].
      * rewrite map_get_set_same. intros [= <-].
        unfold JsSet.add. destruct (JsSet.has jobSet j).
        -- eapply Hm; eauto.
        -- destruct jobSet; discriminate.
      * rewrite map_get_set_other by auto. apply Hm.
  - assert (Hnt : JsMap.get (scheduledTasks (sched m)) e = None).
    { apply map_get_none. rewrite Hk. now apply map_get_none. }
    constructor;
      cbn [sched taskHeap scheduledTasks scheduleToJobs].
    + now apply map_set_unique.
    + now apply map_set_unique, map_set_unique.
    + intros x. rewrite !map_keys_set_iff, Hk. split.
      * intros [H|H]; auto.
      * intros [H|[H|H]]; auto.
    + intros x s. destruct (string_dec e x) as [->|Hne].
      * rewrite map_get_set_same. intros [= <-]. discriminate.
      * rewrite !map_get_set_other by auto. apply Hm.
    + intros x ref. destruct (string_dec e x) as [->|Hne].
      * rewrite map_get_set_same. intros [= <-].
        exists (mkTask x false). split; [|reflexivity].
        rewrite nth_error_app2, Nat.sub_diag by lia. reflexivity.
      * rewrite map_get_set_other by auto. intros H.
        destruct (Hr x ref H) as [t [H1 H2]]. exists t. split; auto.
        rewrite nth_error_app1; auto. apply nth_error_Some. congruence.
    + intros ref t Hn Hrun.
      destruct (Nat.lt_ge_cases ref (length (taskHeap m))) as [Hlt|Hge'].
      * rewrite nth_error_app1 in Hn by auto.
        pose proof (Ha ref t Hn Hrun) as H.
        destruct (string_dec e (taskExpression t)) as [E|Hne].
        -- rewrite <- E in H. congruence.
        -- now rewrite map_get_set_other.
      * rewrite nth_error_app2 in Hn by auto.
        destruct (ref - length (taskHeap m)) as [|n]; simpl in Hn.
        -- injection Hn as <-. discriminate.
        -- destruct n; discriminate.
Qed.

Lemma afterUngroup_timers j m : TimerInv m -> TimerInv (afterUngroup j m).
Proof.
  intros Hinv. pose proof Hinv as [Ht Hg Hk Hm Hr Ha]. unfold afterUngroup.
  destruct (findGroup (scheduleToJobs (sched m)) j) as [[e jobSet]|] eqn:Hf;
    [|exact Hinv].
  apply findGroup_some in Hf as [Hge Hj]; auto. cbv zeta.
  assert (Hu1 : uniqueKeys (JsMap.set (scheduleToJobs (sched m)) e
                              (JsSet.delete jobSet j)))
    by now apply map_set_unique.
  destruct (Nat.eqb (JsSet.size (JsSet.delete jobSet j)) 0) eqn:Esize.
  - assert (Hin : In e (JsMap.keys (scheduledTasks (sched m)))).
    { apply Hk. eapply map_get_in_keys; eauto. }
    apply map_in_keys_get in Hin as [ref Href]. rewrite Href.
    assert (Hgk : forall x,
              In x (JsMap.keys
                      (JsMap.delete
                         (JsMap.set (scheduleToJobs (sched m)) e
                            (JsSet.delete jobSet j)) e))
              <-> x <> e /\ In x (JsMap.keys (scheduleToJobs (sched m)))).
    { intros x. rewrite map_keys_delete_iff by auto.
      rewrite map_keys_set_iff. split.
      - intros [H1 [H2|H2]]; [contradiction|auto].
      - intros [H1 H2]. auto. }
    constructor;
      cbn [sched taskHeap scheduledTasks scheduleToJobs].
    + now apply map_delete_unique.
    + now apply map_delete_unique.
    + intros x. rewrite Hgk, map_keys_delete_iff, Hk by auto. reflexivity.
    + intros x s. destruct (string_dec e x) as [->|Hne].
      * rewrite map_get_delete_same by auto. discriminate.
      * rewrite map_get_delete_other, map_get_set_other by auto. apply Hm.
    + intros x r. destruct (string_dec e x) as [->|Hne].
      * rewrite map_get_delete_same by auto. discriminate.
      * rewrite map_get_delete_other by auto. intros H.
        destruct (Hr x r H) as [t [H1 H2]].
        rewrite heapUpdate_nth, H1.
        destruct (Nat.eqb r ref).
        -- exists (setRunning false t). split; [reflexivity|exact H2].
        -- exists t. auto.
    + intros r t. rewrite heapUpdate_nth.
      destruct (Nat.eqb r ref) eqn:E.
      * destruct (nth_error (taskHeap m) r) as [t0|]; [|discriminate].
        intros [= <-]. discriminate.
      * intros Hn Hrun. pose proof (Ha r t Hn Hrun) as H.
        destruct (string_dec e (taskExpression t)) as [E'|Hne].
        -- rewrite <- E' in H. rewrite Href in H. injection H as ->.
           rewrite Nat.eqb_refl in E. discriminate.
        -- now rewrite map_get_delete_other.
  - constructor;
      cbn [sched taskHeap scheduledTasks scheduleToJobs setScheduleToJobs];
      auto.
    + intros x. rewrite Hk, map_keys_set_iff. split; auto.
      intros [->|H]; auto. eapply map_get_in_keys; eauto.
    + intros x s. destruct (string_dec e x) as [->|Hne].
      * rewrite map_get_set_same. intros [= <-] Hnil.
        unfold JsSet.size in Esize. rewrite Hnil in Esize. discriminate.
      * rewrite map_get_set_other by auto. apply Hm.
Qed.

Lemma afterRemove_timers j m : TimerInv m -> TimerInv (afterRemove j m).
Proof.
  intros H. apply (TimerInv_ext (afterUngroup j m)); auto.
  now apply afterUngroup_timers.
Qed.

Lemma armAll_timers b m events :
  TimerInv m ->
  TimerInv (mkMachine (sched m)
              (armAll b (scheduledTasks (sched m)) (taskHeap m))
              (world m) (trace m ++ events)).
Proof.
  intros [Ht Hg Hk Hm Hr Ha].
  constructor; cbn [sched taskHeap]; auto.
  - intros e ref H. destruct (Hr e ref H) as [t [H1 H2]].
    destruct (armAll_some b (scheduledTasks (sched m)) _ ref t H1)
      as [t' Ht'].
    exists t'. split; auto.
    apply armAll_nth in Ht' as [t0 [H3 [H4 _]]]. congruence.
  - intros ref t' H Hrun.
    apply armAll_nth in H as [t [H1 [H2 H3]]]. rewrite H2.
    destruct H3 as [H3|[H3 _]].
    + apply Ha; auto. congruence.
    + apply in_map_iff in H3 as [[e r] [Hsnd Hin]]. simpl in Hsnd. subst r.
      apply map_in_get in Hin; auto.
      destruct (Hr e ref Hin) as [t0 [H4 H5]].
      assert (t0 = t) by congruence. subst t0. now rewrite H5.
Qed.

End TimerSteps.

Section TimerClaims.

Context {World : Type}.
Variable now : World -> Z.
Variable cronValidate : string -> bool.

Implicit Types (m : Machine World) (s : System World).

Lemma registerJob_timers job e v m :
  TimerInv m -> TimerInv (snd (registerJob cronValidate job e v m)).
Proof.
  intros Hinv. rewrite registerJob_unfold.
  assert (Hset : TimerInv (afterSet job m)).
  { apply (TimerInv_ext m); auto. }
  destruct (negb (cronValidate e)); [exact Hset|].
  destruct (if v then _ else _) as [[]|x]; [|exact Hset].
  now apply afterSchedule_timers.
Qed.

Lemma act_timers a s :
  TimerInv (machine s) -> TimerInv (machine (act now cronValidate a s)).
Proof.
  intros Hinv. destruct a as [job e v|j| | | |index w outcome]; cbn [act].
  - cbn [machine]. now apply registerJob_timers.
  - cbn [machine]. rewrite removeJob_unfold. now apply afterRemove_timers.
  - destruct (start_unfold (machine s)) as [ev Hev]. rewrite Hev.
    cbn [machine snd]. now apply armAll_timers.
  - destruct (stop_unfold (machine s)) as [ev Hev]. rewrite Hev.
    cbn [machine snd]. now apply armAll_timers.
  - destruct (isExecuting (sched (machine s))) eqn:Hf.
    + rewrite (invokeRound_busy now (machine s) Hf). cbn [afterRound machine].
      apply (TimerInv_ext (machine s)); auto.
    + destruct (invokeRound_idle now (machine s) Hf)
        as [r [m' [Heq [Hh Hs]]]].
      rewrite Heq.
      assert (Hm' : TimerInv m').
      { apply (TimerInv_ext (machine s)); auto;
          destruct r; rewrite Hs; reflexivity. }
      destruct r; exact Hm'.
  - destruct (nth_error (inFlight s) index) as [f|]; [|exact Hinv].
    destruct (resumeRound_frame now f w outcome (machine s))
      as [r [m' [Heq [Hh Hs]]]].
    rewrite Heq.
    assert (Hm' : TimerInv m').
    { apply (TimerInv_ext (machine s)); auto;
        destruct r; rewrite Hs; reflexivity. }
    destruct r; exact Hm'.
Qed.

Lemma runActions_timers actions : forall s,
  TimerInv (machine s) ->
  TimerInv (machine (runActions now cronValidate actions s)).
Proof.
  induction actions as [|a actions IH]; intros s Hinv; [exact Hinv|].
  cbn [runActions fold_left]. apply IH. now apply act_timers.
Qed.

Lemma initial_timers (w : World) : TimerInv (machine (initialSystem w)).
Proof.
  constructor; cbn.
  - constructor.
  - constructor.
  - intros e. reflexivity.
  - discriminate.
  - discriminate.
  - intros ref t H. destruct ref; discriminate.
Qed.


End TimerClaims.

Section OrderClaims.

Context {World : Type}.
Variable now : World -> Z.
Variable cronValidate : string -> bool.

Implicit Types (m : Machine World) (s : System World).

(** C2 (amended). For a registry in which every declared dependency is a
    registered job and no job reaches itself, [getExecutionOrder()]
    returns a sequence that holds every registered job name exactly once
    and nothing else, with every dependency of a job at a smaller index
    than the job; repeated entries in a dependency list do not matter. *)
Theorem getExecutionOrder_is_topological m :
  uniqueKeys (jobs (sched m)) ->
  dependenciesRegistered (jobGraph (jobs (sched m))) ->
  acyclic (jobGraph (jobs (sched m))) ->
  exists order,
    getExecutionOrder m = (Normal order, m)
    /\ (forall j, In j (JsMap.keys (jobs (sched m))) ->
                  count_occ string_dec order j = 1)
    /\ (forall j, In j order -> In j (JsMap.keys (jobs (sched m))))
    /\ dependenciesFirst (jobGraph (jobs (sched m))) order.
Proof.
  intros Hu Hreg Hacyc.
  assert (Hug : uniqueKeys (jobGraph (jobs (sched m))))
    by now apply jobGraph_unique.
  exists (resolveDependencies (jobGraph (jobs (sched m)))).
  split; [reflexivity|]. split; [|split].
  - intros j Hj. apply NoDup_count_occ'.
    + now apply resolve_nodup.
    + apply resolve_complete; auto. now rewrite jobGraph_keys.
  - intros j Hj. apply resolve_registered in Hj; auto.
    now rewrite jobGraph_keys in Hj.
  - now apply resolve_dependenciesFirst.
Qed.




(** The loop of a round is the loop up to the first job that runs, that
    job run to its end, and the loop over the rest. *)
Lemma roundLoop_advance order : forall rs cs m,
  exists r m1,
    advance now order rs cs m = (Normal r, m1)
    /\ match r with
       | inr results =>
           exists cs',
             roundLoop now order rs cs m = (Normal (results, cs'), m1)
       | inl f =>
           let '(outcome, w) := execute (f_job f) (world m1) in
           exists result m2,
             executeJobBody now (f_jobName f) (f_startTime f)
               (fun m0 => (outcome, m0))
               (mkMachine (sched m1) (taskHeap m1) w (trace m1))
             = (Normal result, m2)
             /\ roundLoop now order rs cs m
                = roundLoop now (f_rest f)
                    (f_results f ++ [tagResult (f_jobName f) result])
                    (markCompleted (f_completed f) (f_jobName f)
                       (tagResult (f_jobName f) result))
                    m2
       end.
Proof.
  induction order as [|j order IH]; intros rs cs m.
  - exists (inr rs), m. split; [reflexivity|]. exists cs. reflexivity.
  - destruct (JsMap.get (jobs (sched m)) j) as [job|] eqn:Hj.
    + destruct (fst (checkDependencies (jobDependencies job) cs)) eqn:Hc.
      * rewrite (roundLoop_run now j job order rs cs m Hj Hc).
        cbn [advance]. unfold bind at 1. unfold gets at 1. cbn [sched].
        rewrite Hj.
        destruct (checkDependencies (jobDependencies job) cs) as [met reason].
        cbn [fst] in Hc. subst met. cbn [negb].
        cbv [bind log emit gets ret]. cbn [sched taskHeap world trace].
        eexists. eexists. split; [reflexivity|].
        cbn [f_job f_jobName f_startTime f_rest f_results f_completed
             world sched taskHeap trace].
        unfold jobOutcome, afterJob.
        destruct (execute job (world m)) as [[[]|v] w];
          cbv [executeJobBody tryCatch bind gets log emit ret];
          cbn [sched taskHeap world trace];
          eexists; eexists; (split; [reflexivity|]);
          rewrite <- !app_assoc; reflexivity.
      * rewrite (roundLoop_skip now j job order rs cs m Hj Hc).
        cbn [advance]. unfold bind at 1. unfold gets at 1. cbn [sched].
        rewrite Hj.
        destruct (checkDependencies (jobDependencies job) cs) as [met reason].
        cbn [fst snd] in *. subst met. cbn [negb].
        unfold bind at 1. unfold log, emit at 1. apply IH.
    + rewrite (roundLoop_absent now j order rs cs m Hj).
      cbn [advance]. unfold bind at 1. unfold gets at 1. cbn [sched].
      rewrite Hj. apply IH.
Qed.

End OrderClaims.

(** ** The claims on examples *)

Lemma allRegistered_sound g :
  allRegistered g = true -> dependenciesRegistered g.
Proof.
  unfold allRegistered. rewrite forallb_forall.
  intros H j d [ds [Hds Hd]].
  apply map_get_in in Hds. specialize (H (j, ds) Hds). simpl in H.
  rewrite forallb_forall in H. now apply map_has_true, H.
Qed.

Lemma distinct_sound l : distinct l = true -> NoDup l.
Proof.
  induction l as [|x l IH]; simpl; [constructor|].
  rewrite andb_true_iff, negb_true_iff, set_has_false.
  intros [H1 H2]. constructor; auto.
Qed.

Ltac by_evaluation := vm_compute; reflexivity.


Lemma getExecutionOrder_witness :
  uniqueKeys (jobs (sched pipelineMachine))
  /\ dependenciesRegistered (jobGraph (jobs (sched pipelineMachine)))
  /\ acyclic (jobGraph (jobs (sched pipelineMachine)))
  /\ exists order,
       getExecutionOrder pipelineMachine = (Normal order, pipelineMachine)
       /\ dependenciesFirst (jobGraph (jobs (sched pipelineMachine))) order.
Proof.
  assert (H1 : uniqueKeys (jobs (sched pipelineMachine)))
    by (apply distinct_sound; by_evaluation).
  assert (H2 : dependenciesRegistered
                 (jobGraph (jobs (sched pipelineMachine))))
    by (apply allRegistered_sound; by_evaluation).
  assert (H3 : acyclic (jobGraph (jobs (sched pipelineMachine))))
    by (apply detectCycle_complete; by_evaluation).
  split; [exact H1|]. split; [exact H2|]. split; [exact H3|].
  destruct (getExecutionOrder_is_topological pipelineMachine H1 H2 H3)
    as [order [Ho [_ [_ Hd]]]].
  exists order. split; [exact Ho|exact Hd].
Defined.

(** C2 as stated fails: this registry is acyclic, yet the order leaves
    its only job out. *)
Lemma getExecutionOrder_omits_orphan :
  uniqueKeys (jobs (sched orphanMachine))
  /\ acyclic (jobGraph (jobs (sched orphanMachine)))
  /\ In "X" (JsMap.keys (jobs (sched orphanMachine)))
  /\ getExecutionOrder orphanMachine = (Normal [], orphanMachine).
Proof.
  split; [apply distinct_sound; by_evaluation|].
  split; [apply detectCycle_complete; by_evaluation|].
  split; [vm_compute; auto|by_evaluation].
Qed.



Lemma registerJob_cycle_witness :
  sampleCron "0 * * * *" = true
  /\ jobDependencies selfJob <> []
  /\ (forall d, In d (jobDependencies selfJob) ->
        In d (JsMap.keys
                (JsMap.set (jobs (sched emptyMachine)) (name selfJob)
                           selfJob)))
  /\ ((exists j,
         fst (registerJob sampleCron selfJob "0 * * * *" true emptyMachine)
         = Throw (CircularDependency j))
      <-> cyclic (jobGraph (JsMap.set (jobs (sched emptyMachine))
                              (name selfJob) selfJob))).
Proof.
  assert (H1 : sampleCron "0 * * * *" = true) by by_evaluation.
  assert (H2 : jobDependencies selfJob <> []) by (vm_compute; discriminate).
  assert (H3 : forall d, In d (jobDependencies selfJob) ->
             In d (JsMap.keys
                     (JsMap.set (jobs (sched emptyMachine)) (name selfJob)
                                selfJob))).
  { vm_compute. intros d [<-|[]]. auto. }
  split; [exact H1|]. split; [exact H2|]. split; [exact H3|].
  exact (registerJob_throws_on_cycles sampleCron selfJob "0 * * * *"
           emptyMachine H1 H2 H3).
Defined.

(** C3 as stated fails: the registry holds a cycle, the new job declares
    no dependency, and the call returns. *)
Lemma registerJob_misses_old_cycle :
  (forall d, In d (jobDependencies plainJob) ->
      In d (JsMap.keys
              (JsMap.set (jobs (sched selfMachine)) (name plainJob)
                         plainJob)))
  /\ ~ ((exists j,
           fst (registerJob sampleCron plainJob "0 * * * *" true selfMachine)
           = Throw (CircularDependency j))
        <-> cyclic (jobGraph (JsMap.set (jobs (sched selfMachine))
                                (name plainJob) plainJob))).
Proof.
  split; [vm_compute; intros d []|].
  intros [_ H].
  destruct H as [j Hj].
  - exists "A". apply t_step. exists ["A"]. split; [by_evaluation|].
    simpl. auto.
  - vm_compute in Hj. discriminate.
Qed.

Lemma round_in_flight_witness :
  inFlight
    (runActions sampleNow sampleCron
       [CallRegisterJob parseJob "0 * * * *" true; CallExecuteRound]
       (initialSystem 0%Z)) <> []
  /\ executeJobsWithDependencies sampleNow
       (machine
          (runActions sampleNow sampleCron
             [CallRegisterJob parseJob "0 * * * *" true; CallExecuteRound]
             (initialSystem 0%Z)))
     = (Normal [],
        warned
          (machine
             (runActions sampleNow sampleCron
                [CallRegisterJob parseJob "0 * * * *" true; CallExecuteRound]
                (initialSystem 0%Z)))).
Proof.
  assert (H : inFlight
                (runActions sampleNow sampleCron
                   [CallRegisterJob parseJob "0 * * * *" true;
                    CallExecuteRound]
                   (initialSystem 0%Z)) <> [])
    by (vm_compute; discriminate).
  split; [exact H|].
  exact (proj1 (proj2 (proj2
           (round_in_flight_drops_other_rounds sampleNow sampleCron
              [CallRegisterJob parseJob "0 * * * *" true; CallExecuteRound]
              0%Z H)))).
Defined.

Lemma failed_registerJob_witness :
  fst (registerJob sampleCron orphanJob "0 * * * *" true emptyMachine)
  = Throw (DependencyNotFound "ghost" "X")
  /\ scheduleToJobs
       (sched (snd (registerJob sampleCron orphanJob "0 * * * *" true
                      emptyMachine)))
     = scheduleToJobs (sched emptyMachine)
  /\ jobs (sched (snd (registerJob sampleCron orphanJob "0 * * * *" true
                         emptyMachine)))
     = JsMap.set (jobs (sched emptyMachine)) (name orphanJob) orphanJob.
Proof.
  assert (H : fst (registerJob sampleCron orphanJob "0 * * * *" true
                     emptyMachine)
              = Throw (DependencyNotFound "ghost" "X")) by by_evaluation.
  split; [exact H|].
  destruct (failed_registerJob_keeps_the_job sampleCron orphanJob
              "0 * * * *" true emptyMachine
              (DependencyNotFound "ghost" "X") H) as [H1 [_ [_ [_ H5]]]].
  split; [exact H1|exact H5].
Defined.

(** C5 as stated fails: the call throws, and the job is in the registry
    afterwards and runs in the next round. *)
Lemma failed_registerJob_changes_registry :
  fst (registerJob sampleCron plainJob "every hour" true emptyMachine)
  = Throw (InvalidSchedule "every hour")
  /\ fst (hasJob "B" emptyMachine) = Normal false
  /\ fst (hasJob "B"
            (snd (registerJob sampleCron plainJob "every hour" true
                    emptyMachine))) = Normal true
  /\ jobs (sched (snd (registerJob sampleCron plainJob "every hour" true
                         emptyMachine)))
     <> jobs (sched emptyMachine)
  /\ In (Executed "B")
        (trace (snd (executeJobsWithDependencies sampleNow
                       (snd (registerJob sampleCron plainJob "every hour"
                               true emptyMachine))))).
Proof.
  split; [by_evaluation|]. split; [by_evaluation|]. split; [by_evaluation|].
  split; [vm_compute; discriminate|]. vm_compute. auto.
Qed.




Lemma executeJob_unknown_witness :
  JsMap.get (jobs (sched pipelineMachine)) "ghost" = None
  /\ exists r m',
       executeJob sampleNow "ghost" pipelineMachine = (Normal r, m')
       /\ success r = false
       /\ executionTime r = 0%Z
       /\ error r = Some (mkError "Job not found: ghost").
Proof.
  assert (H : JsMap.get (jobs (sched pipelineMachine)) "ghost" = None)
    by by_evaluation.
  split; [exact H|].
  destruct (executeJob_of_unknown_job sampleNow pipelineMachine "ghost" H)
    as [r [m' [H1 [H2 [H3 [H4 _]]]]]].
  exists r, m'. split; [exact H1|]. split; [exact H2|]. split; [exact H3|].
  exact H4.
Defined.

(** ** The execution order of an arbitrary registry *)

Lemma walk_repeat_member R l : forall x,
  walk R x l -> ~ NoDup (x :: l) ->
  exists c, In c (x :: l) /\ clos_trans string R c c.
Proof.
  induction l as [|y l IH]; intros x Hw Hnd.
  - exfalso. apply Hnd. constructor; [intros []|constructor].
  - destruct (in_dec string_dec x (y :: l)) as [Hin|Hin].
    + exists x. split; [left; reflexivity|]. eapply walk_reach; eauto.
    + destruct Hw as [_ Hw]. destruct (IH y Hw) as [c [Hc Hcyc]].
      * intros H. apply Hnd. now constructor.
      * exists c. split; [right; exact Hc|exact Hcyc].
Qed.

Lemma walk_within R (P : string -> Prop) :
  (forall x, P x -> exists y, R x y /\ P y) ->
  forall n x, P x ->
    exists l, length l = n /\ walk R x l /\ forall y, In y l -> P y.
Proof.
  intros Hstep. induction n as [|n IH]; intros x Hx.
  - exists []. repeat split. intros y [].
  - destruct (Hstep x Hx) as [y [Hxy Hy]].
    destruct (IH y Hy) as [l [Hlen [Hw Hl]]].
    exists (y :: l). simpl. repeat split; auto.
    intros z [<-|Hz]; auto.
Qed.

(** A property that holds of finitely many names and passes from each of
    them to a successor holds of a name on a cycle. *)
Lemma stuck_property_cycle R (P : string -> Prop) (S : list string) x :
  P x ->
  (forall y, P y -> In y S) ->
  (forall y, P y -> exists z, R y z /\ P z) ->
  exists c, P c /\ clos_trans string R c c.
Proof.
  intros Hx Hfin Hstep.
  destruct (walk_within R P Hstep (length S) x Hx) as [l [Hlen [Hw Hl]]].
  destruct (walk_repeat_member R l x Hw) as [c [Hc Hcyc]].
  - intros Hnd.
    assert (Hle : length (x :: l) <= length S).
    { apply NoDup_incl_length; auto. intros z [<-|Hz]; auto. }
    simpl in Hle. lia.
  - exists c. split; [|exact Hcyc]. destruct Hc as [<-|Hc]; auto.
Qed.

(** Along dependency edges the index in the order goes down. *)
Lemma order_index_descends g order x y :
  dependenciesFirst g order ->
  clos_trans string (dependsOn g) x y ->
  forall i, nth_error order i = Some x ->
    exists k, k < i /\ nth_error order k = Some y.
Proof.
  intros Hfirst H. induction H as [x y [ds [Hds Hd]]|x y z _ IH1 _ IH2];
    intros i Hi.
  - exact (Hfirst i x ds y Hi Hds Hd).
  - destruct (IH1 i Hi) as [k [Hk Hy]].
    destruct (IH2 k Hy) as [k' [Hk' Hz]].
    exists k'. split; [lia|exact Hz].
Qed.

Lemma order_closed g j x :
  uniqueKeys g ->
  In j (resolveDependencies g) -> reaches g j x ->
  In x (resolveDependencies g).
Proof.
  intros Hu Hj Hreach. apply clos_rt_rt1n in Hreach.
  induction Hreach as [|j d x [ds [Hds Hd]] _ IH]; auto.
  apply IH. exact (proj1 (resolve_ready g j ds Hu Hds) Hj d Hd).
Qed.

Lemma order_runnable g j :
  uniqueKeys g -> (In j (resolveDependencies g) <-> runnable g j).
Proof.
  intros Hu. split.
  - intros Hj x Hx.
    assert (Hin : In x (resolveDependencies g))
      by (eapply order_closed; eauto).
    split; [now apply resolve_registered|].
    intros Hcyc. apply In_nth_error in Hin as [i Hi].
    destruct (order_index_descends g _ x x
                (resolve_dependenciesFirst g Hu) Hcyc i Hi) as [k [Hk Hx']].
    assert (i = k); [|lia].
    apply (proj1 (NoDup_nth_error (resolveDependencies g))
             (resolve_nodup g Hu)); [|congruence].
    apply nth_error_Some. congruence.
  - intros Hrun.
    destruct (in_dec string_dec j (resolveDependencies g)) as [Hin|Hout]; auto.
    exfalso.
    destruct (stuck_property_cycle (dependsOn g)
                (fun x => reaches g j x /\ ~ In x (resolveDependencies g))
                (JsMap.keys g) j) as [c [[Hc _] Hcyc]].
    + split; [apply rt_refl|exact Hout].
    + intros y [Hy _]. now apply Hrun.
    + intros y [Hy Hn].
      destruct (map_in_keys_get g y (proj1 (Hrun y Hy))) as [ds Hds].
      assert (Hex : exists d, In d ds /\ ~ In d (resolveDependencies g)).
      { apply not_all_in_exists.
        now rewrite <- (resolve_ready g y ds Hu Hds). }
      destruct Hex as [d [Hd Hdn]].
      assert (Hdep : dependsOn g y d) by (exists ds; auto).
      exists d. split; [exact Hdep|]. split; [|exact Hdn].
      eapply rt_trans; [exact Hy|]. now apply rt_step.
    + exact (proj2 (Hrun c Hc) Hcyc).
Qed.

(** Every registered job is runnable exactly when the graph is valid. *)
Lemma all_runnable_valid g :
  (forall j, In j (JsMap.keys g) -> runnable g j)
  <-> dependenciesRegistered g /\ acyclic g.
Proof.
  split.
  - intros Hall. split.
    + intros j d Hdep.
      assert (Hj : In j (JsMap.keys g)).
      { destruct Hdep as [ds [Hds _]]. eapply map_get_in_keys; eauto. }
      apply (Hall j Hj d). now apply rt_step.
    + intros x Hcyc.
      destruct (clos_trans_first _ x x Hcyc) as [v [[ds [Hds _]] _]].
      assert (Hx : In x (JsMap.keys g)) by (eapply map_get_in_keys; eauto).
      exact (proj2 (Hall x Hx x (rt_refl _ _ _)) Hcyc).
  - intros [Hreg Hacyc] j Hj x Hx. split; [|apply Hacyc].
    apply clos_rt_rtn1 in Hx. destruct Hx as [|y z Hyz _]; auto.
    eapply Hreg; eauto.
Qed.

(** ** Validating the whole registry *)

Section ValidationProperties.

Context {World : Type}.

Implicit Types (m : Machine World) (job : Job World).

Lemma forEach_validate (l : list (Job World)) m :
  forEach (fun job => validateJobDependencies job) l m
  = (match firstRejection (jobs (sched m)) l with
     | Some v => Throw v
     | None => Normal tt
     end, m).
Proof.
  induction l as [|job l IH]; [reflexivity|].
  cbn [forEach firstRejection]. unfold bind at 1.
  rewrite validateJobDependencies_unfold.
  destruct (validationResult job (jobs (sched m))) as [[]|v]; [exact IH|].
  reflexivity.
Qed.

Lemma validateAllDependencies_unfold m :
  validateAllDependencies m
  = match firstRejection (jobs (sched m)) (JsMap.values (jobs (sched m))) with
    | Some v =>
        (Throw v,
         mkMachine (sched m) (taskHeap m) (world m)
           (trace m ++ [Logged Info "Validating all job dependencies"]))
    | None =>
        (Normal tt,
         mkMachine (sched m) (taskHeap m) (world m)
           (trace m
            ++ [Logged Info "Validating all job dependencies";
                Logged Info "All job dependencies validated successfully"]))
    end.
Proof.
  unfold validateAllDependencies.
  unfold bind at 1. unfold log at 1, emit at 1.
  unfold bind at 1. unfold gets at 1. cbn [sched].
  unfold bind at 1. rewrite forEach_validate. cbn [sched].
  destruct (firstRejection _ _); [reflexivity|].
  unfold log, emit. cbn [sched taskHeap world trace].
  now rewrite <- app_assoc.
Qed.

Lemma firstRejection_none (js : JsMap.t (Job World)) l :
  firstRejection js l = None
  <-> forall job, In job l -> validationResult job js = Normal tt.
Proof.
  induction l as [|job l IH]; simpl.
  - split; auto. intros _ job [].
  - destruct (validationResult job js) as [[]|v] eqn:E.
    + rewrite IH. split.
      * intros H x [<-|Hx]; auto.
      * intros H x Hx. auto.
    + split; [discriminate|]. intros H.
      specialize (H job (or_introl eq_refl)). congruence.
Qed.

Lemma firstRejection_some (js : JsMap.t (Job World)) l v :
  firstRejection js l = Some v ->
  exists job, In job l /\ validationResult job js = Throw v.
Proof.
  induction l as [|job l IH]; simpl; [discriminate|].
  destruct (validationResult job js) as [[]|v'] eqn:E.
  - intros H. destruct (IH H) as [x [Hx Hv]]. eauto.
  - intros [= ->]. eauto.
Qed.

Lemma values_get (js : JsMap.t (Job World)) job :
  In job (JsMap.values js) -> exists k, In (k, job) js.
Proof.
  unfold JsMap.values. rewrite in_map_iff. intros [[k x] [E H]].
  simpl in E. subst x. eauto.
Qed.

Lemma jobGraph_edge (js : JsMap.t (Job World)) j d :
  dependsOn (jobGraph js) j d
  <-> exists job, JsMap.get js j = Some job /\ In d (jobDependencies job).
Proof.
  unfold dependsOn. rewrite jobGraph_get. split.
  - intros [ds [Hds Hd]]. destruct (JsMap.get js j) as [job|]; [|discriminate].
    injection Hds as <-. eauto.
  - intros [job [Hj Hd]]. rewrite Hj. simpl. eauto.
Qed.

Lemma validationResult_normal (js : JsMap.t (Job World)) job :
  validationResult job js = Normal tt
  <-> jobDependencies job = []
      \/ ((forall d, In d (jobDependencies job) -> In d (JsMap.keys js))
          /\ detectCycle (jobGraph js) = None).
Proof.
  unfold validationResult.
  destruct (jobDependencies job) as [|d0 ds] eqn:Hdeps.
  - split; auto.
  - destruct (firstUnregistered js (d0 :: ds)) as [d|] eqn:Hfirst.
    + split; [discriminate|]. intros [H|[H _]]; [discriminate|].
      apply firstUnregistered_none in H. congruence.
    + pose proof (proj1 (firstUnregistered_none js _) Hfirst) as Hall.
      destruct (detectCycle (jobGraph js)) as [j|].
      * split; [discriminate|]. intros [H|[_ H]]; discriminate.
      * split; auto.
Qed.

Lemma validationResult_throw (js : JsMap.t (Job World)) job v :
  validationResult job js = Throw v ->
  (exists d, In d (jobDependencies job) /\ ~ In d (JsMap.keys js)
             /\ v = DependencyNotFound d (name job))
  \/ (exists j, detectCycle (jobGraph js) = Some j
                /\ v = CircularDependency j).
Proof.
  unfold validationResult.
  destruct (jobDependencies job) as [|d0 ds] eqn:Hdeps; [discriminate|].
  destruct (firstUnregistered js (d0 :: ds)) as [d|] eqn:Hfirst.
  - intros [= <-]. left. exists d.
    apply firstUnregistered_some in Hfirst as [before [after [E [_ Hd]]]].
    split; [|split; auto]. rewrite E. apply in_or_app. simpl. auto.
  - destruct (detectCycle (jobGraph js)) as [j|]; [|discriminate].
    intros [= <-]. right. eauto.
Qed.

(** The loop accepts every job exactly when the graph is valid. *)
Lemma firstRejection_valid (js : JsMap.t (Job World)) :
  uniqueKeys js ->
  firstRejection js (JsMap.values js) = None
  <-> dependenciesRegistered (jobGraph js) /\ acyclic (jobGraph js).
Proof.
  intros Hu. rewrite firstRejection_none. split.
  - intros Hall.
    assert (Hreg : dependenciesRegistered (jobGraph js)).
    { intros j d Hdep. apply jobGraph_edge in Hdep as [job [Hj Hd]].
      rewrite jobGraph_keys.
      assert (Hin : In job (JsMap.values js)).
      { apply map_get_in in Hj. unfold JsMap.values.
        apply in_map_iff. exists (j, job). auto. }
      apply Hall in Hin.
      apply (proj1 (validationResult_normal js job)) in Hin as [E|[H _]];
        [|auto].
      rewrite E in Hd. destruct Hd. }
    split; [exact Hreg|].
    intros x Hcyc.
    destruct (clos_trans_first _ x x Hcyc) as [d [Hdep _]].
    apply jobGraph_edge in Hdep as [job [Hj Hd]].
    assert (Hin : In job (JsMap.values js)).
    { apply map_get_in in Hj. unfold JsMap.values.
      apply in_map_iff. exists (x, job). auto. }
    apply Hall in Hin.
    apply (proj1 (validationResult_normal js job)) in Hin as [E|[_ Hnone]].
    + rewrite E in Hd. destruct Hd.
    + assert (Hex : exists j, detectCycle (jobGraph js) = Some j)
        by (apply detectCycle_correct; exists x; exact Hcyc).
      destruct Hex as [j Hj']. congruence.
  - intros [Hreg Hacyc] job Hin.
    apply validationResult_normal.
    destruct (jobDependencies job) as [|d0 ds] eqn:Hdeps; [auto|right].
    split.
    + apply values_get in Hin as [k Hk].
      intros d Hd. rewrite <- (jobGraph_keys js).
      apply (Hreg k d). apply jobGraph_edge. exists job.
      split; [now apply map_in_get|]. rewrite Hdeps. exact Hd.
    + destruct (detectCycle (jobGraph js)) as [j|] eqn:E; [|reflexivity].
      exfalso.
      assert (Hc : cyclic (jobGraph js))
        by (apply detectCycle_correct; eauto).
      destruct Hc as [x Hx]. exact (Hacyc x Hx).
Qed.

(** X18. [validateAllDependencies()] returns exactly when every declared
    dependency of every registered job is registered and no job reaches
    itself. When it throws, the error names a registered job and one of
    its dependencies that is not registered, or a registered job of a
    registry that holds a cycle. The call changes nothing but the log. *)
Theorem validateAllDependencies_accepts_valid_graphs m :
  uniqueKeys (jobs (sched m)) ->
  (fst (validateAllDependencies m) = Normal tt
   <-> dependenciesRegistered (jobGraph (jobs (sched m)))
       /\ acyclic (jobGraph (jobs (sched m))))
  /\ (forall v,
        fst (validateAllDependencies m) = Throw v ->
        (exists job d,
           In job (JsMap.values (jobs (sched m)))
           /\ In d (jobDependencies job)
           /\ ~ In d (JsMap.keys (jobs (sched m)))
           /\ v = DependencyNotFound d (name job))
        \/ (exists j,
              In j (JsMap.keys (jobs (sched m)))
              /\ cyclic (jobGraph (jobs (sched m)))
              /\ v = CircularDependency j))
  /\ sched (snd (validateAllDependencies m)) = sched m
  /\ taskHeap (snd (validateAllDependencies m)) = taskHeap m
  /\ world (snd (validateAllDependencies m)) = world m.
Proof.
  intros Hu. rewrite validateAllDependencies_unfold.
  pose proof (firstRejection_valid (jobs (sched m)) Hu) as Hvalid.
  destruct (firstRejection (jobs (sched m)) (JsMap.values (jobs (sched m))))
    as [v0|] eqn:E; cbn [fst snd sched taskHeap world].
  - split; [|split; [|auto]].
    + split; [discriminate|]. intros H. apply Hvalid in H. discriminate.
    + intros v [= <-].
      apply firstRejection_some in E as [job [Hin Hv]].
      apply validationResult_throw in Hv as [[d [Hd [Hn Hv]]]|[j [Hj Hv]]].
      * left. exists job, d. auto.
      * right. exists j.
        destruct (detectCycle_sound _ _ Hj) as [Hcyc Hkey].
        rewrite jobGraph_keys in Hkey. auto.
  - split; [|split; [|auto]].
    + split; [intros _; now apply Hvalid|reflexivity].
    + intros v [=].
Qed.

(** X19. [validateAllDependencies()] returns exactly when the order of
    [getExecutionOrder()] holds every name of [getJobs()]: a registry
    that passes the check has no job that a round leaves out, and a
    registry that fails it has one. *)
Theorem validated_registry_is_scheduled_in_full m :
  uniqueKeys (jobs (sched m)) ->
  exists names order,
    getJobs m = (Normal names, m)
    /\ getExecutionOrder m = (Normal order, m)
    /\ (fst (validateAllDependencies m) = Normal tt
        <-> forall j, In j names -> In j order).
Proof.
  intros Hu.
  exists (JsMap.keys (jobs (sched m))),
         (resolveDependencies (jobGraph (jobs (sched m)))).
  split; [reflexivity|]. split; [reflexivity|].
  rewrite validateAllDependencies_unfold.
  pose proof (firstRejection_valid (jobs (sched m)) Hu) as Hvalid.
  pose proof (all_runnable_valid (jobGraph (jobs (sched m)))) as Hrun.
  rewrite jobGraph_keys in Hrun.
  assert (Hg : uniqueKeys (jobGraph (jobs (sched m))))
    by now apply jobGraph_unique.
  assert (Hiff : (forall j, In j (JsMap.keys (jobs (sched m))) ->
                    In j (resolveDependencies (jobGraph (jobs (sched m)))))
                 <-> dependenciesRegistered (jobGraph (jobs (sched m)))
                     /\ acyclic (jobGraph (jobs (sched m)))).
  { rewrite <- Hrun. split; intros H j Hj.
    - apply order_runnable; auto.
    - apply order_runnable; auto. }
  rewrite Hiff, <- Hvalid.
  destruct (firstRejection _ _); cbn [fst]; split; congruence.
Qed.

(** X1. For every registry, valid or not, [getExecutionOrder()] returns
    without duplicates, dependencies first, exactly the registered jobs
    from which neither a name that is not registered nor a job on a
    cycle can be reached along dependencies. *)
Theorem getExecutionOrder_lists_the_runnable_jobs m :
  uniqueKeys (jobs (sched m)) ->
  exists order,
    getExecutionOrder m = (Normal order, m)
    /\ NoDup order
    /\ dependenciesFirst (jobGraph (jobs (sched m))) order
    /\ (forall j, In j order <-> runnable (jobGraph (jobs (sched m))) j).
Proof.
  intros Hu.
  assert (Hg : uniqueKeys (jobGraph (jobs (sched m))))
    by now apply jobGraph_unique.
  exists (resolveDependencies (jobGraph (jobs (sched m)))).
  split; [reflexivity|]. split; [now apply resolve_nodup|].
  split; [now apply resolve_dependenciesFirst|].
  intros j. now apply order_runnable.
Qed.

End ValidationProperties.

(** ** Which jobs a round runs *)

Lemma executions_app ev1 ev2 j :
  executions (ev1 ++ ev2) j = executions ev1 j + executions ev2 j.
Proof.
  unfold executions. now rewrite filter_app, length_app.
Qed.

Lemma executions_none ev j : ~ In (Executed j) ev -> executions ev j = 0.
Proof.
  unfold executions. induction ev as [|e ev IH]; intros Hn; [reflexivity|].
  simpl. destruct e as [level text|x]; simpl.
  - apply IH. intros H. apply Hn. now right.
  - destruct (String.eqb x j) eqn:E.
    + apply String.eqb_eq in E. subst x. exfalso. apply Hn. now left.
    + apply IH. intros H. apply Hn. now right.
Qed.


Section RoundProperties.

Context {World : Type}.
Variable now : World -> Z.

Implicit Types (m : Machine World) (job : Job World).

(** The turn of one job of the order: what was done before it, what is
    done for it, and what follows. *)
Lemma loop_turn l1 j l2 job results cs m m' :
  NoDup (l1 ++ j :: l2) ->
  (forall x, In x (l1 ++ j :: l2) -> In x (JsMap.keys (jobs (sched m)))) ->
  JsMap.get (jobs (sched m)) j = Some job ->
  roundLoop now (l1 ++ j :: l2) [] [] m = (Normal (results, cs), m') ->
  exists rs1 r rs2 cs1 m1 ev1 evj ev2,
    results = rs1 ++ r :: rs2
    /\ map jobName rs1 = map Some l1
    /\ map jobName rs2 = map Some l2
    /\ trace m' = trace m ++ ev1 ++ evj ++ ev2
    /\ ~ In (Executed j) ev1
    /\ ~ In (Executed j) ev2
    /\ (forall x, In x cs1 <-> succeededIn rs1 x)
    /\ sched m1 = sched m
    /\ ((fst (checkDependencies (jobDependencies job) cs1) = true
         /\ r = tagResult j (jobOutcome now j job m1)
         /\ executions evj j = 1)
        \/ (fst (checkDependencies (jobDependencies job) cs1) = false
            /\ r = skippedResult j
                     (snd (checkDependencies (jobDependencies job) cs1))
            /\ executions evj j = 0)).
Proof.
  intros Hnd Hreg Hj Hrun.
  assert (Hj1 : ~ In j l1).
  { intros H. apply NoDup_remove_2 in Hnd. apply Hnd. apply in_or_app. auto. }
  assert (Hj2 : ~ In j l2).
  { intros H. apply NoDup_remove_2 in Hnd. apply Hnd. apply in_or_app. auto. }
  rewrite roundLoop_app in Hrun.
  destruct (roundLoop_total now l1 [] [] m)
    as [rs1 [cs1 [m1 [ev1 [Heq1 Hrun1]]]]].
  rewrite Heq1 in Hrun. cbn [fst snd app] in Hrun.
  destruct Hrun1 as [Hs1 Hh1 Ht1 He1 Hn1 Hc1 Ha1].
  assert (Hcs1 : forall x, In x cs1 <-> succeededIn rs1 x).
  { intros x. rewrite Hc1. split; auto. intros [[]|H]; auto. }
  assert (Hj' : JsMap.get (jobs (sched m1)) j = Some job) by now rewrite Hs1.
  assert (Hal1 : map jobName rs1 = map Some l1).
  { apply Ha1. intros x Hx. apply Hreg. apply in_or_app. auto. }
  destruct (fst (checkDependencies (jobDependencies job) cs1)) eqn:Hc.
  - rewrite (roundLoop_run now j job l2 rs1 cs1 m1 Hj' Hc) in Hrun.
    destruct (roundLoop_total now l2
                (rs1 ++ [tagResult j (jobOutcome now j job m1)])
                (markCompleted cs1 j (tagResult j (jobOutcome now j job m1)))
                (afterJob j job m1)) as [rs2 [cs2 [m2 [ev2 [Heq2 Hrun2]]]]].
    rewrite Heq2 in Hrun. injection Hrun as Hres _ Hm. subst m'.
    destruct Hrun2 as [Hs2 Hh2 Ht2 He2 Hn2 Hc2 Ha2].
    destruct (afterJob_sched j job m1) as [Hsj _].
    exists rs1, (tagResult j (jobOutcome now j job m1)), rs2, cs1, m1, ev1.
    exists [Logged Info ("Executing job: " ++ j)%string; Executed j;
            match fst (execute job (world m1)) with
            | Normal _ =>
                Logged Info ("Job completed successfully: " ++ j)%string
            | Throw _ => Logged Error ("Job failed: " ++ j)%string
            end], ev2.
    split; [now rewrite <- Hres, <- app_assoc|].
    split; [exact Hal1|].
    split.
    { apply Ha2. rewrite Hsj, Hs1. intros x Hx. apply Hreg.
      apply in_or_app. simpl. auto. }
    split.
    { rewrite Ht2. unfold afterJob.
      destruct (execute job (world m1)) as [c w]. cbn [trace fst].
      rewrite Ht1, <- !app_assoc. reflexivity. }
    split; [intros H; now apply Hj1, He1|].
    split; [intros H; now apply Hj2, He2|].
    split; [exact Hcs1|]. split; [exact Hs1|].
    left. split; [exact Hc|]. split; [reflexivity|].
    unfold executions. cbn [filter isExecution]. rewrite String.eqb_refl.
    destruct (fst (execute job (world m1))); reflexivity.
  - rewrite (roundLoop_skip now j job l2 rs1 cs1 m1 Hj' Hc) in Hrun.
    match type of Hrun with
    | roundLoop now l2 ?rs ?cs ?mm = _ =>
        destruct (roundLoop_total now l2 rs cs mm)
          as [rs2 [cs2 [m2 [ev2 [Heq2 Hrun2]]]]]
    end.
    rewrite Heq2 in Hrun. injection Hrun as Hres _ Hm. subst m'.
    destruct Hrun2 as [Hs2 Hh2 Ht2 He2 Hn2 Hc2 Ha2]. cbn [trace sched] in *.
    exists rs1,
      (skippedResult j (snd (checkDependencies (jobDependencies job) cs1))),
      rs2, cs1, m1, ev1.
    exists [Logged Warn
              ("Skipping job " ++ j ++ ": "
               ++ snd (checkDependencies (jobDependencies job) cs1))%string],
           ev2.
    split; [now rewrite <- Hres, <- app_assoc|].
    split; [exact Hal1|].
    split.
    { apply Ha2. rewrite Hs1. intros x Hx. apply Hreg.
      apply in_or_app. simpl. auto. }
    split; [rewrite Ht2, Ht1, <- !app_assoc; reflexivity|].
    split; [intros H; now apply Hj1, He1|].
    split; [intros H; now apply Hj2, He2|].
    split; [exact Hcs1|]. split; [exact Hs1|].
    right. split; [exact Hc|]. split; reflexivity.
Qed.


Lemma named_in (rs : list JobResult) (l : list string) r x :
  map jobName rs = map Some l -> In r rs -> jobName r = Some x -> In x l.
Proof.
  intros Hmap Hin Hname.
  assert (H : In (Some x) (map Some l)).
  { rewrite <- Hmap, <- Hname. now apply in_map. }
  apply in_map_iff in H as [y [[= ->] Hy]]. exact Hy.
Qed.

Lemma setIsExecuting_reset (s : JobScheduler World) :
  isExecuting s = false ->
  setIsExecuting false (setIsExecuting true s) = s.
Proof.
  destruct s as [js ts gs b]. simpl. now intros ->.
Qed.

(** A round that is not dropped, and the turn of each job of its order. *)
Lemma round_turn m :
  uniqueKeys (jobs (sched m)) ->
  isExecuting (sched m) = false ->
  exists results m' events,
    executeJobsWithDependencies now m = (Normal results, m')
    /\ trace m' = trace m ++ events
    /\ sched m' = sched m
    /\ taskHeap m' = taskHeap m
    /\ (forall x, In (Executed x) events ->
          In x (resolveDependencies (jobGraph (jobs (sched m)))))
    /\ map jobName results
       = map Some (resolveDependencies (jobGraph (jobs (sched m))))
    /\ forall l1 j l2 job,
         resolveDependencies (jobGraph (jobs (sched m))) = l1 ++ j :: l2 ->
         JsMap.get (jobs (sched m)) j = Some job ->
         exists rs1 r rs2 cs1 m1,
           results = rs1 ++ r :: rs2
           /\ map jobName rs1 = map Some l1
           /\ map jobName rs2 = map Some l2
           /\ (forall x, In x cs1 <-> succeededIn rs1 x)
           /\ ((fst (checkDependencies (jobDependencies job) cs1) = true
                /\ r = tagResult j (jobOutcome now j job m1)
                /\ executions events j = 1)
               \/ (fst (checkDependencies (jobDependencies job) cs1) = false
                   /\ r = skippedResult j
                            (snd (checkDependencies (jobDependencies job)
                                    cs1))
                   /\ executions events j = 0)).
Proof.
  intros Hu Hf.
  assert (Hg : uniqueKeys (jobGraph (jobs (sched m))))
    by now apply jobGraph_unique.
  assert (Hreg : forall x,
             In x (resolveDependencies (jobGraph (jobs (sched m)))) ->
             In x (JsMap.keys (jobs (sched (roundStart m))))).
  { intros x Hx. apply resolve_registered in Hx; auto.
    now rewrite jobGraph_keys in Hx. }
  destruct (round_total now m Hf)
    as [results [cs [m1 [ev [Hloop [Hrun Hround]]]]]].
  destruct Hrun as [Hs Hh Ht He Hn Hc Ha].
  exists results, (roundEnd m1),
    ([Logged Info "Executing jobs with dependency resolution"] ++ ev).
  split; [exact Hround|].
  split.
  { cbn [roundEnd trace]. rewrite Ht. cbn [roundStart trace].
    now rewrite <- app_assoc. }
  split.
  { cbn [roundEnd sched]. rewrite Hs. cbn [roundStart sched].
    now apply setIsExecuting_reset. }
  split; [cbn [roundEnd taskHeap]; now rewrite Hh|].
  split.
  { intros x [Hx|Hx]; [discriminate|]. now apply He. }
  split; [now apply Ha|].
  intros l1 j l2 job Horder Hj.
  rewrite Horder in Hloop, Hreg.
  destruct (loop_turn l1 j l2 job results cs (roundStart m) m1)
    as [rs1 [r [rs2 [cs1 [m2 [ev1 [evj [ev2 H]]]]]]]]; auto.
  { rewrite <- Horder. now apply resolve_nodup. }
  destruct H as [Hres [Ha1 [Ha2 [Htr [Hn1 [Hn2 [Hcs [Hs2 Hcase]]]]]]]].
  exists rs1, r, rs2, cs1, m2.
  split; [exact Hres|]. split; [exact Ha1|]. split; [exact Ha2|].
  split; [exact Hcs|].
  assert (Hev : ev = ev1 ++ evj ++ ev2).
  { rewrite Ht in Htr. now apply app_inv_head in Htr. }
  assert (Hcount : executions
                     ([Logged Info "Executing jobs with dependency resolution"]
                      ++ ev) j = executions evj j).
  { rewrite Hev, !executions_app.
    rewrite (executions_none ev1 j Hn1), (executions_none ev2 j Hn2).
    cbn. lia. }
  rewrite Hcount. exact Hcase.
Qed.



Lemma turn_result_name j job m1 reason r :
  r = tagResult j (jobOutcome now j job m1) \/ r = skippedResult j reason ->
  jobName r = Some j.
Proof.
  intros [->| ->]; reflexivity.
Qed.








Lemma roundLoop_withTimers ts gs h order : forall rs cs m,
  roundLoop now order rs cs (withTimers ts gs h m)
  = (fst (roundLoop now order rs cs m),
     withTimers ts gs h (snd (roundLoop now order rs cs m))).
Proof.
  induction order as [|j order IH]; intros rs cs m; [reflexivity|].
  destruct (JsMap.get (jobs (sched m)) j) as [job|] eqn:Hj.
  - destruct (fst (checkDependencies (jobDependencies job) cs)) eqn:Hc.
    + rewrite (roundLoop_run now j job order rs cs m Hj Hc).
      rewrite (roundLoop_run now j job order rs cs (withTimers ts gs h m)
                 Hj Hc).
      rewrite <- IH. f_equal.
      unfold afterJob, withTimers. cbn [world sched taskHeap trace jobs].
      destruct (execute job (world m)) as [c w]. reflexivity.
    + rewrite (roundLoop_skip now j job order rs cs m Hj Hc).
      rewrite (roundLoop_skip now j job order rs cs (withTimers ts gs h m)
                 Hj Hc).
      rewrite <- IH. reflexivity.
  - rewrite (roundLoop_absent now j order rs cs m Hj).
    rewrite (roundLoop_absent now j order rs cs (withTimers ts gs h m) Hj).
    apply IH.
Qed.

(** X5. A round reads nothing but the registry: with any other schedule
    groups, timers and task objects it returns the same results, runs
    the same jobs and logs the same lines, and it leaves them as they
    are. A trigger therefore runs every registered job, whatever the
    expression that fired and whatever group a job is in. *)
Theorem round_ignores_schedule_groups m ts gs h :
  executeJobsWithDependencies now (withTimers ts gs h m)
  = (fst (executeJobsWithDependencies now m),
     withTimers ts gs h (snd (executeJobsWithDependencies now m))).
Proof.
  destruct (isExecuting (sched m)) eqn:Hf.
  - rewrite (round_busy now m Hf).
    rewrite (round_busy now (withTimers ts gs h m) Hf). reflexivity.
  - rewrite (round_unfold now m Hf).
    rewrite (round_unfold now (withTimers ts gs h m) Hf).
    change (roundStart (withTimers ts gs h m))
      with (withTimers ts gs h (roundStart m)).
    change (jobs (sched (withTimers ts gs h m))) with (jobs (sched m)).
    rewrite roundLoop_withTimers.
    destruct (roundLoop now _ [] [] (roundStart m)) as [[p|v] m1];
      reflexivity.
Qed.

End RoundProperties.

(** ** Starting and stopping the timers *)

Section TimerProperties.

Context {World : Type}.
Variable now : World -> Z.
Variable cronValidate : string -> bool.

Implicit Types (m : Machine World) (s : System World).

Lemma armAll_sets b entries : forall h r t',
  In r (map snd entries) ->
  nth_error (armAll b entries h) r = Some t' -> taskRunning t' = b.
Proof.
  unfold armAll.
  induction entries as [|[e ref] entries IH]; intros h r t' Hin H.
  - destruct Hin.
  - cbn [fold_left snd] in H.
    destruct (in_dec Nat.eq_dec r (map snd entries)) as [Hin'|Hout].
    + eapply IH; eauto.
    + destruct Hin as [Hin|Hin]; [|contradiction]. simpl in Hin. subst ref.
      apply (armAll_nth b entries) in H as [t1 [H1 [_ H3]]].
      rewrite heapUpdate_nth, Nat.eqb_refl in H1.
      destruct (nth_error h r) as [t|]; [|discriminate].
      injection H1 as <-. destruct H3 as [H3|[_ H3]]; auto.
Qed.

Lemma nodup_singleton (l : list nat) x :
  NoDup l -> In x l -> (forall y, In y l -> y = x) -> l = [x].
Proof.
  intros Hnd Hin Hall. destruct l as [|a [|b l]].
  - destruct Hin.
  - f_equal. apply Hall. now left.
  - exfalso. inversion Hnd; subst. apply H1.
    rewrite (Hall a), (Hall b); simpl; auto.
Qed.

Lemma stateAfter_timers actions w :
  TimerInv (stateAfter now cronValidate actions w).
Proof.
  apply runActions_timers, initial_timers.
Qed.

Lemma held_timer_in_entries m e ref :
  uniqueKeys (scheduledTasks (sched m)) ->
  JsMap.get (scheduledTasks (sched m)) e = Some ref ->
  In ref (map snd (scheduledTasks (sched m))).
Proof.
  intros _ H. apply map_get_in in H. apply in_map_iff. exists (e, ref). auto.
Qed.

(** After the loop of [start()]: the timer of every group is started,
    and nothing else. *)
Lemma armAll_starts m events e :
  TimerInv m ->
  (groupMembers m e <> [] ->
   exists ref,
     timersFor (mkMachine (sched m)
                  (armAll true (scheduledTasks (sched m)) (taskHeap m))
                  (world m) (trace m ++ events)) e = [ref]
     /\ armedTimers (mkMachine (sched m)
                       (armAll true (scheduledTasks (sched m)) (taskHeap m))
                       (world m) (trace m ++ events)) e = [ref])
  /\ (groupMembers m e = [] ->
      armedTimers (mkMachine (sched m)
                     (armAll true (scheduledTasks (sched m)) (taskHeap m))
                     (world m) (trace m ++ events)) e = []).
Proof.
  intros Hinv.
  pose proof (armAll_timers true m events Hinv) as Hinv'.
  set (m' := mkMachine (sched m) _ (world m) (trace m ++ events)) in *.
  assert (Hgroups : groupMembers m' e = groupMembers m e) by reflexivity.
  destruct (timers_of_group m' e Hinv') as [Hsome Hnone].
  rewrite Hgroups in Hsome, Hnone. split.
  - intros Hne. destruct (Hsome Hne) as [ref [Href [Hall _]]].
    exists ref. split; [exact Href|].
    apply nodup_singleton; [apply armedFrom_nodup| |exact Hall].
    destruct Hinv as [Ht Hg Hk Hm Hr Ha].
    assert (Hget : JsMap.get (scheduledTasks (sched m)) e = Some ref).
    { change (timersFor m' e) with (timersFor m e) in Href.
      rewrite (timersFor_get m e Ht) in Href.
      destruct (JsMap.get (scheduledTasks (sched m)) e);
        [congruence|discriminate]. }
    destruct (Hr e ref Hget) as [t [Hnth Hexp]].
    destruct (armAll_some true (scheduledTasks (sched m)) _ ref t Hnth)
      as [t' Ht'].
    apply armedTimers_in. exists t'. cbn [m' taskHeap].
    split; [exact Ht'|]. split.
    + apply armAll_nth in Ht' as [t0 [H1 [H2 _]]]. congruence.
    + eapply armAll_sets; [|exact Ht'].
      eapply held_timer_in_entries; eauto.
  - intros Hnil. exact (proj2 (Hnone Hnil)).
Qed.

(** X6. [start()] never throws and leaves the registry, the groups and
    the timers the scheduler holds as they are; after it, every
    expression with a job in its group has its one timer started, and an
    expression without one has no timer started. *)
Theorem start_starts_the_timer_of_every_group actions w :
  fst (start (stateAfter now cronValidate actions w)) = Normal tt
  /\ sched (snd (start (stateAfter now cronValidate actions w)))
     = sched (stateAfter now cronValidate actions w)
  /\ forall e,
       (groupMembers (stateAfter now cronValidate actions w) e <> [] ->
        exists ref,
          timersFor (snd (start (stateAfter now cronValidate actions w))) e
          = [ref]
          /\ armedTimers (snd (start (stateAfter now cronValidate actions w)))
               e = [ref])
       /\ (groupMembers (stateAfter now cronValidate actions w) e = [] ->
           armedTimers (snd (start (stateAfter now cronValidate actions w)))
             e = []).
Proof.
  pose proof (stateAfter_timers actions w) as Hinv.
  set (m := stateAfter now cronValidate actions w) in *.
  destruct (start_unfold m) as [events Hstart]. rewrite Hstart.
  cbn [fst snd sched].
  split; [reflexivity|]. split; [reflexivity|].
  intros e. now apply armAll_starts.
Qed.

(** After the loop of [stop()] no task object is started. *)
Lemma armAll_stops_all m ref t :
  TimerInv m ->
  nth_error (armAll false (scheduledTasks (sched m)) (taskHeap m)) ref
  = Some t ->
  taskRunning t = false.
Proof.
  intros Hinv Hnth.
  destruct (taskRunning t) eqn:Hrun; [|reflexivity].
  destruct Hinv as [Ht Hg Hk Hm Hr Ha].
  pose proof Hnth as Hnth'.
  apply armAll_nth in Hnth as [t0 [H1 [H2 H3]]].
  destruct H3 as [H3|[_ H3]]; [|congruence].
  assert (Hget : JsMap.get (scheduledTasks (sched m)) (taskExpression t0)
                 = Some ref) by (apply Ha; congruence).
  rewrite <- Hrun. eapply armAll_sets; [|exact Hnth'].
  eapply held_timer_in_entries; eauto.
Qed.

Lemma quiet_heap_unarmed m e :
  (forall ref t,
     nth_error (taskHeap m) ref = Some t -> taskRunning t = false) ->
  armedTimers m e = [].
Proof.
  intros Hq.
  destruct (armedTimers m e) as [|r l] eqn:E; [reflexivity|].
  assert (Hin : In r (armedTimers m e)) by (rewrite E; now left).
  apply armedTimers_in in Hin as [t [H1 [_ H3]]].
  rewrite (Hq r t H1) in H3. discriminate.
Qed.

(** X7. [stop()] never throws and leaves the registry, the groups and
    the timers the scheduler holds as they are; after it no task object
    is started, for any expression. *)
Theorem stop_stops_every_timer actions w :
  fst (stop (stateAfter now cronValidate actions w)) = Normal tt
  /\ sched (snd (stop (stateAfter now cronValidate actions w)))
     = sched (stateAfter now cronValidate actions w)
  /\ (forall e,
        armedTimers (snd (stop (stateAfter now cronValidate actions w))) e
        = [])
  /\ (forall ref t,
        nth_error
          (taskHeap (snd (stop (stateAfter now cronValidate actions w)))) ref
        = Some t ->
        taskRunning t = false).
Proof.
  pose proof (stateAfter_timers actions w) as Hinv.
  set (m := stateAfter now cronValidate actions w) in *.
  destruct (stop_unfold m) as [events Hstop]. rewrite Hstop.
  cbn [fst snd sched].
  split; [reflexivity|]. split; [reflexivity|].
  assert (Hall : forall ref t,
            nth_error
              (taskHeap
                 (mkMachine (sched m)
                    (armAll false (scheduledTasks (sched m)) (taskHeap m))
                    (world m) (trace m ++ events))) ref = Some t ->
            taskRunning t = false).
  { intros ref t. cbn [taskHeap]. now apply armAll_stops_all. }
  split; [|exact Hall].
  intros e. now apply quiet_heap_unarmed.
Qed.

Lemma registerJob_success job e validate m :
  fst (registerJob cronValidate job e validate m) = Normal tt ->
  snd (registerJob cronValidate job e validate m)
  = afterSchedule e (name job) (afterSet job m).
Proof.
  rewrite registerJob_unfold.
  destruct (negb (cronValidate e)); [discriminate|].
  destruct (if validate then _ else _) as [[]|v]; [reflexivity|discriminate].
Qed.

(** X8. A call of [registerJob] that returns has put the job into the
    registry under its name and into the group of its expression, next
    to the jobs that were in it, and has left the other groups alone.
    For an expression that had a group it creates no timer; for a new
    expression it creates one task object, not started, and holds it as
    the timer of the expression. *)
Theorem registerJob_joins_the_group_of_its_expression job e validate m :
  fst (registerJob cronValidate job e validate m) = Normal tt ->
  JsMap.get (jobs (sched (snd (registerJob cronValidate job e validate m))))
    (name job) = Some job
  /\ (forall x,
        In x (groupMembers (snd (registerJob cronValidate job e validate m)) e)
        <-> In x (groupMembers m e) \/ x = name job)
  /\ (forall e', e' <> e ->
        groupMembers (snd (registerJob cronValidate job e validate m)) e'
        = groupMembers m e')
  /\ (JsMap.has (scheduleToJobs (sched m)) e = true ->
      scheduledTasks (sched (snd (registerJob cronValidate job e validate m)))
      = scheduledTasks (sched m)
      /\ taskHeap (snd (registerJob cronValidate job e validate m))
         = taskHeap m)
  /\ (JsMap.has (scheduleToJobs (sched m)) e = false ->
      scheduledTasks (sched (snd (registerJob cronValidate job e validate m)))
      = JsMap.set (scheduledTasks (sched m)) e (length (taskHeap m))
      /\ taskHeap (snd (registerJob cronValidate job e validate m))
         = taskHeap m ++ [mkTask e false]).
Proof.
  intros Hok. rewrite (registerJob_success job e validate m Hok).
  unfold afterSchedule, groupMembers, JsMap.has.
  cbn [afterSet sched scheduleToJobs setJobs taskHeap].
  destruct (JsMap.get (scheduleToJobs (sched m)) e) as [jobSet|] eqn:Hge;
    cbn [sched jobs scheduleToJobs scheduledTasks setScheduleToJobs setJobs
         taskHeap].
  - split; [apply map_get_set_same|].
    split.
    { intros x. rewrite map_get_set_same. apply set_add_iff. }
    split.
    { intros e' Hne. rewrite map_get_set_other by auto. reflexivity. }
    split; [auto|discriminate].
  - split; [apply map_get_set_same|].
    split.
    { intros x. rewrite map_get_set_same. rewrite set_add_iff. reflexivity. }
    split.
    { intros e' Hne. rewrite !map_get_set_other by auto. reflexivity. }
    split; [discriminate|auto].
Qed.

(** X9. A job registered under an expression that has no group gets a
    timer that is not started, whatever was called before: after
    [start()] too, the new timer fires only once [start()] is called
    again. *)
Theorem timer_of_a_new_expression_is_not_started actions w job e validate :
  JsMap.has (scheduleToJobs (sched (stateAfter now cronValidate actions w))) e
  = false ->
  fst (registerJob cronValidate job e validate
         (stateAfter now cronValidate actions w)) = Normal tt ->
  exists ref,
    timersFor (snd (registerJob cronValidate job e validate
                      (stateAfter now cronValidate actions w))) e = [ref]
    /\ armedTimers (snd (registerJob cronValidate job e validate
                           (stateAfter now cronValidate actions w))) e = [].
Proof.
  intros Hnew Hok.
  pose proof (stateAfter_timers actions w) as Hinv.
  set (m := stateAfter now cronValidate actions w) in *.
  pose proof (registerJob_timers cronValidate job e validate m Hinv) as Hinv'.
  rewrite (registerJob_success job e validate m Hok) in *.
  set (m' := afterSchedule e (name job) (afterSet job m)) in *.
  assert (Hge : JsMap.get (scheduleToJobs (sched m)) e = None).
  { unfold JsMap.has in Hnew.
    destruct (JsMap.get (scheduleToJobs (sched m)) e); [discriminate|auto]. }
  assert (Hheap : taskHeap m' = taskHeap m ++ [mkTask e false]).
  { unfold m', afterSchedule. cbn [afterSet sched scheduleToJobs setJobs].
    rewrite Hge. reflexivity. }
  assert (Hget : JsMap.get (scheduledTasks (sched m')) e
                 = Some (length (taskHeap m))).
  { unfold m', afterSchedule. cbn [afterSet sched scheduleToJobs setJobs].
    rewrite Hge. cbn [sched scheduledTasks]. apply map_get_set_same. }
  exists (length (taskHeap m)). split.
  - rewrite (timersFor_get m' e (ti_tasks _ Hinv')), Hget. reflexivity.
  - destruct (armedTimers m' e) as [|r l] eqn:E; [reflexivity|].
    exfalso.
    assert (Hin : In r (armedTimers m' e)) by (rewrite E; now left).
    apply armedTimers_in in Hin as [t [H1 [H2 H3]]].
    pose proof (ti_armed _ Hinv' r t H1 H3) as Hheld.
    rewrite H2, Hget in Hheld. injection Hheld as <-.
    rewrite Hheap, nth_error_app2, Nat.sub_diag in H1 by lia.
    cbn in H1. injection H1 as <-. discriminate.
Qed.

(** The task objects are all stopped. *)
Lemma act_quiet a s :
  isCallStart a = false ->
  (forall ref t,
     nth_error (taskHeap (machine s)) ref = Some t -> taskRunning t = false) ->
  forall ref t,
    nth_error (taskHeap (machine (act now cronValidate a s))) ref = Some t ->
    taskRunning t = false.
Proof.
  intros Hnot Hq.
  destruct a as [job e v|j| | | |index w outcome]; cbn [act];
    try discriminate.
  - cbn [machine]. rewrite registerJob_unfold.
    assert (Hset : forall ref t,
              nth_error (taskHeap (afterSet job (machine s))) ref = Some t ->
              taskRunning t = false) by exact Hq.
    destruct (negb (cronValidate e)); [exact Hset|].
    destruct (if v then _ else _) as [[]|x]; [|exact Hset].
    cbn [snd]. unfold afterSchedule.
    destruct (JsMap.get _ e); cbn [taskHeap]; [exact Hq|].
    intros ref t Hn.
    destruct (Nat.lt_ge_cases ref (length (taskHeap (machine s))))
      as [Hlt|Hge].
    + rewrite nth_error_app1 in Hn by auto. eauto.
    + rewrite nth_error_app2 in Hn by auto.
      match type of Hn with
      | nth_error _ ?k = _ => destruct k as [|n]; simpl in Hn
      end.
      * injection Hn as <-. reflexivity.
      * destruct n; discriminate.
  - cbn [machine]. rewrite removeJob_unfold. cbn [snd].
    unfold afterRemove. cbn [taskHeap]. unfold afterUngroup.
    destruct (findGroup _ j) as [[e jobSet]|]; [|exact Hq]. cbv zeta.
    destruct (Nat.eqb _ 0); [|exact Hq].
    destruct (JsMap.get _ e) as [task|]; [|exact Hq]. cbn [taskHeap].
    intros ref t. rewrite heapUpdate_nth.
    destruct (Nat.eqb ref task).
    + destruct (nth_error _ ref) as [t0|]; [|discriminate].
      intros [= <-]. reflexivity.
    + apply Hq.
  - destruct (stop_unfold (machine s)) as [ev Hev]. rewrite Hev.
    cbn [machine snd taskHeap]. intros ref t' Hn.
    apply armAll_nth in Hn as [t [H1 [_ [H3|[_ H3]]]]]; [|exact H3].
    rewrite H3. eauto.
  - destruct (isExecuting (sched (machine s))) eqn:Hf.
    + rewrite (invokeRound_busy now (machine s) Hf). exact Hq.
    + destruct (invokeRound_idle now (machine s) Hf)
        as [r [m' [Heq [Hh _]]]].
      rewrite Heq.
      destruct r; cbn [afterRound machine]; rewrite Hh; exact Hq.
  - destruct (nth_error (inFlight s) index) as [f|]; [|exact Hq].
    destruct (resumeRound_frame now f w outcome (machine s))
      as [r [m' [Heq [Hh _]]]].
    rewrite Heq.
    destruct r; cbn [afterRound machine]; rewrite Hh; exact Hq.
Qed.

(** X10. No timer is started before [start()]: after any sequence of
    calls of [registerJob] and [removeJob], of [stop()] and of rounds,
    on a new scheduler, no task object is started. *)
Theorem no_timer_is_started_before_start actions w :
  forallb (fun a => negb (isCallStart a)) actions = true ->
  (forall ref t,
     nth_error (taskHeap (stateAfter now cronValidate actions w)) ref
     = Some t ->
     taskRunning t = false)
  /\ forall e, armedTimers (stateAfter now cronValidate actions w) e = [].
Proof.
  intros Hnone.
  assert (Hq : forall ref t,
            nth_error (taskHeap (stateAfter now cronValidate actions w)) ref
            = Some t ->
            taskRunning t = false).
  { unfold stateAfter.
    assert (H0 : forall ref t,
              nth_error (taskHeap (machine (initialSystem w))) ref = Some t ->
              taskRunning t = false).
    { intros ref t H. destruct ref; discriminate. }
    revert H0. generalize (initialSystem w).
    induction actions as [|a actions IH]; intros s Hs; [exact Hs|].
    cbn [forallb] in Hnone. apply andb_true_iff in Hnone as [Ha Hrest].
    cbn [runActions fold_left]. apply (IH Hrest).
    apply act_quiet; auto. now apply negb_true_iff. }
  split; [exact Hq|].
  intros e. now apply quiet_heap_unarmed.
Qed.

End TimerProperties.

(** ** Registering and removing *)

Lemma filter_all {A} (f : A -> bool) (l : list A) :
  (forall x, In x l -> f x = true) -> filter f l = l.
Proof.
  induction l as [|a l IH]; intros H; simpl; auto.
  rewrite (H a) by now left. f_equal. apply IH. intros x Hx. apply H. now right.
Qed.

Lemma map_keys_delete {V} (m : JsMap.t V) k :
  uniqueKeys m ->
  JsMap.keys (JsMap.delete m k)
  = filter (fun x => negb (String.eqb x k)) (JsMap.keys m).
Proof.
  unfold uniqueKeys.
  induction m as [|[k' v'] m IH]; simpl; auto.
  intros Hnd. inversion Hnd as [|? ? Hout Hrest]; subst.
  destruct (String.eqb k' k) eqn:E; simpl.
  - apply String.eqb_eq in E. subst k'.
    symmetry. apply filter_all. intros x Hx.
    apply negb_true_iff, String.eqb_neq. intros ->. contradiction.
  - f_equal. auto.
Qed.

Section RegistryProperties.

Context {World : Type}.
Variable now : World -> Z.
Variable cronValidate : string -> bool.

Implicit Types (m : Machine World) (job : Job World).

(** X11. [registerJob] looks at the expression first: with an expression
    that [cron.validate] rejects it throws [InvalidSchedule], whatever
    the job and its dependencies are. With an expression that is
    accepted, a job that declares no dependency, and any job when
    [validateDependencies] is false, is registered without a look at
    the registry, so also when a dependency is missing or the registry
    holds a cycle. *)
Theorem registerJob_checks_the_expression_first job e validate m :
  (cronValidate e = false ->
   fst (registerJob cronValidate job e validate m)
   = Throw (InvalidSchedule e))
  /\ (cronValidate e = true ->
      validate = false \/ jobDependencies job = [] ->
      fst (registerJob cronValidate job e validate m) = Normal tt).
Proof.
  rewrite registerJob_unfold. split.
  - intros ->. reflexivity.
  - intros -> Hcase. cbn [negb].
    assert (Hv : (if validate
                  then validationResult job (jobs (sched (afterSet job m)))
                  else Normal tt) = Normal tt).
    { destruct Hcase as [->|Hdeps]; [reflexivity|].
      destruct validate; [|reflexivity].
      unfold validationResult. now rewrite Hdeps. }
    now rewrite Hv.
Qed.

(** X12. [removeJob] never throws and logs nothing. It returns whether
    the name was registered; afterwards the name is not registered, the
    other jobs are as they were and keep their order in [getJobs()],
    and the flag of the round is untouched. *)
Theorem removeJob_forgets_the_job j m :
  uniqueKeys (jobs (sched m)) ->
  fst (removeJob j m) = Normal (JsMap.has (jobs (sched m)) j)
  /\ JsMap.has (jobs (sched (snd (removeJob j m)))) j = false
  /\ (forall k, k <> j ->
        JsMap.get (jobs (sched (snd (removeJob j m)))) k
        = JsMap.get (jobs (sched m)) k)
  /\ JsMap.keys (jobs (sched (snd (removeJob j m))))
     = filter (fun k => negb (String.eqb k j)) (JsMap.keys (jobs (sched m)))
  /\ trace (snd (removeJob j m)) = trace m
  /\ world (snd (removeJob j m)) = world m
  /\ isExecuting (sched (snd (removeJob j m))) = isExecuting (sched m).
Proof.
  intros Hu. rewrite removeJob_unfold. cbn [fst snd].
  destruct (afterUngroup_jobs j m) as [Hjobs Hflag].
  unfold afterRemove. cbn [sched jobs setJobs isExecuting trace world].
  rewrite Hjobs.
  split; [reflexivity|].
  split.
  { unfold JsMap.has. now rewrite map_get_delete_same. }
  split.
  { intros k Hne. apply map_get_delete_other. auto. }
  split; [now apply map_keys_delete|].
  split; [|split; [|exact Hflag]].
  - unfold afterUngroup.
    destruct (findGroup _ j) as [[e jobSet]|]; [|reflexivity]. cbv zeta.
    destruct (Nat.eqb _ 0); [|reflexivity].
    destruct (JsMap.get _ e); reflexivity.
  - unfold afterUngroup.
    destruct (findGroup _ j) as [[e jobSet]|]; [|reflexivity]. cbv zeta.
    destruct (Nat.eqb _ 0); [|reflexivity].
    destruct (JsMap.get _ e); reflexivity.
Qed.

Lemma resultsFor_none results j :
  (forall r, In r results -> jobName r <> Some j) -> resultsFor results j = [].
Proof.
  unfold resultsFor. induction results as [|r results IH]; intros H; auto.
  simpl. destruct (jobName r) as [x|] eqn:E.
  - destruct (String.eqb x j) eqn:Ex.
    + apply String.eqb_eq in Ex. subst x. exfalso.
      apply (H r); [now left|exact E].
    + apply IH. intros r' Hr'. apply H. now right.
  - apply IH. intros r' Hr'. apply H. now right.
Qed.

(** X13. [removeJob] does not look at the jobs that depend on the job it
    removes: it returns as for any other job, and they stay registered.
    From then on every job from which the removed name can be reached
    along dependencies is left out of the execution order: a round
    neither runs it nor returns a result for it. *)
Theorem removeJob_strands_the_dependents d m :
  uniqueKeys (jobs (sched m)) ->
  isExecuting (sched m) = false ->
  fst (removeJob d m) = Normal (JsMap.has (jobs (sched m)) d)
  /\ (forall j job,
        j <> d -> JsMap.get (jobs (sched m)) j = Some job ->
        JsMap.get (jobs (sched (snd (removeJob d m)))) j = Some job)
  /\ exists results m' events,
       executeJobsWithDependencies now (snd (removeJob d m))
       = (Normal results, m')
       /\ trace m' = trace (snd (removeJob d m)) ++ events
       /\ forall j,
            clos_trans string
              (dependsOn (jobGraph (jobs (sched (snd (removeJob d m)))))) j d ->
            ~ In j (resolveDependencies
                      (jobGraph (jobs (sched (snd (removeJob d m))))))
            /\ resultsFor results j = []
            /\ executions events j = 0.
Proof.
  intros Hu Hf. rewrite removeJob_unfold. cbn [fst snd].
  destruct (afterUngroup_jobs d m) as [Hjobs Hflag].
  assert (Hjs : jobs (sched (afterRemove d m))
                = JsMap.delete (jobs (sched m)) d).
  { unfold afterRemove. cbn [sched jobs setJobs]. now rewrite Hjobs. }
  assert (Hu' : uniqueKeys (jobs (sched (afterRemove d m)))).
  { rewrite Hjs. now apply map_delete_unique. }
  assert (Hf' : isExecuting (sched (afterRemove d m)) = false).
  { unfold afterRemove. cbn [sched isExecuting setJobs]. congruence. }
  split; [reflexivity|]. split.
  { intros j job Hne Hj. rewrite Hjs, map_get_delete_other; auto. }
  destruct (round_turn now (afterRemove d m) Hu' Hf')
    as (results & m' & events & Hround & Htrace & _ & _ & Hex & Hal & _).
  exists results, m', events.
  split; [exact Hround|]. split; [exact Htrace|].
  intros j Hreach.
  assert (Hout : ~ In j (resolveDependencies
                           (jobGraph (jobs (sched (afterRemove d m)))))).
  { intros Hin.
    apply order_runnable in Hin; [|now apply jobGraph_unique].
    destruct (Hin d (clos_trans_refl_trans _ _ _ Hreach)) as [Hd _].
    rewrite jobGraph_keys, Hjs in Hd.
    apply map_keys_delete_iff in Hd as [Hd _]; auto. }
  split; [exact Hout|]. split.
  - apply resultsFor_none. intros r Hr Hname. apply Hout.
    eapply named_in; eauto.
  - apply executions_none. intros H. apply Hout, Hex, H.
Qed.


(** X15. The public [executeJob] runs a registered job without any
    condition: it looks neither at the dependencies of the job nor at the
    flag of the round. It invokes [execute()] once and never throws; the
    result says whether [execute()] resolved, carries the time between
    the two readings of the clock and the error of a failure, and has
    neither [jobName] nor [dependenciesMet]. The scheduler is unchanged. *)
Theorem executeJob_runs_the_job_unconditionally m j job :
  JsMap.get (jobs (sched m)) j = Some job ->
  exists r m' events,
    executeJob now j m = (Normal r, m')
    /\ sched m' = sched m
    /\ taskHeap m' = taskHeap m
    /\ world m' = snd (execute job (world m))
    /\ trace m' = trace m ++ events
    /\ executions events j = 1
    /\ executionTime r = (now (world m') - now (world m))%Z
    /\ jobName r = None
    /\ dependenciesMet r = None
    /\ match fst (execute job (world m)) with
       | Normal _ =>
           success r = true /\ error r = None
           /\ message r
              = Some ("Job " ++ j ++ " completed successfully")%string
       | Throw v =>
           success r = false /\ error r = Some (toError v)
           /\ message r = None
       end.
Proof.
  intros Hj. rewrite (executeJob_found now j job m Hj).
  unfold jobOutcome, afterJob.
  destruct (execute job (world m)) as [[[]|v] w'] eqn:E.
  - eexists _, _, _. split; [reflexivity|].
    cbn [sched taskHeap world trace snd fst].
    repeat (split; [reflexivity|]).
    split.
    { unfold executions. cbn [filter isExecution].
      rewrite String.eqb_refl. reflexivity. }
    repeat (split; [reflexivity|]). auto.
  - eexists _, _, _. split; [reflexivity|].
    cbn [sched taskHeap world trace snd fst].
    repeat (split; [reflexivity|]).
    split.
    { unfold executions. cbn [filter isExecution].
      rewrite String.eqb_refl. reflexivity. }
    repeat (split; [reflexivity|]). auto.
Qed.

End RegistryProperties.

(** ** Starting with a first round *)

Section StartupProperties.

Context {World : Type}.
Variable now : World -> Z.
Variable cronValidate : string -> bool.

Implicit Types (m : Machine World) (s : System World).

Lemma forEach_report results : forall m,
  forEach (@reportResult World) results m
  = (Normal tt,
     mkMachine (sched m) (taskHeap m) (world m)
       (trace m ++ map reportLine results)).
Proof.
  induction results as [|r results IH]; intros m.
  - simpl. unfold ret. rewrite app_nil_r. now destruct m.
  - cbn [forEach map]. unfold bind at 1.
    assert (Hr : reportResult r m
                 = (Normal tt,
                    mkMachine (sched m) (taskHeap m) (world m)
                      (trace m ++ [reportLine r]))).
    { unfold reportResult, reportLine.
      destruct (success r); [reflexivity|].
      destruct (dependenciesMet r) as [[]|]; reflexivity. }
    rewrite Hr, IH. cbn [sched taskHeap world trace].
    now rewrite <- app_assoc.
Qed.

Lemma forEachTask_lines text (b : bool) entries : forall m,
  forEachTask text
    (fun ref (m0 : Machine World) =>
       (Normal tt,
        mkMachine (sched m0)
          (heapUpdate (taskHeap m0) ref (setRunning b))
          (world m0) (trace m0)))
    entries m
  = (Normal tt,
     mkMachine (sched m) (armAll b entries (taskHeap m)) (world m)
       (trace m
        ++ map (fun kv => Logged Info (text ++ fst kv)%string) entries)).
Proof.
  unfold armAll.
  induction entries as [|[e ref] entries IH]; intros m.
  - simpl. unfold ret. rewrite app_nil_r. now destruct m.
  - cbn [forEachTask]. cbv [bind log emit]. cbn [sched taskHeap world trace].
    rewrite IH. cbn [sched taskHeap world trace fold_left snd map fst].
    now rewrite <- app_assoc.
Qed.

(** A round leaves the scheduler as it is, but for the flag. *)
Lemma round_frame m :
  exists results m1,
    executeJobsWithDependencies now m = (Normal results, m1)
    /\ jobs (sched m1) = jobs (sched m)
    /\ scheduledTasks (sched m1) = scheduledTasks (sched m)
    /\ scheduleToJobs (sched m1) = scheduleToJobs (sched m)
    /\ isExecuting (sched m1) = isExecuting (sched m)
    /\ taskHeap m1 = taskHeap m.
Proof.
  destruct (isExecuting (sched m)) eqn:Hf.
  - rewrite (round_busy now m Hf). exists [], (warned m).
    split; [reflexivity|]. cbn [warned sched taskHeap]. auto.
  - destruct (round_total now m Hf)
      as [results [cs [m1 [ev [_ [Hrun Hround]]]]]].
    destruct Hrun as [Hs Hh _ _ _ _ _].
    exists results, (roundEnd m1). split; [exact Hround|].
    cbn [roundEnd sched taskHeap]. rewrite Hs, Hh.
    cbn [roundStart sched taskHeap setIsExecuting jobs scheduledTasks
         scheduleToJobs isExecuting]. auto.
Qed.

Lemma executions_lines (f : string * nat -> string) entries j :
  executions (map (fun kv => Logged Info (f kv)) entries) j = 0.
Proof.
  unfold executions. induction entries as [|kv entries IH]; auto.
Qed.

Lemma executions_reports results j :
  executions (map reportLine results) j = 0.
Proof.
  unfold executions. induction results as [|r results IH]; auto.
  cbn [map filter]. unfold reportLine at 1.
  destruct (success r); [exact IH|].
  destruct (dependenciesMet r) as [[]|]; exact IH.
Qed.

(** What [startWithImmediateExecution()] does on a machine. *)
Lemma startup_run m :
  exists results m1 lines,
    executeJobsWithDependencies now
      (logged "Starting job scheduler with immediate execution" m)
    = (Normal results, m1)
    /\ jobs (sched m1) = jobs (sched m)
    /\ scheduledTasks (sched m1) = scheduledTasks (sched m)
    /\ scheduleToJobs (sched m1) = scheduleToJobs (sched m)
    /\ isExecuting (sched m1) = isExecuting (sched m)
    /\ taskHeap m1 = taskHeap m
    /\ (forall j, executions (map reportLine results ++ lines) j = 0)
    /\ startWithImmediateExecution now m
       = (Normal tt,
          mkMachine (sched m1)
            (armAll true (scheduledTasks (sched m1)) (taskHeap m1))
            (world m1) (trace m1 ++ (map reportLine results ++ lines))).
Proof.
  set (m0 := logged "Starting job scheduler with immediate execution" m).
  destruct (round_frame m0) as (results & m1 & Hround & Hj & Ht & Hg & Hf & Hh).
  exists results, m1,
    (map (fun kv => Logged Info
                      ("Starting scheduled task for cron: " ++ fst kv)%string)
         (scheduledTasks (sched m1))).
  split; [exact Hround|].
  repeat (split; [assumption|]).
  split.
  { intros j. rewrite executions_app, executions_reports, executions_lines.
    reflexivity. }
  unfold startWithImmediateExecution.
  unfold bind at 1. unfold log at 1, emit at 1.
  change (mkMachine (sched m) (taskHeap m) (world m)
            (trace m
             ++ [Logged Info
                   "Starting job scheduler with immediate execution"]))
    with m0.
  unfold bind at 1. unfold tryCatch. unfold bind at 1.
  rewrite Hround, forEach_report.
  unfold bind at 1. unfold gets at 1. cbn [sched].
  unfold taskStart. rewrite forEachTask_lines.
  cbn [sched taskHeap world trace]. now rewrite <- app_assoc.
Qed.

(** X16. [startWithImmediateExecution()] never throws. It runs one round,
    as [executeJobsWithDependencies()] does, writes one line for each
    result of the round (a warning for a skipped job, an error for a
    failed one) and then starts the timer of every group, as [start()]
    does; besides the round it invokes no job and changes nothing of the
    registry and the groups. When a round is in flight the round of the
    call is dropped, and the timers are started all the same. *)
Theorem startWithImmediateExecution_runs_a_round_then_starts actions w :
  exists results m1 lines,
    executeJobsWithDependencies now
      (logged "Starting job scheduler with immediate execution"
         (stateAfter now cronValidate actions w))
    = (Normal results, m1)
    /\ (isExecuting (sched (stateAfter now cronValidate actions w)) = true ->
        results = [])
    /\ fst (startWithImmediateExecution now
              (stateAfter now cronValidate actions w)) = Normal tt
    /\ sched (snd (startWithImmediateExecution now
                     (stateAfter now cronValidate actions w))) = sched m1
    /\ world (snd (startWithImmediateExecution now
                     (stateAfter now cronValidate actions w))) = world m1
    /\ trace (snd (startWithImmediateExecution now
                     (stateAfter now cronValidate actions w)))
       = trace m1 ++ map reportLine results ++ lines
    /\ (forall j, executions (map reportLine results ++ lines) j = 0)
    /\ forall e,
         (groupMembers (stateAfter now cronValidate actions w) e <> [] ->
          exists ref,
            timersFor (snd (startWithImmediateExecution now
                              (stateAfter now cronValidate actions w))) e
            = [ref]
            /\ armedTimers (snd (startWithImmediateExecution now
                                   (stateAfter now cronValidate actions w))) e
               = [ref])
         /\ (groupMembers (stateAfter now cronValidate actions w) e = [] ->
             armedTimers (snd (startWithImmediateExecution now
                                 (stateAfter now cronValidate actions w))) e
             = []).
Proof.
  pose proof (stateAfter_timers now cronValidate actions w) as Hinv.
  set (m := stateAfter now cronValidate actions w) in *.
  destruct (startup_run m)
    as (results & m1 & lines & Hround & Hj & Ht & Hg & Hf & Hh & Hex & Hrun).
  exists results, m1, lines.
  split; [exact Hround|].
  split.
  { intros Hb.
    rewrite (round_busy now
               (logged "Starting job scheduler with immediate execution" m)
               Hb) in Hround.
    now injection Hround as <- _. }
  rewrite Hrun. cbn [fst snd sched world trace].
  repeat (split; [reflexivity|]).
  split; [exact Hex|].
  assert (Hinv1 : TimerInv m1).
  { apply (TimerInv_ext m); auto. }
  intros e.
  destruct (armAll_starts m1 (map reportLine results ++ lines) e Hinv1)
    as [H1 H2].
  assert (Hgm : groupMembers m1 e = groupMembers m e).
  { unfold groupMembers. now rewrite Hg. }
  rewrite Hgm in H1, H2. split; assumption.
Qed.

End StartupProperties.

(** ** The flag of the round *)

Section FlightProperties.

Context {World : Type}.
Variable now : World -> Z.
Variable cronValidate : string -> bool.

Implicit Types (m : Machine World) (s : System World).




End FlightProperties.

(** ** The entry point *)

Section EntryProperties.

Context {World : Type}.
Variable now : World -> Z.
Variable cronValidate : string -> bool.
Variable jobLog : LogLevel -> string -> World -> World.
Variable consoleError : Thrown -> World -> World.
Variable construct : Env -> World -> Completion (@Bodies World) * World.

Implicit Types (m : Machine World) (bodies : @Bodies World).

Lemma afterSchedule_frame e j m :
  jobs (sched (afterSchedule e j m)) = jobs (sched m)
  /\ isExecuting (sched (afterSchedule e j m)) = isExecuting (sched m)
  /\ world (afterSchedule e j m) = world m
  /\ trace (afterSchedule e j m) = trace m.
Proof.
  unfold afterSchedule.
  destruct (JsMap.get (scheduleToJobs (sched m)) e); cbn; auto.
Qed.


Lemma registerJob_accepted (job : Job World) e m :
  cronValidate e = true ->
  validationResult job (JsMap.set (jobs (sched m)) (name job) job)
  = Normal tt ->
  registerJob cronValidate job e true m
  = (Normal tt, afterSchedule e (name job) (afterSet job m)).
Proof.
  intros He Hv. rewrite registerJob_unfold, He. cbn [negb].
  cbn [afterSet sched jobs setJobs]. now rewrite Hv.
Qed.

Lemma registerJob_rejected_schedule (job : Job World) e m :
  cronValidate e = false ->
  registerJob cronValidate job e true m
  = (Throw (InvalidSchedule e), afterSet job m).
Proof.
  intros He. rewrite registerJob_unfold, He. reflexivity.
Qed.

(** The first three calls of [registerJob] in [main]. *)
Lemma main_registers_three bodies hourly m :
  jobs (sched m) = [] ->
  cronValidate hourly = true ->
  exists m3,
    (forall A (rest : M World A),
       bind (registerJob cronValidate
               (RssParsingJob jobLog (rssParsingBody bodies)) hourly true)
         (fun _ =>
            bind (registerJob cronValidate
                    (AiAnalysisJob jobLog consoleError (aiAnalysisBody bodies))
                    hourly true)
              (fun _ =>
                 bind (registerJob cronValidate
                         (SocialMediaSearchJob jobLog
                            (socialMediaSearchBody bodies))
                         hourly true)
                   (fun _ => rest))) m
       = rest m3)
    /\ m3 = afterSchedule hourly "social-media-search-job"
              (afterSet
                 (SocialMediaSearchJob jobLog (socialMediaSearchBody bodies))
                 (afterSchedule hourly "ai-analysis-job"
                    (afterSet
                       (AiAnalysisJob jobLog consoleError
                          (aiAnalysisBody bodies))
                       (afterSchedule hourly "parse-feeds-job"
                          (afterSet
                             (RssParsingJob jobLog (rssParsingBody bodies))
                             m)))))
    /\ jobs (sched m3)
       = [("parse-feeds-job", RssParsingJob jobLog (rssParsingBody bodies));
          ("ai-analysis-job",
           AiAnalysisJob jobLog consoleError (aiAnalysisBody bodies));
          ("social-media-search-job",
           SocialMediaSearchJob jobLog (socialMediaSearchBody bodies))].
Proof.
  intros Hnil Hh.
  set (rss := RssParsingJob jobLog (rssParsingBody bodies)).
  set (ai := AiAnalysisJob jobLog consoleError (aiAnalysisBody bodies)).
  set (search := SocialMediaSearchJob jobLog (socialMediaSearchBody bodies)).
  set (m1 := afterSchedule hourly "parse-feeds-job" (afterSet rss m)).
  set (m2 := afterSchedule hourly "ai-analysis-job" (afterSet ai m1)).
  set (m3 := afterSchedule hourly "social-media-search-job"
               (afterSet search m2)).
  assert (Hj1 : jobs (sched m1) = [("parse-feeds-job", rss)]).
  { unfold m1. rewrite (proj1 (afterSchedule_frame _ _ _)).
    cbn [afterSet sched jobs setJobs]. now rewrite Hnil. }
  assert (Hj2 : jobs (sched m2)
                = [("parse-feeds-job", rss); ("ai-analysis-job", ai)]).
  { unfold m2. rewrite (proj1 (afterSchedule_frame _ _ _)).
    cbn [afterSet sched jobs setJobs]. now rewrite Hj1. }
  assert (Hj3 : jobs (sched m3)
                = [("parse-feeds-job", rss); ("ai-analysis-job", ai);
                   ("social-media-search-job", search)]).
  { unfold m3. rewrite (proj1 (afterSchedule_frame _ _ _)).
    cbn [afterSet sched jobs setJobs]. now rewrite Hj2. }
  exists m3. split; [|split; [reflexivity|exact Hj3]].
  intros A rest.
  unfold bind at 1.
  rewrite (registerJob_accepted rss hourly m Hh)
    by (rewrite Hnil; reflexivity).
  change (afterSchedule hourly (name rss) (afterSet rss m)) with m1.
  unfold bind at 1.
  rewrite (registerJob_accepted ai hourly m1 Hh)
    by (rewrite Hj1; vm_compute; reflexivity).
  change (afterSchedule hourly (name ai) (afterSet ai m1)) with m2.
  unfold bind at 1.
  rewrite (registerJob_accepted search hourly m2 Hh)
    by (rewrite Hj2; vm_compute; reflexivity).
  reflexivity.
Qed.








Lemma afterSchedule_quiet e j m :
  (forall ref t,
     nth_error (taskHeap m) ref = Some t -> taskRunning t = false) ->
  forall ref t,
    nth_error (taskHeap (afterSchedule e j m)) ref = Some t ->
    taskRunning t = false.
Proof.
  intros Hq. unfold afterSchedule.
  destruct (JsMap.get _ e); cbn [taskHeap]; [exact Hq|].
  intros ref t Hn.
  destruct (Nat.lt_ge_cases ref (length (taskHeap m))) as [Hlt|Hge].
  - rewrite nth_error_app1 in Hn by auto. eauto.
  - rewrite nth_error_app2 in Hn by auto.
    match type of Hn with
    | nth_error _ ?k = _ => destruct k as [|n]; simpl in Hn
    end.
    + injection Hn as <-. reflexivity.
    + destruct n; discriminate.
Qed.

(** X21. [main] stops the process when its start fails: when building
    the clients, services and jobs throws, or when one of the two
    schedules is not an expression that [cron.validate] accepts, [main]
    logs the failure and calls [process.exit(1)]; no job has been run
    and no timer has been started. *)
Theorem main_exits_when_its_start_fails env w outcome w1 :
  construct env w = (outcome, w1) ->
  match outcome with
  | Throw _ => True
  | Normal _ =>
      cronValidate (EnvConfig.get env "JOB_SCHEDULE" "0 * * * *") = false
      \/ cronValidate (EnvConfig.get env "UPDATES_JOB_SCHEDULE" "0 2 * * *")
         = false
  end ->
  exists m' events,
    main now cronValidate jobLog consoleError construct env (processStart w)
    = (Normal (Exited 1), m')
    /\ trace m'
       = events ++ [Logged Error "Failed to start job scheduler"]
    /\ (forall j, executions events j = 0)
    /\ (forall ref t,
          nth_error (taskHeap m') ref = Some t -> taskRunning t = false)
    /\ world m' = w1.
Proof.
  intros Hc Hcase.
  set (hourly := EnvConfig.get env "JOB_SCHEDULE" "0 * * * *") in *.
  set (daily := EnvConfig.get env "UPDATES_JOB_SCHEDULE" "0 2 * * *") in *.
  set (t0 := [Logged Info "Starting The Void Jobs Scheduler"]).
  set (m0 := mkMachine (@newScheduler World) [] w1 t0).
  assert (Hq0 : forall ref t,
             nth_error (taskHeap m0) ref = Some t -> taskRunning t = false).
  { intros ref t H. destruct ref; discriminate. }
  unfold main. unfold bind at 1. unfold log at 1, emit at 1.
  cbn [processStart sched taskHeap world trace app]. fold t0.
  unfold tryCatch. unfold bind at 1. unfold constructJobs at 1.
  cbn [sched taskHeap world trace]. rewrite Hc.
  destruct outcome as [bodies|v].
  - unfold bind at 1. unfold modify at 1.
    cbn [sched taskHeap world trace]. fold m0. cbv zeta.
    fold hourly. fold daily.
    destruct (cronValidate hourly) eqn:Hh.
    + destruct Hcase as [Hcase|Hd]; [discriminate|].
      destruct (main_registers_three bodies hourly m0 eq_refl Hh)
        as (m3 & Hchain & Hm3 & Hj3).
      rewrite Hchain. unfold bind at 1.
      rewrite (registerJob_rejected_schedule _ daily m3 Hd).
      eexists _, _. split; [reflexivity|].
      cbn [trace afterSet sched taskHeap world].
      rewrite Hm3.
      repeat (rewrite (proj2 (proj2 (proj2 (afterSchedule_frame _ _ _))));
              cbn [afterSet trace]).
      split; [reflexivity|].
      split; [intros j; reflexivity|].
      split.
      * repeat (apply afterSchedule_quiet; cbn [afterSet taskHeap]).
        exact Hq0.
      * repeat (rewrite (proj1 (proj2 (proj2 (afterSchedule_frame _ _ _))));
                cbn [afterSet world]).
        reflexivity.
    + unfold bind at 1.
      rewrite (registerJob_rejected_schedule _ hourly m0 Hh).
      eexists _, _. split; [reflexivity|].
      cbn [trace afterSet sched taskHeap world m0].
      split; [reflexivity|].
      split; [intros j; reflexivity|].
      split; [exact Hq0|reflexivity].
  - eexists _, _. split; [reflexivity|].
    cbn [trace sched taskHeap world].
    split; [reflexivity|].
    split; [intros j; reflexivity|].
    split; [exact Hq0|reflexivity].
Qed.

Lemma aiAnalysis_resolves body (w : World) :
  exists w', aiAnalysisExecute jobLog consoleError body w = (Normal tt, w').
Proof.
  unfold aiAnalysisExecute.
  destruct (body (jobLog Info "Starting AI analysis job" w)) as [[[]|v] w'];
    eauto.
Qed.

Lemma socialMediaSearch_resolves body (w : World) :
  exists w', socialMediaSearchExecute jobLog body w = (Normal tt, w').
Proof.
  unfold socialMediaSearchExecute.
  destruct (body (jobLog Info "Starting social media search job" w))
    as [[[]|v] w']; eauto.
Qed.

Lemma afterJob_jobs j (job : Job World) m :
  jobs (sched (afterJob j job m)) = jobs (sched m).
Proof.
  now rewrite (proj1 (afterJob_sched j job m)).
Qed.

(** X22. In the registry of [main], a round runs the feed parser and the
    updates job first, whatever happened before. The AI analysis and the
    social media search catch every error of their own, so that the
    round never sees them fail: they are run, and reported as a success,
    exactly when the feed parser resolved, and they are skipped when it
    failed. The updates job is run in every round, also in those of the
    hourly timer. *)
Theorem round_of_main_gates_on_the_feed_parser_only bodies m :
  jobs (sched m) = mainRegistry jobLog consoleError bodies ->
  isExecuting (sched m) = false ->
  exists rParse rUpdates rAi rSearch m',
    executeJobsWithDependencies now m
    = (Normal [rParse; rUpdates; rAi; rSearch], m')
    /\ map jobName [rParse; rUpdates; rAi; rSearch]
       = [Some "parse-feeds-job"; Some "social-media-updates-job";
          Some "ai-analysis-job"; Some "social-media-search-job"]
    /\ dependenciesMet rParse = Some true
    /\ dependenciesMet rUpdates = Some true
    /\ match fst (rssParsingBody bodies
                    (jobLog Info "Starting parse feeds job" (world m))) with
       | Normal _ =>
           success rParse = true
           /\ success rAi = true /\ dependenciesMet rAi = Some true
           /\ success rSearch = true /\ dependenciesMet rSearch = Some true
       | Throw v =>
           success rParse = false
           /\ error rParse = Some (toError v)
           /\ rAi = skippedResult "ai-analysis-job"
                      (skipReason "parse-feeds-job")
           /\ rSearch = skippedResult "social-media-search-job"
                          (skipReason "ai-analysis-job")
       end.
Proof.
  intros Hjobs Hf.
  set (rss := RssParsingJob jobLog (rssParsingBody bodies)).
  set (ai := AiAnalysisJob jobLog consoleError (aiAnalysisBody bodies)).
  set (search := SocialMediaSearchJob jobLog (socialMediaSearchBody bodies)).
  set (upd := SocialMediaUpdatesJob jobLog (socialMediaUpdatesBody bodies)).
  rewrite (round_unfold now m Hf), Hjobs.
  assert (Horder : resolveDependencies
                     (jobGraph (mainRegistry jobLog consoleError bodies))
                   = ["parse-feeds-job"; "social-media-updates-job";
                      "ai-analysis-job"; "social-media-search-job"])
    by (vm_compute; reflexivity).
  rewrite Horder.
  set (m1 := roundStart m).
  assert (Hget : forall m0 j job,
            jobs (sched m0) = mainRegistry jobLog consoleError bodies ->
            JsMap.get (mainRegistry jobLog consoleError bodies) j = Some job ->
            JsMap.get (jobs (sched m0)) j = Some job).
  { intros m0 j job ->. auto. }
  (* the feed parser *)
  assert (Hj1 : jobs (sched m1) = mainRegistry jobLog consoleError bodies)
    by exact Hjobs.
  rewrite (roundLoop_run now "parse-feeds-job" rss _ [] [] m1
             (Hget m1 "parse-feeds-job" rss Hj1 eq_refl) eq_refl).
  set (r1 := tagResult "parse-feeds-job"
               (jobOutcome now "parse-feeds-job" rss m1)).
  set (m2 := afterJob "parse-feeds-job" rss m1).
  assert (Hj2 : jobs (sched m2) = mainRegistry jobLog consoleError bodies)
    by (unfold m2; now rewrite afterJob_jobs).
  (* the updates job *)
  assert (Hc2 : forall cs,
            fst (checkDependencies (jobDependencies upd) cs) = true)
    by reflexivity.
  rewrite (roundLoop_run now "social-media-updates-job" upd _ _ _ m2
             (Hget m2 "social-media-updates-job" upd Hj2 eq_refl) (Hc2 _)).
  set (r2 := tagResult "social-media-updates-job"
               (jobOutcome now "social-media-updates-job" upd m2)).
  set (m3 := afterJob "social-media-updates-job" upd m2).
  assert (Hj3 : jobs (sched m3) = mainRegistry jobLog consoleError bodies)
    by (unfold m3; now rewrite afterJob_jobs).
  set (cs2 := markCompleted (markCompleted [] "parse-feeds-job" r1)
                "social-media-updates-job" r2).
  assert (Hr1 : match fst (rssParsingBody bodies
                             (jobLog Info "Starting parse feeds job"
                                (world m))) with
                | Normal _ => success r1 = true
                | Throw v => success r1 = false /\ error r1 = Some (toError v)
                end).
  { unfold r1, jobOutcome. cbn [execute rss RssParsingJob world m1 roundStart].
    unfold rssParsingExecute.
    destruct (rssParsingBody bodies _) as [[[]|v] w']; cbn; auto. }
  destruct (success r1) eqn:Es1.
  - (* the feed parser resolved *)
    assert (Hcs2 : In "parse-feeds-job" cs2).
    { unfold cs2, markCompleted. rewrite Es1.
      destruct (success r2).
      - apply set_add_iff. left. apply set_add_iff. auto.
      - apply set_add_iff. auto. }
    assert (Hc3 : fst (checkDependencies (jobDependencies ai) cs2) = true).
    { apply checkDependencies_met. intros d [<-|[]]. exact Hcs2. }
    rewrite (roundLoop_run now "ai-analysis-job" ai _ _ _ m3
               (Hget m3 "ai-analysis-job" ai Hj3 eq_refl) Hc3).
    set (r3 := tagResult "ai-analysis-job"
                 (jobOutcome now "ai-analysis-job" ai m3)).
    set (m4 := afterJob "ai-analysis-job" ai m3).
    assert (Hj4 : jobs (sched m4) = mainRegistry jobLog consoleError bodies)
      by (unfold m4; now rewrite afterJob_jobs).
    assert (Es3 : success r3 = true).
    { unfold r3. cbn [tagResult success]. apply jobOutcome_success.
      apply aiAnalysis_resolves. }
    assert (Hc4 : fst (checkDependencies (jobDependencies search)
                         (markCompleted cs2 "ai-analysis-job" r3)) = true).
    { apply checkDependencies_met. intros d [<-|[]].
      unfold markCompleted. rewrite Es3. apply set_add_iff. auto. }
    rewrite (roundLoop_run now "social-media-search-job" search _ _ _ m4
               (Hget m4 "social-media-search-job" search Hj4 eq_refl) Hc4).
    set (r4 := tagResult "social-media-search-job"
                 (jobOutcome now "social-media-search-job" search m4)).
    assert (Es4 : success r4 = true).
    { unfold r4. cbn [tagResult success]. apply jobOutcome_success.
      apply socialMediaSearch_resolves. }
    cbn [roundLoop ret fst app].
    eexists r1, r2, r3, r4, _. split; [reflexivity|].
    split; [reflexivity|]. split; [reflexivity|]. split; [reflexivity|].
    destruct (fst (rssParsingBody bodies _)); [|destruct Hr1; congruence].
    repeat split; auto.
  - (* the feed parser failed *)
    assert (Hcs2 : ~ In "parse-feeds-job" cs2).
    { unfold cs2, markCompleted. rewrite Es1.
      destruct (success r2); [|intros []].
      intros H. apply set_add_iff in H as [[]|H]. discriminate. }
    assert (Hc3 : checkDependencies (jobDependencies ai) cs2
                  = (false, skipReason "parse-feeds-job")).
    { cbn [jobDependencies ai AiAnalysisJob dependencies checkDependencies].
      apply set_has_false in Hcs2. rewrite Hcs2. reflexivity. }
    rewrite (roundLoop_skip now "ai-analysis-job" ai _ _ _ m3
               (Hget m3 "ai-analysis-job" ai Hj3 eq_refl))
      by (rewrite Hc3; reflexivity).
    rewrite Hc3. cbn [snd].
    match goal with
    | |- context [roundLoop now ["social-media-search-job"] _ cs2 ?mm] =>
        set (m4 := mm)
    end.
    assert (Hj4 : jobs (sched m4) = mainRegistry jobLog consoleError bodies)
      by exact Hj3.
    assert (Hai : ~ In "ai-analysis-job" cs2).
    { unfold cs2, markCompleted. rewrite Es1.
      destruct (success r2); [|intros []].
      intros H. apply set_add_iff in H as [[]|H]. discriminate. }
    assert (Hc4 : checkDependencies (jobDependencies search) cs2
                  = (false, skipReason "ai-analysis-job")).
    { cbn [jobDependencies search SocialMediaSearchJob dependencies
           checkDependencies].
      apply set_has_false in Hai. rewrite Hai. reflexivity. }
    rewrite (roundLoop_skip now "social-media-search-job" search _ _ _ m4
               (Hget m4 "social-media-search-job" search Hj4 eq_refl))
      by (rewrite Hc4; reflexivity).
    rewrite Hc4. cbn [snd roundLoop ret fst app].
    eexists r1, r2, _, _, _. split; [reflexivity|].
    split; [reflexivity|]. split; [reflexivity|]. split; [reflexivity|].
    destruct (fst (rssParsingBody bodies _)); [congruence|].
    destruct Hr1 as [_ Herr]. repeat split; auto.
Qed.

(** X24. The handler [main] installs for [SIGINT] and [SIGTERM] stops
    every timer and then calls [process.exit(0)], in whatever state the
    scheduler is; it does not touch the registry, the groups or the flag
    of the round, and so does not wait for a round in flight. *)
Theorem signal_handler_stops_the_timers actions w signal :
  exists m',
    onSignal signal (stateAfter now cronValidate actions w)
    = (Normal (Exited 0), m')
    /\ sched m' = sched (stateAfter now cronValidate actions w)
    /\ world m' = world (stateAfter now cronValidate actions w)
    /\ (forall ref t,
          nth_error (taskHeap m') ref = Some t -> taskRunning t = false)
    /\ (forall e, armedTimers m' e = [])
    /\ forall j,
         executions (trace m') j
         = executions (trace (stateAfter now cronValidate actions w)) j.
Proof.
  pose proof (stateAfter_timers now cronValidate actions w) as Hinv.
  set (m := stateAfter now cronValidate actions w) in *.
  set (m0 := logged ("Received " ++ signal ++ ", shutting down gracefully") m).
  assert (Hinv0 : TimerInv m0) by (apply (TimerInv_ext m); auto).
  assert (Hstop : stop m0
                  = (Normal tt,
                     mkMachine (sched m0)
                       (armAll false (scheduledTasks (sched m0)) (taskHeap m0))
                       (world m0)
                       (trace m0
                        ++ (Logged Info "Stopping job scheduler"
                            :: map (fun kv =>
                                      Logged Info
                                        ("Stopping scheduled task for cron: "
                                         ++ fst kv)%string)
                                 (scheduledTasks (sched m0)))))).
  { unfold stop. unfold bind at 1. unfold log at 1, emit at 1.
    unfold bind at 1. unfold gets at 1. cbn [sched].
    unfold taskStop. rewrite forEachTask_lines.
    cbn [sched taskHeap world trace]. now rewrite <- app_assoc. }
  eexists. split.
  { unfold onSignal. unfold bind at 1. unfold log at 1, emit at 1.
    fold (logged ("Received " ++ signal ++ ", shutting down gracefully") m).
    fold m0. unfold bind at 1. rewrite Hstop. reflexivity. }
  cbn [sched world taskHeap trace m0 logged].
  split; [reflexivity|]. split; [reflexivity|].
  assert (Hq : forall ref t,
            nth_error (armAll false (scheduledTasks (sched m)) (taskHeap m))
              ref = Some t -> taskRunning t = false).
  { intros ref t. now apply armAll_stops_all. }
  split; [exact Hq|].
  split; [intros e; now apply quiet_heap_unarmed|].
  intros j. rewrite !executions_app.
  change (Logged Info "Stopping job scheduler"
          :: map ?f ?l) with ([Logged Info "Stopping job scheduler"]
                              ++ map f l).
  rewrite executions_app, executions_lines. cbn. lia.
Qed.

End EntryProperties.

(** ** The job named by the cycle search *)

Lemma forEachDependency_restores
    (call : string -> DfsState -> option (bool * DfsState)) :
  (forall d st st',
     call d st = Some (false, st') ->
     recursionStack st' = recursionStack st) ->
  forall deps st st',
    forEachDependency call deps st = Some (false, st') ->
    recursionStack st' = recursionStack st.
Proof.
  intros Hcall. induction deps as [|d deps IH]; intros st st'; simpl.
  - now intros [= <-].
  - destruct (call d st) as [[[] st1]|] eqn:E; try discriminate.
    intros H. rewrite (IH st1 st' H). eapply Hcall; eauto.
Qed.

Lemma hasCycle_restores g : forall fuel x st st',
  hasCycle fuel g x st = Some (false, st') ->
  recursionStack st' = recursionStack st.
Proof.
  induction fuel as [|fuel IH]; intros x st st'; [discriminate|].
  cbn [hasCycle].
  destruct (JsSet.has (recursionStack st) x) eqn:Es; [discriminate|].
  destruct (JsSet.has (visited st) x) eqn:Ev; [now intros [= <-]|].
  destruct (forEachDependency _ _ _) as [[[] st2]|] eqn:E; try discriminate.
  intros [= <-]. cbn [recursionStack].
  rewrite (forEachDependency_restores _ (IH) _ _ _ E). cbn [recursionStack].
  apply set_delete_add_new. now apply set_has_false.
Qed.

Lemma forEachDependency_true
    (call : string -> DfsState -> option (bool * DfsState)) :
  (forall d st st',
     call d st = Some (false, st') ->
     recursionStack st' = recursionStack st) ->
  forall deps st st',
    forEachDependency call deps st = Some (true, st') ->
    exists d st1,
      In d deps /\ call d st1 = Some (true, st')
      /\ recursionStack st1 = recursionStack st.
Proof.
  intros Hcall. induction deps as [|d deps IH]; intros st st'; simpl.
  - discriminate.
  - destruct (call d st) as [[[] st1]|] eqn:E; try discriminate.
    + intros [= <-]. exists d, st. auto.
    + intros H. destruct (IH st1 st' H) as [d' [st2 [Hd [Hc Hs]]]].
      exists d', st2. split; [auto|]. split; [exact Hc|].
      rewrite Hs. eapply Hcall; eauto.
Qed.

(** When the search from [x] reports a cycle, one can be reached from
    [x]. *)
Lemma hasCycle_true_reaches g : forall fuel x st st',
  (forall s, In s (recursionStack st) ->
             clos_trans string (dependsOn g) s x) ->
  hasCycle fuel g x st = Some (true, st') ->
  exists c, reaches g x c /\ clos_trans string (dependsOn g) c c.
Proof.
  induction fuel as [|fuel IH]; intros x st st' Hstack; [discriminate|].
  cbn [hasCycle].
  destruct (JsSet.has (recursionStack st) x) eqn:Es.
  { intros _. apply set_has_true in Es. exists x.
    split; [apply rt_refl|auto]. }
  destruct (JsSet.has (visited st) x) eqn:Ev; [discriminate|].
  destruct (forEachDependency _ _ _) as [[[] st2]|] eqn:E; try discriminate.
  intros _.
  apply forEachDependency_true in E as [d [st1 [Hd [Hc Hs]]]];
    [|apply hasCycle_restores].
  cbn [recursionStack] in Hs.
  assert (Hedge : dependsOn g x d).
  { destruct (JsMap.get g x) as [ds|] eqn:Hg; [|destruct Hd].
    exists ds. auto. }
  destruct (IH d st1 st2) as [c [Hreach Hcyc]]; auto.
  - intros s Hin. rewrite Hs in Hin. apply set_add_iff in Hin as [Hin| ->].
    + eapply t_trans; [apply Hstack; exact Hin|]. now apply t_step.
    + now apply t_step.
  - exists c. split; [|exact Hcyc].
    eapply rt_trans; [apply rt_step; exact Hedge|exact Hreach].
Qed.

Lemma detectFromRoots_first g fuel : forall roots st j,
  unvisited g st < fuel ->
  (forall x, In x roots -> In x (JsMap.keys g)) ->
  DfsInv g st -> recursionStack st = [] ->
  detectFromRoots fuel g roots st = Some (Some j) ->
  exists l1 l2,
    roots = l1 ++ j :: l2
    /\ (exists c, reaches g j c /\ clos_trans string (dependsOn g) c c)
    /\ forall r, In r l1 ->
         forall c, reaches g r c -> ~ clos_trans string (dependsOn g) c c.
Proof.
  induction roots as [|x roots IH]; intros st j Hfuel Hroots Hinv Hstk;
    [discriminate|].
  simpl.
  destruct (hasCycle_ok g fuel x st) as [b [st1 [Hc [Ht Hf]]]]; auto.
  { apply key_in_names. apply Hroots. simpl. auto. }
  { rewrite Hstk. intros s []. }
  rewrite Hc. destruct b.
  - intros [= <-]. exists [], roots. split; [reflexivity|]. split.
    + apply (hasCycle_true_reaches g fuel x st st1); auto.
      rewrite Hstk. intros s [].
    + intros r [].
  - destruct (Hf eq_refl) as [Hinv1 [Hstk1 [Hvis1 Hfin1]]].
    intros H.
    destruct (IH st1 j) as [l1 [l2 [Hsplit [Hreach Hbefore]]]]; auto.
    + pose proof (unvisited_mono g st st1 Hvis1). lia.
    + intros y Hy. apply Hroots. simpl. auto.
    + congruence.
    + exists (x :: l1), l2. split; [now rewrite Hsplit|].
      split; [exact Hreach|].
      intros r [<-|Hr] c Hc'; [|eapply Hbefore; eauto].
      apply (di_acyclic g st1 Hinv1).
      eapply finished_reach; eauto.
Qed.

Lemma detectCycle_first g j :
  detectCycle g = Some j ->
  exists l1 l2,
    JsMap.keys g = l1 ++ j :: l2
    /\ (exists c, reaches g j c /\ clos_trans string (dependsOn g) c c)
    /\ forall r, In r l1 ->
         forall c, reaches g r c -> ~ clos_trans string (dependsOn g) c c.
Proof.
  unfold detectCycle.
  destruct (detectFromRoots _ g _ _) as [r|] eqn:E; [|discriminate].
  intros ->.
  apply (detectFromRoots_first g (dfsFuel g) (JsMap.keys g) (mkDfs [] []));
    auto.
  - apply unvisited_initial.
  - apply dfs_initial.
Qed.

Section SearchProperties.

Context {World : Type}.

Implicit Types (m : Machine World).

(** X23. [detectCircularDependencies()] changes nothing. It returns when
    no registered job reaches itself, and otherwise throws
    [CircularDependency] for the first job, in the order of
    registration, from which a cycle can be reached along dependencies;
    that job need not be on the cycle itself. *)
Theorem detectCircularDependencies_names_the_first_job_before_a_cycle m :
  snd (detectCircularDependencies m) = m
  /\ (fst (detectCircularDependencies m) = Normal tt
      <-> acyclic (jobGraph (jobs (sched m))))
  /\ forall v,
       fst (detectCircularDependencies m) = Throw v ->
       exists l1 j l2,
         v = CircularDependency j
         /\ JsMap.keys (jobs (sched m)) = l1 ++ j :: l2
         /\ (exists c,
               reaches (jobGraph (jobs (sched m))) j c
               /\ clos_trans string (dependsOn (jobGraph (jobs (sched m))))
                    c c)
         /\ forall r, In r l1 ->
              forall c,
                reaches (jobGraph (jobs (sched m))) r c ->
                ~ clos_trans string (dependsOn (jobGraph (jobs (sched m))))
                    c c.
Proof.
  unfold detectCircularDependencies, bind, gets.
  destruct (detectCycle (jobGraph (jobs (sched m)))) as [j|] eqn:E.
  - cbn [throw fst snd]. split; [reflexivity|]. split.
    + split; [discriminate|]. intros Hacyc. exfalso.
      destruct (detectCycle_sound _ _ E) as [[c Hc] _].
      exact (Hacyc c Hc).
    + intros v [= <-].
      destruct (detectCycle_first _ _ E) as [l1 [l2 [Hk [Hreach Hbefore]]]].
      rewrite jobGraph_keys in Hk.
      exists l1, j, l2. auto.
  - cbn [ret fst snd]. split; [reflexivity|]. split.
    + split; [intros _; now apply detectCycle_complete|reflexivity].
    + intros v [=].
Qed.

End SearchProperties.

(** ** The further properties on examples *)

Lemma getExecutionOrder_runnable_witness :
  uniqueKeys (jobs (sched tangledMachine))
  /\ exists order,
       getExecutionOrder tangledMachine = (Normal order, tangledMachine)
       /\ order = ["B"; "C"]
       /\ (In "D" order
           <-> runnable (jobGraph (jobs (sched tangledMachine))) "D").
Proof.
  assert (H : uniqueKeys (jobs (sched tangledMachine)))
    by (apply distinct_sound; by_evaluation).
  split; [exact H|].
  destruct (getExecutionOrder_lists_the_runnable_jobs tangledMachine H)
    as [order [Ho [_ [_ Hrun]]]].
  exists order. split; [exact Ho|]. split; [|apply Hrun].
  vm_compute in Ho. injection Ho as <-. reflexivity.
Defined.




Lemma registerJob_joins_witness :
  fst (registerJob sampleCron analyzeJob "0 2 * * *" false twiceMachine)
  = Normal tt
  /\ groupMembers
       (snd (registerJob sampleCron analyzeJob "0 2 * * *" false twiceMachine))
       "0 * * * *"
     = groupMembers twiceMachine "0 * * * *"
  /\ taskHeap
       (snd (registerJob sampleCron analyzeJob "0 2 * * *" false twiceMachine))
     = taskHeap twiceMachine.
Proof.
  assert (H : fst (registerJob sampleCron analyzeJob "0 2 * * *" false
                     twiceMachine) = Normal tt) by by_evaluation.
  split; [exact H|].
  destruct (registerJob_joins_the_group_of_its_expression sampleCron
              analyzeJob "0 2 * * *" false twiceMachine H)
    as (_ & _ & Hother & Hold & _).
  split.
  - apply Hother. discriminate.
  - apply Hold. by_evaluation.
Defined.

Lemma timer_of_a_new_expression_witness :
  JsMap.has
    (scheduleToJobs
       (sched (stateAfter sampleNow sampleCron
                 [CallRegisterJob parseJob "0 * * * *" true; CallStart] 0%Z)))
    "0 2 * * *" = false
  /\ armedTimers
       (stateAfter sampleNow sampleCron
          [CallRegisterJob parseJob "0 * * * *" true; CallStart] 0%Z)
       "0 * * * *" = [0]
  /\ exists ref,
       timersFor
         (snd (registerJob sampleCron plainJob "0 2 * * *" true
                 (stateAfter sampleNow sampleCron
                    [CallRegisterJob parseJob "0 * * * *" true; CallStart]
                    0%Z))) "0 2 * * *" = [ref]
       /\ armedTimers
            (snd (registerJob sampleCron plainJob "0 2 * * *" true
                    (stateAfter sampleNow sampleCron
                       [CallRegisterJob parseJob "0 * * * *" true; CallStart]
                       0%Z))) "0 2 * * *" = [].
Proof.
  split; [by_evaluation|]. split; [by_evaluation|].
  apply (timer_of_a_new_expression_is_not_started sampleNow sampleCron
           [CallRegisterJob parseJob "0 * * * *" true; CallStart] 0%Z
           plainJob "0 2 * * *" true); by_evaluation.
Defined.

Lemma no_timer_before_start_witness :
  forallb (fun a => negb (isCallStart a))
    [CallRegisterJob parseJob "0 * * * *" true;
     CallRegisterJob plainJob "0 2 * * *" true;
     CallStop; CallExecuteRound] = true
  /\ armedTimers
       (stateAfter sampleNow sampleCron
          [CallRegisterJob parseJob "0 * * * *" true;
           CallRegisterJob plainJob "0 2 * * *" true;
           CallStop; CallExecuteRound] 0%Z) "0 * * * *" = [].
Proof.
  assert (H : forallb (fun a => negb (isCallStart a))
                [CallRegisterJob parseJob "0 * * * *" true;
                 CallRegisterJob plainJob "0 2 * * *" true;
                 CallStop; CallExecuteRound] = true) by reflexivity.
  split; [exact H|].
  exact (proj2 (no_timer_is_started_before_start sampleNow sampleCron
                  [CallRegisterJob parseJob "0 * * * *" true;
                   CallRegisterJob plainJob "0 2 * * *" true;
                   CallStop; CallExecuteRound] 0%Z H) "0 * * * *").
Defined.

Lemma removeJob_forgets_witness :
  uniqueKeys (jobs (sched pipelineMachine))
  /\ fst (removeJob "analyze" pipelineMachine) = Normal true
  /\ JsMap.keys (jobs (sched (snd (removeJob "analyze" pipelineMachine))))
     = ["parse"; "social"].
Proof.
  assert (H : uniqueKeys (jobs (sched pipelineMachine)))
    by (apply distinct_sound; by_evaluation).
  split; [exact H|].
  destruct (removeJob_forgets_the_job "analyze" pipelineMachine H)
    as (Hret & _ & _ & Hkeys & _).
  split.
  - rewrite Hret. by_evaluation.
  - rewrite Hkeys. by_evaluation.
Defined.

Lemma removeJob_strands_witness :
  uniqueKeys (jobs (sched chainMachine))
  /\ isExecuting (sched chainMachine) = false
  /\ JsMap.has (jobs (sched (snd (removeJob "fetch" chainMachine)))) "publish"
     = true
  /\ exists results m' events,
       executeJobsWithDependencies sampleNow
         (snd (removeJob "fetch" chainMachine)) = (Normal results, m')
       /\ trace m' = trace (snd (removeJob "fetch" chainMachine)) ++ events
       /\ resultsFor results "publish" = []
       /\ executions events "publish" = 0.
Proof.
  assert (H1 : uniqueKeys (jobs (sched chainMachine)))
    by (apply distinct_sound; by_evaluation).
  assert (H2 : isExecuting (sched chainMachine) = false) by by_evaluation.
  split; [exact H1|]. split; [exact H2|]. split; [by_evaluation|].
  destruct (removeJob_strands_the_dependents sampleNow "fetch" chainMachine
              H1 H2)
    as (_ & _ & results & m' & events & Hround & Htrace & Hout).
  exists results, m', events.
  split; [exact Hround|]. split; [exact Htrace|].
  destruct (Hout "publish") as (_ & Hres & Hex); [|auto].
  apply t_trans with (y := "index"); apply t_step.
  - exists ["index"; "fetch"]. split; [by_evaluation|]. simpl. auto.
  - exists ["fetch"]. split; [by_evaluation|]. simpl. auto.
Defined.


Lemma executeJob_unconditionally_witness :
  JsMap.get (jobs (sched pipelineMachine)) "social" = Some socialJob
  /\ exists r m' events,
       executeJob sampleNow "social" pipelineMachine = (Normal r, m')
       /\ trace m' = trace pipelineMachine ++ events
       /\ executions events "social" = 1
       /\ success r = true.
Proof.
  assert (H : JsMap.get (jobs (sched pipelineMachine)) "social"
              = Some socialJob) by by_evaluation.
  split; [exact H|].
  destruct (executeJob_runs_the_job_unconditionally sampleNow
              pipelineMachine "social" socialJob H)
    as (r & m' & events & Hrun & _ & _ & _ & Htrace & Hone & _ & _ & _ & Hcase).
  exists r, m', events.
  split; [exact Hrun|]. split; [exact Htrace|]. split; [exact Hone|].
  exact (proj1 Hcase).
Defined.

Lemma validateAllDependencies_witness :
  uniqueKeys (jobs (sched tangledMachine))
  /\ ~ acyclic (jobGraph (jobs (sched tangledMachine)))
  /\ fst (validateAllDependencies tangledMachine) <> Normal tt.
Proof.
  assert (H : uniqueKeys (jobs (sched tangledMachine)))
    by (apply distinct_sound; by_evaluation).
  split; [exact H|].
  assert (Hcyc : ~ acyclic (jobGraph (jobs (sched tangledMachine)))).
  { intros Hacyc. apply (Hacyc "A"). apply t_step.
    exists ["A"]. split; [by_evaluation|]. simpl. auto. }
  split; [exact Hcyc|].
  intros Hok. apply Hcyc.
  exact (proj2 (proj1 (proj1 (validateAllDependencies_accepts_valid_graphs
                                tangledMachine H)) Hok)).
Defined.

Lemma validated_registry_witness :
  uniqueKeys (jobs (sched chainMachine))
  /\ fst (validateAllDependencies chainMachine) = Normal tt
  /\ exists names order,
       getJobs chainMachine = (Normal names, chainMachine)
       /\ getExecutionOrder chainMachine = (Normal order, chainMachine)
       /\ forall j, In j names -> In j order.
Proof.
  assert (H : uniqueKeys (jobs (sched chainMachine)))
    by (apply distinct_sound; by_evaluation).
  assert (Hok : fst (validateAllDependencies chainMachine) = Normal tt)
    by by_evaluation.
  split; [exact H|]. split; [exact Hok|].
  destruct (validated_registry_is_scheduled_in_full chainMachine H)
    as (names & order & Hn & Ho & Hiff).
  exists names, order. split; [exact Hn|]. split; [exact Ho|].
  exact (proj1 Hiff Hok).
Defined.


Lemma main_exits_witness :
  sampleConstruct [("JOB_SCHEDULE", "every hour")] 0%Z
  = (Normal sampleBodies, 0%Z)
  /\ sampleCron
       (EnvConfig.get [("JOB_SCHEDULE", "every hour")] "JOB_SCHEDULE"
          "0 * * * *") = false
  /\ exists m' events,
       main sampleNow sampleCron quietLog quietError sampleConstruct
         [("JOB_SCHEDULE", "every hour")] (processStart 0%Z)
       = (Normal (Exited 1), m')
       /\ trace m' = events ++ [Logged Error "Failed to start job scheduler"]
       /\ executions events "parse-feeds-job" = 0.
Proof.
  assert (H1 : sampleConstruct [("JOB_SCHEDULE", "every hour")] 0%Z
               = (Normal sampleBodies, 0%Z)) by reflexivity.
  assert (H2 : sampleCron
                 (EnvConfig.get [("JOB_SCHEDULE", "every hour")]
                    "JOB_SCHEDULE" "0 * * * *") = false) by by_evaluation.
  split; [exact H1|]. split; [exact H2|].
  destruct (main_exits_when_its_start_fails sampleNow sampleCron quietLog
              quietError sampleConstruct [("JOB_SCHEDULE", "every hour")]
              0%Z (Normal sampleBodies) 0%Z H1 (or_introl H2))
    as (m' & events & Hmain & Htrace & Hnone & _).
  exists m', events. split; [exact Hmain|]. split; [exact Htrace|].
  apply Hnone.
Defined.

Lemma round_of_main_witness :
  jobs (sched mainMachine) = mainRegistry quietLog quietError sampleBodies
  /\ isExecuting (sched mainMachine) = false
  /\ exists rParse rUpdates rAi rSearch m',
       executeJobsWithDependencies sampleNow mainMachine
       = (Normal [rParse; rUpdates; rAi; rSearch], m')
       /\ executionTime rParse = 5%Z
       /\ success rAi = true
       /\ success rSearch = true.
Proof.
  assert (H1 : jobs (sched mainMachine)
               = mainRegistry quietLog quietError sampleBodies)
    by reflexivity.
  assert (H2 : isExecuting (sched mainMachine) = false) by reflexivity.
  split; [exact H1|]. split; [exact H2|].
  destruct (round_of_main_gates_on_the_feed_parser_only sampleNow quietLog
              quietError sampleBodies mainMachine H1 H2)
    as (r1 & r2 & r3 & r4 & m' & Hround & _ & _ & _ & Hcase).
  exists r1, r2, r3, r4, m'. split; [exact Hround|].
  cbn in Hcase. destruct Hcase as (_ & H3 & _ & H4 & _).
  split; [|split; [exact H3|exact H4]].
  vm_compute in Hround. injection Hround as <- _ _ _ _. reflexivity.
Defined.
